(** * The bar-chart race engine of the operators dashboard (race.js)

    A shallow embedding of [calculateNiceStep] and of the [RaceLogic] object:
    the history pagination loop of [fetchData], [processTimeline], and the
    playback controls ([togglePlay], [loop], [toggleSpeed], the slider
    handler, [setMetric], [stop], [toggleFilter], [renderFrame]); then the
    snapshots and the union of ids of [discoverTopOperators], the metadata
    loop of [fetchData] with the colour of an operator, and the bars that
    [renderFrame] draws.

    Conventions of the embedding.
    - JavaScript numbers that hold dates, indices and delays are integers
      and are modelled by [Z].
    - JavaScript numbers that hold parsed metric values are modelled by
      [num]: the extended rationals with a not-a-number element.  Every
      double is a rational, an infinity or NaN, so the built-in
      [parseFloat] can be kept as a parameter with values in [num].
      Division and multiplication round to the nearest double ([js_div],
      [js_mul]).  A difference is computed by the comparators of [sort]
      only, which use its sign; rounding keeps the sign of a difference
      of doubles, and [num_sub] is left exact.  There is a single zero:
      the sign of a zero is not modelled.
    - [Math.log10] and [Math.pow] are implementation-approximated in
      ECMAScript outside their special cases; their values there are
      parameters of the development ([MathHost]).
    - The name of an operator is the JSON value that [parseMetadata]
      returns, a string or not ([Json]).
    - Plain objects used as dictionaries are [gmap]s; the per-day object
      whose keys are enumerated with [Object.keys] is an association list
      in insertion order.  Identifiers are operator addresses; property
      names inherited from [Object.prototype] are not modelled.
    - [throw] is modelled by the [result] monad.
    - The DOM is reduced to the list of frames drawn by [renderFrame] and
      the timer table of the host ([setTimeout] / [clearTimeout]); the
      rows of the chart are modelled apart, by [renderBars]. *)

From Stdlib Require Import ZArith QArith Qround Qpower Lia Lqa List Permutation.
From Stdlib Require Import Sorting.Sorted Ascii String.
From stdpp Require Import base option list gmap strings sorting.

Local Open Scope Z_scope.

(** ** JavaScript numbers *)

Inductive num : Type :=
  | NaN
  | NegInf
  | Fin (q : Q)
  | PosInf.

Definition Qzero (q : Q) : bool := Qeq_bool q 0.
Definition Qpositive (q : Q) : bool := negb (Qle_bool q 0).
Definition Qnegative (q : Q) : bool := negb (Qle_bool 0 q).

(** [a - b] *)
Definition num_sub (a b : num) : num :=
  match a, b with
  | NaN, _ | _, NaN => NaN
  | PosInf, PosInf | NegInf, NegInf => NaN
  | PosInf, _ => PosInf
  | NegInf, _ => NegInf
  | Fin _, PosInf => NegInf
  | Fin _, NegInf => PosInf
  | Fin x, Fin y => Fin (x - y)
  end.

(** [a * b] *)
Definition num_mul (a b : num) : num :=
  let signed (pos : bool) := if pos then PosInf else NegInf in
  match a, b with
  | NaN, _ | _, NaN => NaN
  | Fin x, Fin y => Fin (x * y)
  | Fin x, PosInf | PosInf, Fin x =>
      if Qzero x then NaN else signed (Qpositive x)
  | Fin x, NegInf | NegInf, Fin x =>
      if Qzero x then NaN else signed (Qnegative x)
  | PosInf, PosInf | NegInf, NegInf => PosInf
  | PosInf, NegInf | NegInf, PosInf => NegInf
  end.

(** [a / b]; the only zero of the model is the positive one. *)
Definition num_div (a b : num) : num :=
  match a, b with
  | NaN, _ | _, NaN => NaN
  | (PosInf | NegInf), (PosInf | NegInf) => NaN
  | PosInf, Fin y => if Qnegative y then NegInf else PosInf
  | NegInf, Fin y => if Qnegative y then PosInf else NegInf
  | Fin _, (PosInf | NegInf) => Fin 0
  | Fin x, Fin y =>
      if Qzero y then
        (if Qzero x then NaN else if Qpositive x then PosInf else NegInf)
      else Fin (x / y)
  end.

(** [a < b] *)
Definition num_lt (a b : num) : bool :=
  match a, b with
  | NaN, _ | _, NaN => false
  | _, NegInf => false
  | NegInf, _ => true
  | PosInf, _ => false
  | Fin _, PosInf => true
  | Fin x, Fin y => negb (Qle_bool y x)
  end.

(** [a === 0] *)
Definition num_is_zero (a : num) : bool :=
  match a with
  | Fin q => Qzero q
  | _ => false
  end.

(** The sign test [v > 0] that [Array.prototype.sort] applies to the value
    returned by a comparator (NaN counts as [0]). *)
Definition num_pos (a : num) : bool := num_lt (Fin 0) a.

(** ** Doubles

    The result of an arithmetic operator is the double nearest to the
    exact result, the one with the even significand of two that are
    equally near (IEEE 754 binary64, round to nearest, ties to even).
    [double q] is that double for the exact result [q]. *)

(** [2^k] for an integer [k]. *)
Definition pow2 (k : Z) : Q :=
  if 0 <=? k then inject_Z (2 ^ k) else (1 # Z.to_pos (2 ^ (- k)))%Q.

(** [floor (log2 q)] for a positive rational [q]. *)
Definition floor_log2 (q : Q) : Z :=
  let a := Qnum q in
  let b := Zpos (Qden q) in
  if b <=? a then Z.log2 (a / b) else - (Z.log2 ((b - 1) / a) + 1).

(** The integer nearest to [x], the even one of two that are equally near. *)
Definition roundToEven (x : Q) : Z :=
  let f := Qfloor x in
  match Qcompare (x - inject_Z f) (1 # 2) with
  | Lt => f
  | Gt => f + 1
  | Eq => if Z.even f then f else f + 1
  end.

(** The distance between the doubles around [q > 0]: 52 binary digits
    below the leading one, and [2^-1074] in the subnormal range. *)
Definition ulp (q : Q) : Q := pow2 (Z.max (floor_log2 q) (-1022) - 52).

(** The double nearest to [q > 0], infinite from [2^1024] on. *)
Definition nearestDouble (q : Q) : num :=
  let y := (inject_Z (roundToEven (q / ulp q)) * ulp q)%Q in
  if Qle_bool (pow2 1024) y then PosInf else Fin (Qred y).

(** [- a] *)
Definition num_opp (a : num) : num :=
  match a with
  | NaN => NaN
  | NegInf => PosInf
  | PosInf => NegInf
  | Fin q => Fin (- q)
  end.

(** The rounding of IEEE 754 binary64 arithmetic: to the nearest double,
    ties to the even one. *)
Definition double (q : Q) : num :=
  let q := Qred q in
  match Qnum q with
  | Z0 => Fin 0
  | Zpos _ => nearestDouble q
  | Zneg _ => num_opp (nearestDouble (- q))
  end.

(** The rounding of a result that may be infinite or NaN. *)
Definition toDouble (x : num) : num :=
  match x with
  | Fin q => double q
  | _ => x
  end.

(** [a / b] as JavaScript computes it *)
Definition js_div (a b : num) : num := toDouble (num_div a b).

(** [a * b] as JavaScript computes it *)
Definition js_mul (a b : num) : num := toDouble (num_mul a b).

(** ** Powers of ten

    The exact powers of ten and the exact integer part of a decimal
    logarithm; [sampleMath] below is built from them. *)

(** [10^k] for an integer [k]. *)
Definition pow10 (k : Z) : Q :=
  if 0 <=? k then inject_Z (10 ^ k) else (1 # Z.to_pos (10 ^ (- k)))%Q.

(** The number of decimal digits of [n >= 1], minus one. *)
Fixpoint log10_digits (fuel : nat) (n : Z) : Z :=
  match fuel with
  | O => 0
  | S fuel' => if n <? 10 then 0 else 1 + log10_digits fuel' (n / 10)
  end.

Definition Zlog10 (n : Z) : Z := log10_digits (S (Z.to_nat (Z.log2 n))) n.

(** [floor (log10 q)] for a positive rational [q]: the integer [k] with
    [10^k <= q < 10^(k+1)]. *)
Definition floor_log10 (q : Q) : Z :=
  let a := Qnum q in
  let b := Zpos (Qden q) in
  if b <=? a then Zlog10 (a / b)
  else - (Zlog10 ((b - 1) / a) + 1).

(** ** [Math.log10], [Math.pow] and [Math.floor]

    ECMAScript fixes [Math.log10] and [Math.pow] at the special arguments
    only; elsewhere the result is an implementation-approximated double
    that the host chooses.  The two host functions are parameters of the
    development. *)
Class MathHost := {
  (* [Math.log10(q)] for a finite [q > 0] other than 1 *)
  host_log10 : Q -> num;
  (* [Math.pow(10, e)] for a finite [e] other than 0 *)
  host_pow10 : Q -> num
}.

(** [Math.log10(x)] *)
Definition Math_log10 `{MathHost} (x : num) : num :=
  match x with
  | NaN | NegInf => NaN
  | PosInf => PosInf
  | Fin q =>
      if Qnegative q then NaN
      else if Qzero q then NegInf
      else if Qeq_bool q 1 then Fin 0
      else host_log10 q
  end.

(** [Math.floor(x)] *)
Definition Math_floor (x : num) : num :=
  match x with
  | Fin q => Fin (inject_Z (Qfloor q))
  | _ => x
  end.

(** [Math.pow(10, e)] *)
Definition Math_pow10 `{MathHost} (e : num) : num :=
  match e with
  | NaN => NaN
  | NegInf => Fin 0
  | PosInf => PosInf
  | Fin q => if Qzero q then Fin 1 else host_pow10 q
  end.

(** ** [calculateNiceStep] *)

Definition calculateNiceStep `{MathHost} (maxValData : num) : num :=
  if num_is_zero maxValData then Fin 1000
  else
    let roughStep := js_div maxValData (Fin 16) in
    let magnitude := Math_pow10 (Math_floor (Math_log10 roughStep)) in
    let normalizedStep := js_div roughStep magnitude in
    let niceStep :=
      if num_lt normalizedStep (Fin (3 # 2)) then Fin 1
      else if num_lt normalizedStep (Fin 3) then Fin 2
      else if num_lt normalizedStep (Fin 7) then Fin 5
      else Fin 10 in
    js_mul niceStep magnitude.

(** ** [Array.prototype.sort]

    The sort is stable; an element moves behind another one only when the
    comparator returns a positive number for the pair.  For a comparator
    that is not a consistent ordering ECMAScript leaves the order to the
    engine; the model then fixes the order of a stable insertion sort. *)

Section js_sort.
Context {A : Type} (compareFn : A -> A -> num).

Definition comes_after (x y : A) : bool := num_pos (compareFn x y).

Fixpoint sort_insert (x : A) (l : list A) : list A :=
  match l with
  | [] => [x]
  | y :: l' => if comes_after x y then y :: sort_insert x l' else x :: l
  end.

Definition js_sort (l : list A) : list A := foldr sort_insert [] l.
End js_sort.

(** Two elements tie when the comparator puts neither behind the other. *)
Definition ties {A : Type} (compareFn : A -> A -> num) (x y : A) : bool :=
  negb (comes_after compareFn x y) && negb (comes_after compareFn y x).

(** ** Strings *)

Definition ascii_lower (c : ascii) : ascii :=
  let n := nat_of_ascii c in
  if ((65 <=? n) && (n <=? 90))%nat then ascii_of_nat (n + 32) else c.

Fixpoint toLowerCase (s : string) : string :=
  match s with
  | EmptyString => EmptyString
  | String c s' => String (ascii_lower c) (toLowerCase s')
  end.

(** [s.includes(word)] *)
Fixpoint includes (s word : string) : bool :=
  String.prefix word s ||
  match s with
  | EmptyString => false
  | String _ s' => includes s' word
  end.

(** A string is truthy when it is not empty; the empty string also stands
    for an absent ([null] or [undefined]) field. *)
Definition truthy (s : string) : bool :=
  match s with
  | EmptyString => false
  | String _ _ => true
  end.


(** ** Exceptions *)

Inductive Error : Type :=
  | NoDataFound      (* new Error("No data found") *)
  | HistoryError     (* new Error("History error") *)
  | TypeError.       (* property access on undefined *)

Inductive result (A : Type) : Type :=
  | Ok (a : A)
  | Throw (e : Error).
Arguments Ok {A} a.
Arguments Throw {A} e.

Definition bind {A B : Type} (r : result A) (k : A -> result B) : result B :=
  match r with
  | Ok a => k a
  | Throw e => Throw e
  end.

#[global] Instance result_bind : MBind result := fun A B k r => bind r k.
#[global] Instance result_ret : MRet result := fun A a => Ok a.

(** [l.forEach(x => { acc = f(acc, x) })] where the body may throw. *)
Fixpoint forEachM {A S : Type} (f : S -> A -> result S) (l : list A) (s : S)
  : result S :=
  match l with
  | [] => Ok s
  | x :: l' => s' ← f s x; forEachM f l' s'
  end.

(** [l.filter(f)] where [f] may throw. *)
Fixpoint filterR {A : Type} (f : A -> result bool) (l : list A)
  : result (list A) :=
  match l with
  | [] => Ok []
  | x :: l' =>
      b ← f x; ys ← filterR f l'; Ok (if (b : bool) then x :: ys else ys)
  end.

(** [l.map(f)] where [f] may throw. *)
Fixpoint mapR {A B : Type} (f : A -> result B) (l : list A) : result (list B) :=
  match l with
  | [] => Ok []
  | x :: l' => y ← f x; ys ← mapR f l'; Ok (y :: ys)
  end.

(** ** Data *)

Inductive Metric : Type := Stake | Earnings.

#[global] Instance Metric_eq_dec : EqDecision Metric.
Proof. solve_decision. Defined.

(** A row of [operatorDailyBuckets]; [date] is [parseInt(b.date)] and
    [operator] is [b.operator.id]. *)
Module Bucket.
Record t : Type := mk {
  date : Z;
  valueWithoutEarnings : string;
  cumulativeEarningsWei : string;
  operator : string
}.
End Bucket.

(** The objects [{ stake: ..., earnings: ... }] stored in [bucketsByDate]
    and in [lastKnownValues]. *)
Module Values.
Record t : Type := mk {
  stake : string;
  earnings : string
}.
Definition get (m : Metric) (v : t) : string :=
  match m with
  | Stake => stake v
  | Earnings => earnings v
  end.
End Values.

(** A value returned by [JSON.parse]. *)
#[local] Unset Elimination Schemes.
Inductive Json : Type :=
  | JNull
  | JBool (b : bool)
  | JNumber (n : num)
  | JString (s : string)
  | JArray (items : list Json)
  | JObject (fields : list (string * Json)).
#[local] Set Elimination Schemes.

(** An entry of [operatorMetaMap].  [name] is what [parseMetadata]
    returns, [json.name || defaultName]: the default name, a string, or
    whatever truthy value the metadata of the operator holds under
    [name].  [color] is [undefined] when the palette index is not a
    number. *)
Module Meta.
Record t : Type := mk {
  name : Json;
  color : option string
}.
End Meta.

(** A ranked entry; [name] and [color] come from spreading the metadata
    object and are absent when there is none. *)
Module Entry.
Record t : Type := mk {
  id : string;
  valueWei : string;
  floatValue : num;
  name : option Json;
  color : option string
}.
End Entry.

Module Frame.
Record t : Type := mk {
  date : Z;
  formattedDate : string;
  stake : list Entry.t;
  earnings : list Entry.t
}.
Definition rankings (m : Metric) (f : t) : list Entry.t :=
  match m with
  | Stake => stake f
  | Earnings => earnings f
  end.
End Frame.

(** What the code takes from the host: the built-in [parseFloat], and
    [formatDate], the helper of the file that wraps [toLocaleDateString].
    Both are kept as parameters. *)
Class Builtins : Type := {
  parseFloat : string -> num;
  formatDate : Z -> string
}.

Definition DISPLAY_COUNT : nat := 50.
Definition blacklist : list string := ["old"; "testnet"; "deprecated"]%string.

(** ** Objects in insertion order and [Set] *)

Definition DayData : Type := list (string * Values.t).

(** [o[k]] *)
Fixpoint obj_get (k : string) (o : DayData) : option Values.t :=
  match o with
  | [] => None
  | (k', v) :: o' => if decide (k = k') then Some v else obj_get k o'
  end.

(** [o[k] = v]: an existing key keeps its place. *)
Fixpoint obj_set (k : string) (v : Values.t) (o : DayData) : DayData :=
  match o with
  | [] => [(k, v)]
  | (k', v') :: o' =>
      if decide (k = k') then (k, v) :: o' else (k', v') :: obj_set k v o'
  end.

(** [s.add(d)] on a [Set], kept as the list of its elements in insertion
    order, which is what [Array.from] returns. *)
Definition set_add (d : Z) (s : list Z) : list Z :=
  if decide (d ∈ s) then s else s ++ [d].

(** ** [processTimeline] *)

(** The body of [buckets.forEach] on the pair [(bucketsByDate, uniqueDates)]. *)
Definition addBucket (acc : gmap Z DayData * list Z) (b : Bucket.t)
  : gmap Z DayData * list Z :=
  let '(bucketsByDate, uniqueDates) := acc in
  let d := Bucket.date b in
  let uniqueDates := set_add d uniqueDates in
  let day := match bucketsByDate !! d with Some o => o | None => [] end in
  let v := Values.mk (Bucket.valueWithoutEarnings b)
                     (Bucket.cumulativeEarningsWei b) in
  (<[d := obj_set (Bucket.operator b) v day]> bucketsByDate, uniqueDates).

Definition groupBuckets (buckets : list Bucket.t) : gmap Z DayData * list Z :=
  fold_left addBucket buckets (∅, []).

(** [Array.from(uniqueDates).sort((a,b) => a - b)] *)
Definition sortDates (uniqueDates : list Z) : list Z :=
  js_sort (fun a b => num_sub (Fin (inject_Z a)) (Fin (inject_Z b))) uniqueDates.

(** [operatorIds.forEach(id => lastKnownValues[id] = {stake:'0', earnings:'0'})] *)
Definition seedValues (operatorIds : list string) : gmap string Values.t :=
  fold_left (fun lkv id => <[id := Values.mk "0" "0"]> lkv) operatorIds ∅.

(** [lastKnownValues[opId].stake = v]; throws when the entry is undefined. *)
Definition setStake (lkv : gmap string Values.t) (opId v : string)
  : result (gmap string Values.t) :=
  match lkv !! opId with
  | Some r => Ok (<[opId := Values.mk v (Values.earnings r)]> lkv)
  | None => Throw TypeError
  end.

Definition setEarnings (lkv : gmap string Values.t) (opId v : string)
  : result (gmap string Values.t) :=
  match lkv !! opId with
  | Some r => Ok (<[opId := Values.mk (Values.stake r) v]> lkv)
  | None => Throw TypeError
  end.

(** The body of [Object.keys(daysData).forEach]. *)
Definition mergeOperator (lkv : gmap string Values.t) (kv : string * Values.t)
  : result (gmap string Values.t) :=
  let '(opId, v) := kv in
  lkv1 ← (if truthy (Values.stake v)
           then setStake lkv opId (Values.stake v) else Ok lkv);
  if truthy (Values.earnings v)
  then setEarnings lkv1 opId (Values.earnings v) else Ok lkv1.

Definition mergeDay (lkv : gmap string Values.t) (daysData : option DayData)
  : result (gmap string Values.t) :=
  match daysData with
  | Some o => forEachM mergeOperator o lkv
  | None => Ok lkv
  end.

Definition isDeprecated (name : string) : bool :=
  existsb (fun word => includes (toLowerCase name) word) blacklist.

(** The callback of [operatorIds.filter]; [name.toLowerCase()] throws
    when the name is not a string. *)
Definition isValidOperator (operatorMetaMap : gmap string Meta.t)
    (filterDeprecated : bool) (id : string) : result bool :=
  match operatorMetaMap !! id with
  | None => Ok false
  | Some m =>
      if filterDeprecated then
        match Meta.name m with
        | JString name => Ok (negb (isDeprecated name))
        | _ => Throw TypeError
        end
      else Ok true
  end.

(** The comparator [(a,b) => b.floatValue - a.floatValue]. *)
Definition byFloatValueDesc (a b : Entry.t) : num :=
  num_sub (Entry.floatValue b) (Entry.floatValue a).

Section processTimeline.
Context `{Builtins}.

Definition mkEntry (operatorMetaMap : gmap string Meta.t) (metric : Metric)
    (lkv : gmap string Values.t) (id : string) : result Entry.t :=
  match lkv !! id with
  | None => Throw TypeError
  | Some r =>
      let v := Values.get metric r in
      let meta := operatorMetaMap !! id in
      Ok (Entry.mk id v (parseFloat v)
                   (Meta.name <$> meta) (meta ≫= Meta.color))
  end.

Definition ranking (operatorMetaMap : gmap string Meta.t) (metric : Metric)
    (lkv : gmap string Values.t) (validOperatorIds : list string)
  : result (list Entry.t) :=
  entries ← mapR (mkEntry operatorMetaMap metric lkv) validOperatorIds;
  Ok (take DISPLAY_COUNT (js_sort byFloatValueDesc entries)).

(** The callback of [sortedDates.map]: it updates [lastKnownValues] and
    returns the frame of [date]. *)
Definition frameAt (operatorMetaMap : gmap string Meta.t)
    (filterDeprecated : bool) (bucketsByDate : gmap Z DayData)
    (operatorIds : list string) (lkv : gmap string Values.t) (date : Z)
  : result (gmap string Values.t * Frame.t) :=
  lkv' ← mergeDay lkv (bucketsByDate !! date);
  validOperatorIds ←
    filterR (isValidOperator operatorMetaMap filterDeprecated) operatorIds;
  rankingsStake ← ranking operatorMetaMap Stake lkv' validOperatorIds;
  rankingsEarnings ← ranking operatorMetaMap Earnings lkv' validOperatorIds;
  Ok (lkv', Frame.mk date (formatDate date) rankingsStake rankingsEarnings).

Fixpoint buildFrames (operatorMetaMap : gmap string Meta.t)
    (filterDeprecated : bool) (bucketsByDate : gmap Z DayData)
    (operatorIds : list string) (lkv : gmap string Values.t)
    (sortedDates : list Z) : result (list Frame.t) :=
  match sortedDates with
  | [] => Ok []
  | date :: rest =>
      '(lkv', frame) ← frameAt operatorMetaMap filterDeprecated bucketsByDate
                               operatorIds lkv date;
      frames ← buildFrames operatorMetaMap filterDeprecated bucketsByDate
                           operatorIds lkv' rest;
      Ok (frame :: frames)
  end.

(** [processTimeline(buckets, operatorIds)], as a function of the two
    state fields it reads; the result is the new [timelineData]. *)
Definition processTimeline (operatorMetaMap : gmap string Meta.t)
    (filterDeprecated : bool) (buckets : list Bucket.t)
    (operatorIds : list string) : result (list Frame.t) :=
  let '(bucketsByDate, uniqueDates) := groupBuckets buckets in
  let sortedDates := sortDates uniqueDates in
  if decide (length sortedDates = 0%nat) then Throw NoDataFound
  else buildFrames operatorMetaMap filterDeprecated bucketsByDate operatorIds
                   (seedValues operatorIds) sortedDates.
End processTimeline.

(** ** The history pagination loop of [fetchData] *)

Definition START_DATE : Z := 1700870400.   (* 2023-11-25T00:00:00Z *)
Definition PAGE_SIZE : nat := 1000.        (* first: 1000 *)

(** The answer of the remote service to the history query; [remote n since]
    is the answer to request number [n], sent with [$since = lastDate]. *)
Inductive Response : Type :=
  | Errors                          (* json.errors is set *)
  | Data (buckets : list Bucket.t). (* json.data.operatorDailyBuckets *)

(** [while(fetching) { ... }]; [None] when the fuel runs out before the
    loop ends. *)
Fixpoint fetchLoop (remote : nat -> Z -> Response) (fuel : nat) (n : nat)
    (allBuckets : list Bucket.t) (lastDate : Z)
  : option (result (list Bucket.t)) :=
  match fuel with
  | O => None
  | S fuel' =>
      match remote n lastDate with
      | Errors => Some (Throw HistoryError)
      | Data buckets =>
          match last buckets with
          | None => Some (Ok allBuckets)
          | Some b =>
              let allBuckets := allBuckets ++ buckets in
              let lastDate := Bucket.date b in
              if decide (length buckets < PAGE_SIZE)%nat
              then Some (Ok allBuckets)
              else fetchLoop remote fuel' (S n) allBuckets lastDate
          end
      end
  end.

Definition fetchHistory (remote : nat -> Z -> Response) (fuel : nat)
  : option (result (list Bucket.t)) :=
  fetchLoop remote fuel 0%nat [] START_DATE.

(** ** Playback *)

(** The callbacks handed to [setTimeout]. *)
Inductive Callback : Type :=
  | CbLoop        (* () => this.loop() *)
  | CbRefilter.   (* the delayed body of toggleFilter *)

(** [RaceLogic.state], followed by what the page shows of it: the timer
    table of the host and the frames drawn so far (oldest first, with the
    metric they were drawn for). *)
Record State : Type := mkState {
  timelineData : list Frame.t;
  operatorMetaMap : gmap string Meta.t;
  rawBuckets : list Bucket.t;
  allOperatorIds : list string;
  filterDeprecated : bool;
  currentIndex : Z;
  isPlaying : bool;
  playbackSpeed : Z;
  activeMetric : Metric;
  timer : option nat;
  pendingTimers : list (nat * (Callback * Z));
  nextTimerId : nat;
  rendered : list (Z * Metric)
}.

Definition initialState : State :=
  mkState [] ∅ [] [] false 0 false 100 Stake None [] 1%nat [].

Definition set_timelineData (x : list Frame.t) (s : State) : State :=
  mkState x (operatorMetaMap s) (rawBuckets s) (allOperatorIds s)
    (filterDeprecated s) (currentIndex s) (isPlaying s) (playbackSpeed s)
    (activeMetric s) (timer s) (pendingTimers s) (nextTimerId s) (rendered s).
Definition set_operatorMetaMap (x : gmap string Meta.t) (s : State) : State :=
  mkState (timelineData s) x (rawBuckets s) (allOperatorIds s)
    (filterDeprecated s) (currentIndex s) (isPlaying s) (playbackSpeed s)
    (activeMetric s) (timer s) (pendingTimers s) (nextTimerId s) (rendered s).
Definition set_rawBuckets (x : list Bucket.t) (s : State) : State :=
  mkState (timelineData s) (operatorMetaMap s) x (allOperatorIds s)
    (filterDeprecated s) (currentIndex s) (isPlaying s) (playbackSpeed s)
    (activeMetric s) (timer s) (pendingTimers s) (nextTimerId s) (rendered s).
Definition set_allOperatorIds (x : list string) (s : State) : State :=
  mkState (timelineData s) (operatorMetaMap s) (rawBuckets s) x
    (filterDeprecated s) (currentIndex s) (isPlaying s) (playbackSpeed s)
    (activeMetric s) (timer s) (pendingTimers s) (nextTimerId s) (rendered s).
Definition set_filterDeprecated (x : bool) (s : State) : State :=
  mkState (timelineData s) (operatorMetaMap s) (rawBuckets s) (allOperatorIds s)
    x (currentIndex s) (isPlaying s) (playbackSpeed s)
    (activeMetric s) (timer s) (pendingTimers s) (nextTimerId s) (rendered s).
Definition set_currentIndex (x : Z) (s : State) : State :=
  mkState (timelineData s) (operatorMetaMap s) (rawBuckets s) (allOperatorIds s)
    (filterDeprecated s) x (isPlaying s) (playbackSpeed s)
    (activeMetric s) (timer s) (pendingTimers s) (nextTimerId s) (rendered s).
Definition set_isPlaying (x : bool) (s : State) : State :=
  mkState (timelineData s) (operatorMetaMap s) (rawBuckets s) (allOperatorIds s)
    (filterDeprecated s) (currentIndex s) x (playbackSpeed s)
    (activeMetric s) (timer s) (pendingTimers s) (nextTimerId s) (rendered s).
Definition set_playbackSpeed (x : Z) (s : State) : State :=
  mkState (timelineData s) (operatorMetaMap s) (rawBuckets s) (allOperatorIds s)
    (filterDeprecated s) (currentIndex s) (isPlaying s) x
    (activeMetric s) (timer s) (pendingTimers s) (nextTimerId s) (rendered s).
Definition set_activeMetric (x : Metric) (s : State) : State :=
  mkState (timelineData s) (operatorMetaMap s) (rawBuckets s) (allOperatorIds s)
    (filterDeprecated s) (currentIndex s) (isPlaying s) (playbackSpeed s)
    x (timer s) (pendingTimers s) (nextTimerId s) (rendered s).
Definition set_timer (x : option nat) (s : State) : State :=
  mkState (timelineData s) (operatorMetaMap s) (rawBuckets s) (allOperatorIds s)
    (filterDeprecated s) (currentIndex s) (isPlaying s) (playbackSpeed s)
    (activeMetric s) x (pendingTimers s) (nextTimerId s) (rendered s).
Definition set_pendingTimers (x : list (nat * (Callback * Z))) (s : State) : State :=
  mkState (timelineData s) (operatorMetaMap s) (rawBuckets s) (allOperatorIds s)
    (filterDeprecated s) (currentIndex s) (isPlaying s) (playbackSpeed s)
    (activeMetric s) (timer s) x (nextTimerId s) (rendered s).
Definition set_nextTimerId (x : nat) (s : State) : State :=
  mkState (timelineData s) (operatorMetaMap s) (rawBuckets s) (allOperatorIds s)
    (filterDeprecated s) (currentIndex s) (isPlaying s) (playbackSpeed s)
    (activeMetric s) (timer s) (pendingTimers s) x (rendered s).
Definition set_rendered (x : list (Z * Metric)) (s : State) : State :=
  mkState (timelineData s) (operatorMetaMap s) (rawBuckets s) (allOperatorIds s)
    (filterDeprecated s) (currentIndex s) (isPlaying s) (playbackSpeed s)
    (activeMetric s) (timer s) (pendingTimers s) (nextTimerId s) x.

(** [setTimeout(cb, delay)]: the new handle and the new state. *)
Definition setTimeout (cb : Callback) (delay : Z) (s : State) : nat * State :=
  let id := nextTimerId s in
  (id, set_nextTimerId (S id)
         (set_pendingTimers (pendingTimers s ++ [(id, (cb, delay))]) s)).

(** [clearTimeout(handle)]; nothing happens for [null] or a handle that is
    no longer pending. *)
Definition clearTimeout (handle : option nat) (s : State) : State :=
  match handle with
  | None => s
  | Some id =>
      set_pendingTimers
        (List.filter (fun t => negb (Nat.eqb (fst t) id)) (pendingTimers s)) s
  end.

(** [timelineData[index]] *)
Definition frameAtIndex (s : State) (index : Z) : option Frame.t :=
  if 0 <=? index then timelineData s !! Z.to_nat index else None.

(** [renderFrame(index)]: nothing is drawn when there is no such frame. *)
Definition renderFrame (index : Z) (s : State) : State :=
  match frameAtIndex s index with
  | None => s
  | Some _ => set_rendered (rendered s ++ [(index, activeMetric s)]) s
  end.

(** The step that [renderFrame] computes for the markers of a frame. *)
Definition scaleStepData `{MathHost} (frame : Frame.t) (activeMetric : Metric)
  : num :=
  let currentRankings := Frame.rankings activeMetric frame in
  let maxValWei :=
    match currentRankings with
    | e :: _ => Entry.floatValue e
    | [] => Fin 1
    end in
  let maxValData := js_div maxValWei (Fin (inject_Z (10 ^ 18))) in
  calculateNiceStep maxValData.

Definition lastIndex (s : State) : Z := Z.of_nat (length (timelineData s)) - 1.

Definition loop (s : State) : State :=
  if negb (isPlaying s) then s
  else
    let s := renderFrame (currentIndex s) s in
    if lastIndex s <=? currentIndex s then set_isPlaying false s
    else
      let s := set_currentIndex (currentIndex s + 1) s in
      let '(id, s) := setTimeout CbLoop (playbackSpeed s) s in
      set_timer (Some id) s.

Definition togglePlay (s : State) : State :=
  let s := set_isPlaying (negb (isPlaying s)) s in
  if isPlaying s then
    let s := if lastIndex s <=? currentIndex s then set_currentIndex 0 s else s in
    loop s
  else clearTimeout (timer s) s.

Definition toggleSpeed (s : State) : State :=
  set_playbackSpeed (if decide (playbackSpeed s = 100) then 30 else 100) s.

(** The [input] handler of the slider; [value] is [parseInt(e.target.value)]. *)
Definition sliderInput (value : Z) (s : State) : State :=
  let s := set_isPlaying false s in
  let s := set_currentIndex value s in
  renderFrame (currentIndex s) s.

Definition setMetric (metric : Metric) (s : State) : State :=
  let s := set_activeMetric metric s in
  renderFrame (currentIndex s) s.

Definition stop (s : State) : State :=
  let s := set_isPlaying false s in
  match timer s with
  | Some id => set_timer None (clearTimeout (Some id) s)
  | None => s
  end.

Definition toggleFilter (s : State) : State :=
  let s := set_filterDeprecated (negb (filterDeprecated s)) s in
  snd (setTimeout CbRefilter 50 s).

Definition resetUI (s : State) : State :=
  set_timelineData [] (set_isPlaying false (set_currentIndex 0 s)).

Section playback.
Context `{Builtins}.

(** The delayed body of [toggleFilter]; an exception of [processTimeline]
    leaves the state as it is. *)
Definition refilter (s : State) : State :=
  if decide (0 < length (rawBuckets s))%nat then
    match processTimeline (operatorMetaMap s) (filterDeprecated s)
                          (rawBuckets s) (allOperatorIds s) with
    | Ok frames => renderFrame (currentIndex s) (set_timelineData frames s)
    | Throw _ => s
    end
  else s.

(** [init()] once the requests of [fetchData] have been answered:
    [discovered] is the outcome of [discoverTopOperators], [metas] the
    metadata rows in the order received, [history] the outcome of the
    pagination loop.  The [catch] of [init] only shows the error. *)
Definition init (discovered : result (list string))
    (metas : list (string * Meta.t)) (history : result (list Bucket.t))
    (s : State) : State :=
  let s := resetUI s in
  match discovered with
  | Throw _ => s
  | Ok operatorIds =>
      let s := set_allOperatorIds operatorIds s in
      let s := set_operatorMetaMap
                 (fold_left (fun m kv => <[fst kv := snd kv]> m) metas
                            (operatorMetaMap s)) s in
      match history with
      | Throw _ => s
      | Ok allBuckets =>
          let s := set_rawBuckets allBuckets s in
          match processTimeline (operatorMetaMap s) (filterDeprecated s)
                                allBuckets operatorIds with
          | Throw _ => s
          | Ok frames =>
              let s := set_timelineData frames s in
              let s := if decide (0 < length (timelineData s))%nat
                       then set_currentIndex (lastIndex s) s else s in
              renderFrame (currentIndex s) s
          end
      end
  end.

(** A timer fires: it leaves the table and its callback runs. *)
Definition fireTimer (id : nat) (s : State) : State :=
  match List.find (fun t => Nat.eqb (fst t) id) (pendingTimers s) with
  | None => s
  | Some (_, (cb, _)) =>
      let s := set_pendingTimers
                 (List.filter (fun t => negb (Nat.eqb (fst t) id))
                              (pendingTimers s)) s in
      match cb with
      | CbLoop => loop s
      | CbRefilter => refilter s
      end
  end.

Inductive Event : Type :=
  | EInit (discovered : result (list string))
          (metas : list (string * Meta.t)) (history : result (list Bucket.t))
  | ETogglePlay
  | EToggleSpeed
  | EToggleFilter
  | ESlider (value : Z)
  | ESetMetric (metric : Metric)
  | EStop
  | ETimer (id : nat).

Definition step (s : State) (e : Event) : State :=
  match e with
  | EInit discovered metas history => init discovered metas history s
  | ETogglePlay => togglePlay s
  | EToggleSpeed => toggleSpeed s
  | EToggleFilter => toggleFilter s
  | ESlider value => sliderInput value s
  | ESetMetric metric => setMetric metric s
  | EStop => stop s
  | ETimer id => fireTimer id s
  end.

Definition run (events : list Event) (s : State) : State :=
  fold_left step events s.

Definition reachable (s : State) : Prop :=
  exists events, s = run events initialState.
End playback.

(** ** Reference definitions used in the statements *)

(** The filter can read the names: it is off, or the name of every
    operator of the list that has metadata is a string. *)
Definition namesReadable (operatorMetaMap : gmap string Meta.t)
    (filterDeprecated : bool) (operatorIds : list string) : Prop :=
  filterDeprecated = true ->
  forall id mt, id ∈ operatorIds -> operatorMetaMap !! id = Some mt ->
    exists name, Meta.name mt = JString name.

(** The name of the operator is a string, or the operator has no
    metadata. *)
Definition readable (operatorMetaMap : gmap string Meta.t) (id : string)
  : bool :=
  match operatorMetaMap !! id with
  | Some mt => match Meta.name mt with JString _ => true | _ => false end
  | None => true
  end.

(** The callback of [operatorIds.filter] returns [true]. *)
Definition isValid (operatorMetaMap : gmap string Meta.t)
    (filterDeprecated : bool) (id : string) : bool :=
  match isValidOperator operatorMetaMap filterDeprecated id with
  | Ok true => true
  | _ => false
  end.

Definition bucketValue (m : Metric) (b : Bucket.t) : string :=
  match m with
  | Stake => Bucket.valueWithoutEarnings b
  | Earnings => Bucket.cumulativeEarningsWei b
  end.

(** The observations of entity [e] dated [d] or earlier, in the order
    received. *)
Definition observedBy (e : string) (d : Z) (b : Bucket.t) : bool :=
  bool_decide (Bucket.operator b = e) && (Bucket.date b <=? d).

Definition moreRecent (best : option Bucket.t) (b : Bucket.t) : option Bucket.t :=
  match best with
  | None => Some b
  | Some b0 => if Bucket.date b0 <=? Bucket.date b then Some b else Some b0
  end.

(** The most recent observation of [e] at or before [d]: the one with the
    greatest date, and among several rows of that date the one received
    last. *)
Definition mostRecentObservation (buckets : list Bucket.t) (e : string) (d : Z)
  : option Bucket.t :=
  fold_left moreRecent (List.filter (observedBy e d) buckets) None.

(** Forward fill: the value of the most recent observation, ["0"] when
    there is none. *)
Definition forwardFill (m : Metric) (buckets : list Bucket.t) (e : string)
    (d : Z) : string :=
  match mostRecentObservation buckets e d with
  | Some b => bucketValue m b
  | None => "0"
  end.

(** The values that a row stores in [bucketsByDate]. *)
Definition valuesOf (b : Bucket.t) : Values.t :=
  Values.mk (Bucket.valueWithoutEarnings b) (Bucket.cumulativeEarningsWei b).

(** The rows of entity [k] dated exactly [d]. *)
Definition onDay (d : Z) (k : string) (b : Bucket.t) : bool :=
  (Bucket.date b =? d) && bool_decide (Bucket.operator b = k).

(** What the two guarded assignments of [mergeOperator] make of the last
    known values [r] when the day reports [v]. *)
Definition mergeValues (v r : Values.t) : Values.t :=
  Values.mk (if truthy (Values.stake v) then Values.stake v else Values.stake r)
            (if truthy (Values.earnings v) then Values.earnings v
             else Values.earnings r).

(** A table of last known values is forward-filled up to date [d]. *)
Definition filledAt (buckets : list Bucket.t) (d : Z)
    (lkv : gmap string Values.t) : Prop :=
  forall id r m, lkv !! id = Some r ->
                 Values.get m r = forwardFill m buckets id d.

(** The state of the loop over the sorted dates: the dates still to come
    are increasing, every row is dated on one of them or before all of
    them, and the table is filled up to the day before the next date. *)
Definition fillInvariant (buckets : list Bucket.t) (sortedDates : list Z)
    (lkv : gmap string Values.t) : Prop :=
  StronglySorted Z.lt sortedDates /\
  (forall b, b ∈ buckets ->
     Bucket.date b ∈ sortedDates \/
     forall d, d ∈ sortedDates -> Bucket.date b < d) /\
  (forall d rest, sortedDates = d :: rest -> filledAt buckets (d - 1) lkv).

(** Every value of a table parses to a number. *)
Definition parsesToNumbers `{Builtins} (lkv : gmap string Values.t) : Prop :=
  forall id r m, lkv !! id = Some r -> parseFloat (Values.get m r) <> NaN.

(** The usual order of the numbers other than NaN. *)
Definition num_le (a b : num) : Prop :=
  match a, b with
  | NaN, _ | _, NaN => False
  | NegInf, _ | _, PosInf => True
  | Fin x, Fin y => (x <= y)%Q
  | _, _ => False
  end.

(** Two numbers tie when neither is below the other. *)
Definition num_tie (a b : num) : bool := negb (num_lt a b) && negb (num_lt b a).

(** The pages read by the pagination loop from request [n] and cursor
    [since] on: every page but the last is full and moves the cursor to
    the date of its last row; the last page is short or empty. *)
Inductive Paginates (remote : nat -> Z -> Response)
  : nat -> Z -> list (list Bucket.t) -> Prop :=
  | Paginates_empty n since :
      remote n since = Data [] ->
      Paginates remote n since [[]]
  | Paginates_short n since page :
      remote n since = Data page ->
      (0 < length page < PAGE_SIZE)%nat ->
      Paginates remote n since [page]
  | Paginates_full n since page b pages :
      remote n since = Data page ->
      (PAGE_SIZE <= length page)%nat ->
      last page = Some b ->
      Paginates remote (S n) (Bucket.date b) pages ->
      Paginates remote n since (page :: pages).

(** The contract of a page: ascending dates, all after the cursor. *)
Definition pageContract (since : Z) (page : list Bucket.t) : Prop :=
  Sorted Z.le (Bucket.date <$> page) /\
  Forall (fun b => since < Bucket.date b) page.

(** A remote that serves a finite data set: the rows dated after the
    cursor, at most [PAGE_SIZE] of them, in the order of the data set. *)
Definition serve (dataset : list Bucket.t) : nat -> Z -> Response :=
  fun _ since =>
    Data (take PAGE_SIZE (List.filter (fun b => since <? Bucket.date b) dataset)).

(** A remote that never runs out of rows: every page holds [PAGE_SIZE]
    rows dated one second after the cursor. *)
Definition endless : nat -> Z -> Response :=
  fun _ since => Data (replicate PAGE_SIZE (Bucket.mk (since + 1) "1" "1" "0xa1")).

(** ** Sample data *)

Definition digitValue (c : ascii) : option Z :=
  let n := nat_of_ascii c in
  if ((48 <=? n) && (n <=? 57))%nat then Some (Z.of_nat n - 48) else None.

Fixpoint digitsValue (acc : Z) (s : string) : option Z :=
  match s with
  | EmptyString => Some acc
  | String c s' =>
      match digitValue c with
      | Some v => digitsValue (10 * acc + v) s'
      | None => None
      end
  end.

(** A reading of [parseFloat] on short strings of digits; anything else
    is taken to NaN. *)
Definition parseDigits (s : string) : num :=
  match s with
  | EmptyString => NaN
  | _ => match digitsValue 0 s with
         | Some n => Fin (inject_Z n)
         | None => NaN
         end
  end.

Definition sampleBuiltins : Builtins :=
  {| parseFloat := parseDigits; formatDate := fun _ => ""%string |}.

(** A host for the examples: the logarithm is linear between two powers
    of ten, the powers of ten are the nearest doubles. *)
Definition sampleMath : MathHost :=
  {| host_log10 := fun q =>
       let k := floor_log10 q in
       double (inject_Z k + (q / pow10 k - 1) / 9);
     host_pow10 := fun e =>
       let e := Qred e in
       if (Qden e =? 1)%positive then double (pow10 (Qnum e)) else NaN |}.

Definition day (n : Z) : Z := START_DATE + 86400 * n.

Definition sampleMeta : gmap string Meta.t :=
  <["A" := Meta.mk (JString "Alpha") (Some "bg-red-600")]>
  (<["B" := Meta.mk (JString "Beta old") (Some "bg-sky-600")]>
  (<["C" := Meta.mk (JString "Gamma") None]> ∅)).

(** Rows arrive out of order, with a repeated date and an entity without
    metadata. *)
Definition sampleBuckets : list Bucket.t :=
  [ Bucket.mk (day 3) "10" "7" "A";
    Bucket.mk (day 1) "100" "5" "A";
    Bucket.mk (day 1) "50" "9" "B";
    Bucket.mk (day 2) "50" "1" "D";
    Bucket.mk (day 1) "60" "9" "B" ].

Definition sampleIds : list string := ["A"; "B"; "C"; "D"]%string.

Definition sampleFrames : list Frame.t :=
  match @processTimeline sampleBuiltins sampleMeta false sampleBuckets sampleIds with
  | Ok frames => frames
  | Throw _ => []
  end.

Definition sampleFrame3 : Frame.t :=
  default (Frame.mk 0 "" [] []) (sampleFrames !! 2%nat).

Definition sampleState : State :=
  @init sampleBuiltins (Ok sampleIds) (map_to_list sampleMeta) (Ok sampleBuckets)
        initialState.

Definition sampleDataset : list Bucket.t :=
  map (fun i => Bucket.mk (START_DATE + 1 + Z.of_nat i / 700) "1" "1" "A")
      (seq 0 2500).

(** ** Further reference definitions: playback *)

(** The timer table hands out each handle once: the pending handles are
    distinct and below the next handle. *)
Definition timersFresh (s : State) : Prop :=
  NoDup (pendingTimers s).*1 /\
  Forall (fun t => (t.1 < nextTimerId s)%nat) (pendingTimers s).

(** While playback is on, the tick kept in [state.timer] is pending. *)
Definition tickPending (s : State) : Prop :=
  isPlaying s = true ->
  exists id delay,
    timer s = Some id /\ (id, (CbLoop, delay)) ∈ pendingTimers s.

(** The delays of the pending timers: a tick waits 100 or 30 ms, the
    rebuild after a filter change 50 ms. *)
Definition delaysKnown (s : State) : Prop :=
  Forall (fun t => match t.2.1 with
                   | CbLoop => t.2.2 = 100 \/ t.2.2 = 30
                   | CbRefilter => t.2.2 = 50
                   end) (pendingTimers s).

(** The indices [from], [from + 1], ... ([count] of them). *)
Definition indicesFrom (from : Z) (count : nat) : list Z :=
  (fun k => from + Z.of_nat k) <$> seq 0 count.

(** The tick kept in [state.timer] fires. *)
Definition tick `{Builtins} (s : State) : State :=
  match timer s with
  | Some id => fireTimer id s
  | None => s
  end.

(** Only ticks are pending (no rebuild after a filter change). *)
Definition onlyTicksPending (s : State) : Prop :=
  Forall (fun t => t.2.1 = CbLoop) (pendingTimers s).


(** The timeline on display is empty, or it is what [processTimeline]
    makes of the stored rows, operators and metadata under one of the two
    filter settings. *)
Definition timelineCoherent `{Builtins} (s : State) : Prop :=
  timelineData s = [] \/
  exists b, processTimeline (operatorMetaMap s) b (rawBuckets s)
                            (allOperatorIds s) = Ok (timelineData s).

(** The fields that [processTimeline] reads and writes. *)
Definition dataOf (s : State)
  : list Frame.t * gmap string Meta.t * list Bucket.t * list string :=
  (timelineData s, operatorMetaMap s, rawBuckets s, allOperatorIds s).


(** The history collected from a remote that serves [sampleDataset]. *)
Definition sampleHistory : list Bucket.t :=
  match fetchHistory (serve sampleDataset) 5 with
  | Some (Ok all) => all
  | _ => []
  end.


(** What day [d] reports for metric [m] of entity [k]: the value of the
    last row of that day for [k], when that value is not empty. *)
Definition reported (m : Metric) (buckets : list Bucket.t) (k : string) (d : Z)
  : option string :=
  match last (List.filter (onDay d k) buckets) with
  | Some b => if truthy (bucketValue m b) then Some (bucketValue m b) else None
  | None => None
  end.

(** [v] is the value carried to day [d]: the report of the latest day up
    to [d] that has one, ["0"] when no day up to [d] has one. *)
Definition carried (m : Metric) (buckets : list Bucket.t) (k : string) (d : Z)
    (v : string) : Prop :=
  (exists d0, d0 <= d /\ reported m buckets k d0 = Some v /\
              forall d', d0 < d' <= d -> reported m buckets k d' = None) \/
  (v = "0" /\ forall d', d' <= d -> reported m buckets k d' = None).

(** [e] is the candidate of its operator at day [d]: the entry with the
    value carried to that day, that value parsed, and the name and the
    colour of the metadata of the operator. *)
Definition isCandidate `{Builtins} (operatorMetaMap : gmap string Meta.t)
    (m : Metric) (buckets : list Bucket.t) (d : Z) (e : Entry.t) : Prop :=
  carried m buckets (Entry.id e) d (Entry.valueWei e) /\
  Entry.floatValue e = parseFloat (Entry.valueWei e) /\
  Entry.name e = Meta.name <$> operatorMetaMap !! Entry.id e /\
  Entry.color e = operatorMetaMap !! Entry.id e ≫= Meta.color.

Definition carriedAt (buckets : list Bucket.t) (d : Z)
    (lkv : gmap string Values.t) : Prop :=
  forall id r m, lkv !! id = Some r ->
                 carried m buckets id d (Values.get m r).

Definition carryInvariant (buckets : list Bucket.t) (sortedDates : list Z)
    (lkv : gmap string Values.t) : Prop :=
  StronglySorted Z.lt sortedDates /\
  (forall b, b ∈ buckets ->
     Bucket.date b ∈ sortedDates \/
     forall d, d ∈ sortedDates -> Bucket.date b < d) /\
  (forall d rest, sortedDates = d :: rest -> carriedAt buckets (d - 1) lkv).

(** Rows with gaps: on the second day the stake of A is not reported. *)
Definition sparseBuckets : list Bucket.t :=
  [ Bucket.mk (day 1) "100" "5" "A";
    Bucket.mk (day 2) "" "8" "A" ].

Definition sparseFrames : list Frame.t :=
  match @processTimeline sampleBuiltins sampleMeta false sparseBuckets sampleIds with
  | Ok frames => frames
  | Throw _ => []
  end.


(** ** [discoverTopOperators] *)

Definition SNAPSHOT_INTERVAL_DAYS : Z := 15.

(** [const interval = SNAPSHOT_INTERVAL_DAYS * 24 * 60 * 60] *)
Definition interval : Z := SNAPSHOT_INTERVAL_DAYS * 24 * 60 * 60.

(** [for (let t = START_DATE; t <= now; t += interval) checkpoints.push(t)];
    [None] when the fuel runs out before the loop ends. *)
Fixpoint checkpointsLoop (fuel : nat) (t now : Z) (checkpoints : list Z)
  : option (list Z) :=
  match fuel with
  | O => None
  | S fuel' =>
      if t <=? now
      then checkpointsLoop fuel' (t + interval) now (checkpoints ++ [t])
      else Some checkpoints
  end.

(** The loop followed by [checkpoints.push(now)]. *)
Definition checkpoints (fuel : nat) (now : Z) : option (list Z) :=
  cs ← checkpointsLoop fuel START_DATE now []; Some (cs ++ [now]).

(** An item of the answer to the discovery query: a row of a snapshot
    carries its operator, a row of [currentTop] carries its own id. *)
Inductive Item : Type :=
  | OfBucket (operatorId : string)   (* { operator: { id } } *)
  | OfOperator (id : string).        (* { id } *)

(** [item.operator ? item.operator.id : item.id] *)
Definition itemId (item : Item) : string :=
  match item with
  | OfBucket operatorId => operatorId
  | OfOperator id => id
  end.

(** [uniqueOperatorIds.add(id)], the [Set] kept in insertion order. *)
Definition addId (uniqueOperatorIds : list string) (id : string) : list string :=
  if decide (id ∈ uniqueOperatorIds) then uniqueOperatorIds
  else uniqueOperatorIds ++ [id].

(** [Object.values(json.data).forEach(group => group.forEach(item => ...))]
    followed by [Array.from(uniqueOperatorIds)]; [groups] are the values
    of [json.data] in the order of the query. *)
Definition collectIds (groups : list (list Item)) : list string :=
  fold_left (fun uniqueOperatorIds group =>
               fold_left (fun uniqueOperatorIds item =>
                            addId uniqueOperatorIds (itemId item))
                         group uniqueOperatorIds)
            groups [].

(** The elements of [l], each once, in the order of their first
    occurrence in [l]. *)
Fixpoint firstOccurrences (l : list string) : list string :=
  match l with
  | [] => []
  | x :: l' =>
      x :: List.filter (fun y => bool_decide (y <> x)) (firstOccurrences l')
  end.

(** ** The metadata requests of [fetchData] *)

Definition chunkSize : nat := 100.

(** [l.slice(i, j)] for [0 <= i]. *)
Definition slice {A : Type} (i j : nat) (l : list A) : list A :=
  take (j - i) (drop i l).

(** [for (let i = 0; i < operatorIds.length; i += chunkSize)]: the chunks
    [operatorIds.slice(i, i + chunkSize)] in the order they are requested;
    [None] when the fuel runs out before the loop ends. *)
Fixpoint chunkLoop (fuel : nat) (i : nat) (operatorIds : list string)
  : option (list (list string)) :=
  match fuel with
  | O => None
  | S fuel' =>
      if (i <? length operatorIds)%nat
      then chunks ← chunkLoop fuel' (i + chunkSize) operatorIds;
           Some (slice i (i + chunkSize) operatorIds :: chunks)
      else Some []
  end.


(** ** The colour of an operator *)

Definition BAR_COLORS : list string :=
  [ "bg-red-600"; "bg-orange-500"; "bg-yellow-400"; "bg-lime-600";
    "bg-green-600"; "bg-emerald-500"; "bg-teal-600"; "bg-cyan-500";
    "bg-sky-600"; "bg-blue-600"; "bg-indigo-600"; "bg-purple-600";
    "bg-fuchsia-600"; "bg-pink-500"; "bg-rose-600"; "bg-amber-500";
    "bg-slate-600"; "bg-stone-600" ].

(** [s.slice(-2)]: the last two characters, the whole string when it has
    fewer. *)
Fixpoint slice_last2 (s : string) : string :=
  match s with
  | String c s' => if (2 <=? String.length s')%nat then slice_last2 s' else s
  | EmptyString => EmptyString
  end.

(** The value of a digit of radix 16. *)
Definition hexDigit (c : ascii) : option Z :=
  let n := Z.of_nat (nat_of_ascii c) in
  if (48 <=? n) && (n <=? 57) then Some (n - 48)
  else if (97 <=? n) && (n <=? 102) then Some (n - 87)
  else if (65 <=? n) && (n <=? 70) then Some (n - 55)
  else None.

Fixpoint skipWhiteSpace (s : string) : string :=
  match s with
  | String c s' => if Ascii.is_space c then skipWhiteSpace s' else s
  | EmptyString => EmptyString
  end.

(** The value of the longest prefix of digits; [acc] is [None] as long as
    no digit has been read. *)
Fixpoint hexValue (s : string) (acc : option Z) : option Z :=
  match s with
  | String c s' =>
      match hexDigit c with
      | Some d => hexValue s' (Some (16 * default 0 acc + d))
      | None => acc
      end
  | EmptyString => acc
  end.

(** [parseInt(s, 16)] on a string of ASCII characters, [None] for NaN:
    leading white space, a sign and a prefix [0x] or [0X] are skipped, and
    the digits that follow are read up to the first other character. *)
Definition parseInt16 (s : string) : option Z :=
  let s := skipWhiteSpace s in
  let '(sign, s) :=
    match s with
    | String c s' =>
        if decide (c = "-"%char) then (-1, s')
        else if decide (c = "+"%char) then (1, s') else (1, s)
    | EmptyString => (1, s)
    end in
  let s :=
    match s with
    | String c0 (String c1 s') =>
        if decide (c0 = "0"%char /\ (c1 = "x"%char \/ c1 = "X"%char))
        then s' else s
    | _ => s
    end in
  n ← hexValue s None; Some (sign * n).

(** [BAR_COLORS[parseInt(id.slice(-2), 16) % BAR_COLORS.length]]; the
    remainder has the sign of the dividend, and the array has no entry at
    NaN or at a negative index. *)
Definition colorOf (id : string) : option string :=
  n ← parseInt16 (slice_last2 id);
  let i := Z.rem n (Z.of_nat (length BAR_COLORS)) in
  if 0 <=? i then BAR_COLORS !! Z.to_nat i else None.

(** The body of [metaJson.data.operators.forEach] on an operator
    [(id, name)], where [name] is the name that [parseMetadata] returns. *)
Definition storeMeta (operatorMetaMap : gmap string Meta.t)
    (op : string * Json) : gmap string Meta.t :=
  <[op.1 := Meta.mk op.2 (colorOf op.1)]> operatorMetaMap.

(** Two operators with addresses for ids, and a day of rows for them. *)
Definition addressOps : list (string * Json) :=
  [ ("0x00a1", JString "Alpha"); ("0x00b2", JString "Beta") ].

Definition addressBuckets : list Bucket.t :=
  [ Bucket.mk (day 1) "100" "5" "0x00a1";
    Bucket.mk (day 1) "70" "2" "0x00b2" ].

Definition addressFrames : list Frame.t :=
  match @processTimeline sampleBuiltins (fold_left storeMeta addressOps ∅)
          false addressBuckets addressOps.*1 with
  | Ok frames => frames
  | Throw _ => []
  end.


(** ** The bars of [renderFrame] *)

(** [Math.min(a, b)] *)
Definition Math_min (a b : num) : num :=
  match a, b with
  | NaN, _ | _, NaN => NaN
  | _, _ => if num_lt b a then b else a
  end.

(** [Math.max(a, b)] *)
Definition Math_max (a b : num) : num :=
  match a, b with
  | NaN, _ | _, NaN => NaN
  | _, _ => if num_lt a b then b else a
  end.

(** [a <= b] *)
Definition num_leb (a b : num) : bool :=
  match a, b with
  | NaN, _ | _, NaN => false
  | _, _ => negb (num_lt b a)
  end.

(** [item.floatValue / 1e18] *)
Definition toData (floatValue : num) : num :=
  js_div floatValue (Fin (inject_Z (10 ^ 18))).

(** [Math.max((item.floatValue / maxValWei) * 100, 0.5)] *)
Definition widthPercent (floatValue maxValWei : num) : num :=
  Math_max (js_mul (js_div floatValue maxValWei) (Fin 100)) (Fin (1 # 2)).

(** [currentRankings.length > 0 ? currentRankings[0].floatValue : 1] *)
Definition maxValWei (currentRankings : list Entry.t) : num :=
  match currentRankings with
  | e :: _ => Entry.floatValue e
  | [] => Fin 1
  end.

(** [(i * scaleStepData / valData) * 100] *)
Definition posPercent (i : Z) (scaleStepData valData : num) : num :=
  js_mul (js_div (js_mul (Fin (inject_Z i)) scaleStepData) valData) (Fin 100).

(** [for (let i = 1; i <= safeLimit; i++)]: the positions of the markers
    appended to a bar, in the order appended; [None] when the fuel runs
    out before the loop ends. *)
Fixpoint markersLoop (fuel : nat) (i : Z) (safeLimit scaleStepData valData : num)
  : option (list num) :=
  match fuel with
  | O => None
  | S fuel' =>
      if num_leb (Fin (inject_Z i)) safeLimit then
        rest ← markersLoop fuel' (i + 1) safeLimit scaleStepData valData;
        let pos := posPercent i scaleStepData valData in
        Some (if num_lt pos (Fin 99) then pos :: rest else rest)
      else Some []
  end.

(** The markers of a bar of value [valData] for the step [scaleStepData]. *)
Definition markers (fuel : nat) (valData scaleStepData : num)
  : option (list num) :=
  if num_lt (Fin 0) valData then
    let numberOfMarkers := Math_floor (js_div valData scaleStepData) in
    let safeLimit := Math_min numberOfMarkers (Fin 100) in
    markersLoop fuel 1 safeLimit scaleStepData valData
  else Some [].

(** The timeline of [sampleHistory]. *)
Definition historyFrames : list Frame.t :=
  match @processTimeline sampleBuiltins sampleMeta false sampleHistory sampleIds with
  | Ok frames => frames
  | Throw _ => []
  end.


(** ** The bars of the chart

    [state.domElements], the [Map] from operator ids to the rows of the
    chart, with what [renderFrame] writes into a row.  The text of the
    value ([formatCurrency]) is not part of the model. *)

Definition ROW_HEIGHT : Z := 18.

Module Bar.
Record t : Type := mk {
  hidden : bool;            (* the class [bar-hidden] *)
  top : Z;                  (* [style.top], in px *)
  rankNum : option Z;       (* the text of [.rank-num] *)
  name : option Json;       (* the value given to [.operator-name] *)
  color : string;           (* the classes of [.bar-fill]: [item.color] *)
  width : option num;       (* the width of [.bar-fill], in percent *)
  markerLines : list num    (* the [.scale-marker-line] children *)
}.
End Bar.

(** The row made for an item that has none: [el.className = 'bar-row'],
    [el.style.top = '700px'], the name and the colour of the item. *)
Definition createBar (item : Entry.t) (color : string) : Bar.t :=
  Bar.mk false 700 None (Entry.name item) color None [].

(** What the loop writes into the row [el] of [item] at rank [rank]. *)
Definition placeBar (maxValWei scaleStepData : num) (rank : nat)
    (item : Entry.t) (el : Bar.t) : Bar.t :=
  Bar.mk false (Z.of_nat rank * ROW_HEIGHT) (Some (Z.of_nat rank + 1))
         (Bar.name el) (Bar.color el)
         (Some (widthPercent (Entry.floatValue item) maxValWei))
         (default [] (markers 101 (toData (Entry.floatValue item))
                              scaleStepData)).

(** [el.classList.add('bar-hidden'); el.style.top = '700px'] *)
Definition hideBar (el : Bar.t) : Bar.t :=
  Bar.mk true 700 (Bar.rankNum el) (Bar.name el) (Bar.color el)
         (Bar.width el) (Bar.markerLines el).

(** The body of [currentRankings.forEach((item, rank) => ...)]; creating
    the row of an item without colour throws at [item.color.split]. *)
Definition drawBar (maxValWei scaleStepData : num)
    (domElements : gmap string Bar.t) (rank : nat) (item : Entry.t)
  : result (gmap string Bar.t) :=
  el ← match domElements !! Entry.id item with
       | Some el => Ok el
       | None =>
           match Entry.color item with
           | None => Throw TypeError
           | Some color => Ok (createBar item color)
           end
       end;
  Ok (<[Entry.id item := placeBar maxValWei scaleStepData rank item el]>
        domElements).

(** [currentRankings.forEach] from rank [rank] on: the rows after the
    loop, and the exception that ended it, if any. *)
Fixpoint drawBars (maxValWei scaleStepData : num) (rank : nat)
    (items : list Entry.t) (domElements : gmap string Bar.t)
  : gmap string Bar.t * option Error :=
  match items with
  | [] => (domElements, None)
  | item :: rest =>
      match drawBar maxValWei scaleStepData domElements rank item with
      | Ok domElements' =>
          drawBars maxValWei scaleStepData (S rank) rest domElements'
      | Throw e => (domElements, Some e)
      end
  end.

(** [domElements.forEach((el, id) => { if (!activeIds.has(id)) ... })] *)
Definition hideOthers (activeIds : list string)
    (domElements : gmap string Bar.t) : gmap string Bar.t :=
  map_imap (fun id el =>
              Some (if decide (id ∈ activeIds) then el else hideBar el))
           domElements.

(** The part of [renderFrame] that draws the bars of [frame]. *)
Definition renderBars `{MathHost} (frame : Frame.t) (activeMetric : Metric)
    (domElements : gmap string Bar.t) : gmap string Bar.t * option Error :=
  let currentRankings := Frame.rankings activeMetric frame in
  let activeIds := Entry.id <$> currentRankings in
  let '(domElements, thrown) :=
    drawBars (maxValWei currentRankings) (scaleStepData frame activeMetric)
             0 currentRankings domElements in
  match thrown with
  | Some e => (domElements, Some e)
  | None => (hideOthers activeIds domElements, None)
  end.

(** The first frame of [addressFrames]. *)
Definition addressFrame : Frame.t :=
  default (Frame.mk 0 "" [] []) (addressFrames !! 0%nat).

(** The id ends in two hexadecimal digits, as an address does. *)
Definition endsInHex (id : string) : Prop :=
  exists pre h l a b,
    id = pre +:+ String h (String l "") /\
    hexDigit h = Some a /\ hexDigit l = Some b.

(** * Properties *)

(** ** The nice-scale step *)

Lemma log10_digits_spec (fuel : nat) :
  forall n, 1 <= n < 2 ^ Z.of_nat fuel ->
    0 <= log10_digits fuel n /\
    10 ^ log10_digits fuel n <= n < 10 ^ (log10_digits fuel n + 1).
Proof.
  induction fuel as [|fuel IH]; intros n Hn.
  - simpl in Hn. lia.
  - cbn [log10_digits]. destruct (Z.ltb_spec n 10) as [Hlt|Hge].
    + simpl. lia.
    + assert (Hdiv : 1 <= n / 10 < 2 ^ Z.of_nat fuel).
      { split.
        - apply Z.div_le_lower_bound; lia.
        - apply Z.div_lt_upper_bound; [lia|].
          rewrite Nat2Z.inj_succ, Z.pow_succ_r in Hn by lia. lia. }
      destruct (IH _ Hdiv) as (Hk & Hlo & Hhi).
      set (k := log10_digits fuel (n / 10)) in *.
      pose proof (Z.mul_div_le n 10 ltac:(lia)) as Hle.
      pose proof (Z.mul_succ_div_gt n 10 ltac:(lia)) as Hgt.
      split; [lia|].
      replace (1 + k + 1) with (Z.succ (k + 1)) by lia.
      replace (1 + k) with (Z.succ k) by lia.
      rewrite !Z.pow_succ_r by lia. lia.
Qed.

Lemma Zlog10_spec (n : Z) :
  1 <= n -> 0 <= Zlog10 n /\ 10 ^ Zlog10 n <= n < 10 ^ (Zlog10 n + 1).
Proof.
  intros Hn. unfold Zlog10. apply log10_digits_spec.
  split; [lia|].
  rewrite Nat2Z.inj_succ, Z2Nat.id by apply Z.log2_nonneg.
  apply Z.log2_spec. lia.
Qed.

Lemma pow10_nonneg (k : Z) : 0 <= k -> pow10 k = inject_Z (10 ^ k).
Proof. intros Hk. unfold pow10. destruct (Z.leb_spec 0 k); [done|lia]. Qed.

Lemma pow10_neg (k : Z) : k < 0 -> pow10 k = (1 # Z.to_pos (10 ^ (- k)))%Q.
Proof. intros Hk. unfold pow10. destruct (Z.leb_spec 0 k); [lia|done]. Qed.

Lemma pow10_pos (k : Z) : (0 < pow10 k)%Q.
Proof.
  destruct (Z.le_gt_cases 0 k) as [Hk|Hk].
  - rewrite pow10_nonneg by done. unfold Qlt. simpl.
    pose proof (Z.pow_pos_nonneg 10 k ltac:(lia) Hk). lia.
  - rewrite pow10_neg by done. reflexivity.
Qed.

(** [pow10 k] is the rational power [10^k]. *)
Lemma pow10_Qpower (k : Z) : (pow10 k == 10 ^ k)%Q.
Proof.
  destruct (Z.le_gt_cases 0 k) as [Hk|Hk].
  - rewrite pow10_nonneg by done. by apply (Zpower_Qpower 10 k).
  - rewrite pow10_neg by done.
    replace k with (- - k) at 2 by lia.
    rewrite Qpower_opp, <- (Zpower_Qpower 10 (- k)) by lia.
    pose proof (Z.pow_pos_nonneg 10 (- k) ltac:(lia) ltac:(lia)) as Hpos.
    destruct (10 ^ (- k)) as [|p|p] eqn:E; try lia.
    reflexivity.
Qed.

(** [floor_log10] brackets a positive rational between two consecutive
    powers of ten. *)
Lemma floor_log10_spec (q : Q) :
  (0 < q)%Q ->
  (pow10 (floor_log10 q) <= q)%Q /\ (q < pow10 (floor_log10 q + 1))%Q.
Proof.
  destruct q as [a b]. unfold Qlt at 1. simpl. intros Ha.
  assert (Ha' : 0 < a) by lia. clear Ha.
  unfold floor_log10. simpl.
  destruct (Z.leb_spec (Z.pos b) a) as [Hba|Hab].
  - assert (Hn : 1 <= a / Z.pos b) by (apply Z.div_le_lower_bound; lia).
    destruct (Zlog10_spec _ Hn) as (Hk & Hlo & Hhi).
    set (k := Zlog10 (a / Z.pos b)) in *.
    rewrite !pow10_nonneg by lia.
    pose proof (Z.mul_div_le a (Z.pos b) ltac:(lia)) as Hle.
    pose proof (Z.mul_succ_div_gt a (Z.pos b) ltac:(lia)) as Hgt.
    unfold Qle, Qlt. simpl. split; nia.
  - assert (Hn : 1 <= (Z.pos b - 1) / a) by (apply Z.div_le_lower_bound; lia).
    destruct (Zlog10_spec _ Hn) as (Hk & Hlo & Hhi).
    set (k := Zlog10 ((Z.pos b - 1) / a)) in *.
    pose proof (Z.mul_div_le (Z.pos b - 1) a ltac:(lia)) as Hle.
    pose proof (Z.mul_succ_div_gt (Z.pos b - 1) a ltac:(lia)) as Hgt.
    pose proof (Z.pow_pos_nonneg 10 k ltac:(lia) Hk) as Hpk.
    split.
    + rewrite pow10_neg by lia.
      replace (- - (k + 1)) with (k + 1) by lia.
      unfold Qle. simpl. rewrite Z2Pos.id by lia. nia.
    + replace (- (k + 1) + 1) with (- k) by lia.
      destruct (Z.eq_dec k 0) as [->|Hk0].
      * simpl. unfold Qlt. simpl. lia.
      * rewrite pow10_neg by lia. replace (- - k) with k by lia.
        unfold Qlt. simpl. rewrite Z2Pos.id by lia. nia.
Qed.

Lemma Qzero_false (q : Q) : ~ (q == 0)%Q -> Qzero q = false.
Proof.
  intros Hq. unfold Qzero. destruct (Qeq_bool q 0) eqn:E; [|done].
  apply Qeq_bool_iff in E. contradiction.
Qed.

Lemma Qnegative_false (q : Q) : (0 <= q)%Q -> Qnegative q = false.
Proof.
  intros Hq. unfold Qnegative. apply Qle_bool_iff in Hq. by rewrite Hq.
Qed.

Lemma num_lt_Fin (x y : Q) : num_lt (Fin x) (Fin y) = true <-> (x < y)%Q.
Proof.
  simpl. rewrite negb_true_iff. split.
  - intros E. apply Qnot_le_lt. intros Hle. apply Qle_bool_iff in Hle. congruence.
  - intros Hlt. destruct (Qle_bool y x) eqn:E; [|done].
    apply Qle_bool_iff in E. exfalso. by apply (Qlt_not_le _ _ Hlt).
Qed.

Lemma num_lt_Fin_false (x y : Q) : num_lt (Fin x) (Fin y) = false <-> (y <= x)%Q.
Proof.
  simpl. rewrite negb_false_iff. apply Qle_bool_iff.
Qed.

(** The shape of [calculateNiceStep] on a positive maximum. *)
(** *** Rounding to the nearest double *)

Lemma num_le_trans (a b c : num) : num_le a b -> num_le b c -> num_le a c.
Proof.
  destruct a as [| |x|], b as [| |y|], c as [| |z|]; simpl; try done.
  apply Qle_trans.
Qed.

Lemma pow2_nonneg (k : Z) : 0 <= k -> pow2 k = inject_Z (2 ^ k).
Proof. intros Hk. unfold pow2. destruct (Z.leb_spec 0 k); [done|lia]. Qed.

Lemma pow2_neg (k : Z) : k < 0 -> pow2 k = (1 # Z.to_pos (2 ^ (- k)))%Q.
Proof. intros Hk. unfold pow2. destruct (Z.leb_spec 0 k); [lia|done]. Qed.

Lemma pow2_pos (k : Z) : (0 < pow2 k)%Q.
Proof.
  destruct (Z.le_gt_cases 0 k) as [Hk|Hk].
  - rewrite pow2_nonneg by done. unfold Qlt. simpl.
    pose proof (Z.pow_pos_nonneg 2 k ltac:(lia) Hk). lia.
  - rewrite pow2_neg by done. reflexivity.
Qed.

Lemma pow2_Qpower (k : Z) : (pow2 k == 2 ^ k)%Q.
Proof.
  destruct (Z.le_gt_cases 0 k) as [Hk|Hk].
  - rewrite pow2_nonneg by done. by apply (Zpower_Qpower 2 k).
  - rewrite pow2_neg by done.
    replace k with (- - k) at 2 by lia.
    rewrite Qpower_opp, <- (Zpower_Qpower 2 (- k)) by lia.
    pose proof (Z.pow_pos_nonneg 2 (- k) ltac:(lia) ltac:(lia)) as Hpos.
    destruct (2 ^ (- k)) as [|p|p] eqn:E; try lia.
    reflexivity.
Qed.

Lemma pow2_add (a b : Z) : (pow2 (a + b) == pow2 a * pow2 b)%Q.
Proof. rewrite !pow2_Qpower. by apply Qpower_plus. Qed.

Lemma pow2_ge_1 (k : Z) : 0 <= k -> (1 <= pow2 k)%Q.
Proof.
  intros Hk. rewrite pow2_nonneg by done.
  pose proof (Z.pow_pos_nonneg 2 k ltac:(lia) Hk).
  change 1%Q with (inject_Z 1). rewrite <- Zle_Qle. lia.
Qed.

Lemma pow2_mono (a b : Z) : a <= b -> (pow2 a <= pow2 b)%Q.
Proof.
  intros Hab. replace b with (a + (b - a)) by lia. rewrite pow2_add.
  pose proof (pow2_pos a). pose proof (pow2_ge_1 (b - a) ltac:(lia)). nra.
Qed.

Lemma floor_log2_spec (q : Q) :
  (0 < q)%Q ->
  (pow2 (floor_log2 q) <= q)%Q /\ (q < pow2 (floor_log2 q + 1))%Q.
Proof.
  destruct q as [a b]. unfold Qlt at 1. simpl. intros Ha.
  assert (Ha' : 0 < a) by lia. clear Ha.
  unfold floor_log2. simpl.
  destruct (Z.leb_spec (Z.pos b) a) as [Hba|Hab].
  - assert (Hn : 0 < a / Z.pos b) by (apply Z.div_str_pos; lia).
    destruct (Z.log2_spec _ Hn) as (Hlo & Hhi).
    pose proof (Z.log2_nonneg (a / Z.pos b)) as Hk.
    set (k := Z.log2 (a / Z.pos b)) in *.
    rewrite !pow2_nonneg by lia.
    replace (Z.succ k) with (k + 1) in Hhi by lia.
    pose proof (Z.mul_div_le a (Z.pos b) ltac:(lia)) as Hle.
    pose proof (Z.mul_succ_div_gt a (Z.pos b) ltac:(lia)) as Hgt.
    unfold Qle, Qlt. simpl. split; nia.
  - assert (Hn : 0 < (Z.pos b - 1) / a) by (apply Z.div_str_pos; lia).
    destruct (Z.log2_spec _ Hn) as (Hlo & Hhi).
    pose proof (Z.log2_nonneg ((Z.pos b - 1) / a)) as Hk.
    set (k := Z.log2 ((Z.pos b - 1) / a)) in *.
    replace (Z.succ k) with (k + 1) in Hhi by lia.
    pose proof (Z.mul_div_le (Z.pos b - 1) a ltac:(lia)) as Hle.
    pose proof (Z.mul_succ_div_gt (Z.pos b - 1) a ltac:(lia)) as Hgt.
    pose proof (Z.pow_pos_nonneg 2 k ltac:(lia) Hk) as Hpk.
    split.
    + rewrite pow2_neg by lia.
      replace (- - (k + 1)) with (k + 1) by lia.
      unfold Qle. simpl. rewrite Z2Pos.id by lia. nia.
    + replace (- (k + 1) + 1) with (- k) by lia.
      destruct (Z.eq_dec k 0) as [->|Hk0].
      * simpl. unfold Qlt. simpl. lia.
      * rewrite pow2_neg by lia. replace (- - k) with k by lia.
        unfold Qlt. simpl. rewrite Z2Pos.id by lia. nia.
Qed.

Lemma floor_log2_mono (q1 q2 : Q) :
  (0 < q1)%Q -> (q1 <= q2)%Q -> floor_log2 q1 <= floor_log2 q2.
Proof.
  intros H1 H12.
  destruct (floor_log2_spec q1 H1) as [Hlo1 _].
  destruct (floor_log2_spec q2 ltac:(lra)) as [_ Hhi2].
  destruct (Z.le_gt_cases (floor_log2 q1) (floor_log2 q2)) as [|Hgt]; [done|].
  pose proof (pow2_mono (floor_log2 q2 + 1) (floor_log2 q1) ltac:(lia)). lra.
Qed.

Lemma roundToEven_Z (n : Z) : roundToEven (inject_Z n) = n.
Proof.
  unfold roundToEven. rewrite Qfloor_Z.
  destruct (Qcompare_spec (inject_Z n - inject_Z n) (1 # 2)); [|done|];
    exfalso; lra.
Qed.

Lemma roundToEven_mono (x y : Q) : (x <= y)%Q -> roundToEven x <= roundToEven y.
Proof.
  intros Hxy. pose proof (Qfloor_resp_le x y Hxy) as Hf.
  pose proof (Qfloor_le x) as Hx1. pose proof (Qlt_floor x) as Hx2.
  pose proof (Qfloor_le y) as Hy1. pose proof (Qlt_floor y) as Hy2.
  unfold roundToEven.
  destruct (Z.eq_dec (Qfloor x) (Qfloor y)) as [E|NE].
  - rewrite <- E in *.
    destruct (Qcompare_spec (x - inject_Z (Qfloor x)) (1 # 2)),
             (Qcompare_spec (y - inject_Z (Qfloor x)) (1 # 2));
      try destruct (Z.even (Qfloor x)); try lia; exfalso; lra.
  - assert (Hlt : Qfloor x + 1 <= Qfloor y) by lia.
    destruct (Qcompare (x - inject_Z (Qfloor x)) (1 # 2)),
             (Qcompare (y - inject_Z (Qfloor y)) (1 # 2));
      try destruct (Z.even (Qfloor x)); try destruct (Z.even (Qfloor y)); lia.
Qed.

Lemma roundToEven_le (x : Q) (n : Z) :
  (x <= inject_Z n)%Q -> roundToEven x <= n.
Proof. intros H. rewrite <- (roundToEven_Z n). by apply roundToEven_mono. Qed.

Lemma roundToEven_ge (x : Q) (n : Z) :
  (inject_Z n <= x)%Q -> n <= roundToEven x.
Proof. intros H. rewrite <- (roundToEven_Z n). by apply roundToEven_mono. Qed.

(** The value that [nearestDouble] computes before the overflow test. *)
Lemma nearest_bounds (q : Q) :
  (0 < q)%Q ->
  let b := Z.max (floor_log2 q) (-1022) in
  let y := (inject_Z (roundToEven (q / ulp q)) * ulp q)%Q in
  (0 <= y)%Q /\ (y <= pow2 (b + 1))%Q /\
  (-1022 <= floor_log2 q -> (pow2 b <= y)%Q).
Proof.
  intros Hq b y. destruct (floor_log2_spec q Hq) as [Hlo Hhi].
  assert (Hu : (0 < ulp q)%Q) by apply pow2_pos.
  assert (Hup : (pow2 (b + 1) == inject_Z (2 ^ 53) * ulp q)%Q).
  { unfold ulp. fold b. replace (b + 1) with (53 + (b - 52)) by lia.
    by rewrite pow2_add. }
  assert (Hdown : (pow2 b == inject_Z (2 ^ 52) * ulp q)%Q).
  { unfold ulp. fold b. replace b with (52 + (b - 52)) at 1 by lia.
    by rewrite pow2_add. }
  assert (Hqb : (q < pow2 (b + 1))%Q).
  { pose proof (pow2_mono (floor_log2 q + 1) (b + 1) ltac:(lia)). lra. }
  assert (Hn0 : 0 <= roundToEven (q / ulp q)).
  { apply roundToEven_ge. change (inject_Z 0) with 0%Q.
    apply Qle_shift_div_l; [done|]. lra. }
  assert (Hn1 : roundToEven (q / ulp q) <= 2 ^ 53).
  { apply roundToEven_le. apply Qle_shift_div_r; [done|]. lra. }
  rewrite Zle_Qle in Hn0, Hn1. change (inject_Z 0) with 0%Q in Hn0.
  subst y. split; [nra|]. split; [nra|].
  intros Hnormal.
  assert (Hb : b = floor_log2 q) by lia.
  assert (Hn2 : 2 ^ 52 <= roundToEven (q / ulp q)).
  { apply roundToEven_ge. apply Qle_shift_div_l; [done|].
    rewrite <- Hdown, Hb. exact Hlo. }
  rewrite Zle_Qle in Hn2. nra.
Qed.

Lemma nearest_mono (q1 q2 : Q) :
  (0 < q1)%Q -> (q1 <= q2)%Q ->
  (inject_Z (roundToEven (q1 / ulp q1)) * ulp q1
   <= inject_Z (roundToEven (q2 / ulp q2)) * ulp q2)%Q.
Proof.
  intros H1 H12. assert (H2 : (0 < q2)%Q) by lra.
  pose proof (floor_log2_mono q1 q2 H1 H12) as Hfl.
  destruct (nearest_bounds q1 H1) as (_ & Hup1 & _).
  destruct (nearest_bounds q2 H2) as (_ & _ & Hdown2).
  cbv zeta in *.
  destruct (Z.eq_dec (Z.max (floor_log2 q1) (-1022))
                     (Z.max (floor_log2 q2) (-1022))) as [E|NE].
  - assert (Hu : ulp q1 = ulp q2) by (unfold ulp; by rewrite E).
    rewrite Hu. assert (Hpos : (0 < ulp q2)%Q) by apply pow2_pos.
    apply Qmult_le_compat_r; [|lra].
    rewrite <- Zle_Qle. apply roundToEven_mono.
    apply Qle_shift_div_l; [done|].
    assert (Hd : (q1 / ulp q2 * ulp q2 == q1)%Q)
      by (rewrite Qmult_comm; apply Qmult_div_r; lra).
    assert (Hd2 : (q2 / ulp q2 * ulp q2 == q2)%Q)
      by (rewrite Qmult_comm; apply Qmult_div_r; lra).
    lra.
  - specialize (Hdown2 ltac:(lia)).
    pose proof (pow2_mono (Z.max (floor_log2 q1) (-1022) + 1)
                  (Z.max (floor_log2 q2) (-1022)) ltac:(lia)).
    lra.
Qed.

Lemma nearestDouble_cases (q : Q) :
  let y := (inject_Z (roundToEven (q / ulp q)) * ulp q)%Q in
  (nearestDouble q = PosInf /\ (pow2 1024 <= y)%Q) \/
  (nearestDouble q = Fin (Qred y) /\ (y < pow2 1024)%Q).
Proof.
  intros y. unfold nearestDouble. fold y.
  destruct (Qle_bool (pow2 1024) y) eqn:E.
  - left. by apply Qle_bool_iff in E.
  - right. split; [done|]. apply Qnot_le_lt. intros H.
    apply Qle_bool_iff in H. congruence.
Qed.

Lemma nearestDouble_mono (q1 q2 : Q) :
  (0 < q1)%Q -> (q1 <= q2)%Q -> num_le (nearestDouble q1) (nearestDouble q2).
Proof.
  intros H1 H12. pose proof (nearest_mono q1 q2 H1 H12) as Hy.
  destruct (nearestDouble_cases q1) as [[-> Hy1]|[-> Hy1]],
           (nearestDouble_cases q2) as [[-> Hy2]|[-> Hy2]];
    cbv zeta in *; simpl; try done.
  - lra.
  - by rewrite !Qred_correct.
Qed.

Lemma nearestDouble_nonneg (q : Q) :
  (0 < q)%Q -> num_le (Fin 0) (nearestDouble q).
Proof.
  intros Hq. destruct (nearest_bounds q Hq) as (Hy & _).
  destruct (nearestDouble_cases q) as [[-> _]|[-> _]]; simpl; [done|].
  by rewrite Qred_correct.
Qed.

Lemma double_zero (q : Q) : (q == 0)%Q -> double q = Fin 0.
Proof.
  intros Hq. unfold double. by rewrite (Qred_complete q 0 Hq).
Qed.

Lemma double_pos (q : Q) : (0 < q)%Q -> double q = nearestDouble (Qred q).
Proof.
  intros Hq. unfold double. rewrite <- (Qred_correct q) in Hq.
  destruct (Qred q) as [[|a|a] d]; simpl; [|done|]; by unfold Qlt in Hq.
Qed.

Lemma double_neg (q : Q) :
  (q < 0)%Q -> double q = num_opp (nearestDouble (- Qred q)).
Proof.
  intros Hq. unfold double. rewrite <- (Qred_correct q) in Hq.
  destruct (Qred q) as [[|a|a] d]; simpl; [| |done]; by unfold Qlt in Hq.
Qed.

Lemma num_le_opp (a b : num) : num_le a b -> num_le (num_opp b) (num_opp a).
Proof.
  destruct a as [| |x|], b as [| |y|]; simpl; try done. intros. lra.
Qed.

Lemma double_mono (q1 q2 : Q) :
  (q1 <= q2)%Q -> num_le (double q1) (double q2).
Proof.
  intros H12.
  pose proof (Qred_correct q1) as E1. pose proof (Qred_correct q2) as E2.
  destruct (Qlt_le_dec 0 q1) as [P1|N1].
  - rewrite (double_pos q1), (double_pos q2) by lra.
    apply nearestDouble_mono; lra.
  - destruct (Qeq_dec q1 0) as [Z1|NZ1].
    + rewrite (double_zero q1 Z1).
      destruct (Qeq_dec q2 0) as [Z2|NZ2].
      * rewrite (double_zero q2 Z2). simpl. lra.
      * rewrite (double_pos q2) by lra. apply nearestDouble_nonneg. lra.
    + assert (Hn1 : (q1 < 0)%Q) by lra. rewrite (double_neg q1 Hn1).
      assert (Hneg : num_le (num_opp (nearestDouble (- Qred q1))) (Fin 0)).
      { change (Fin 0) with (num_opp (Fin 0)). apply num_le_opp.
        apply nearestDouble_nonneg. lra. }
      destruct (Qlt_le_dec 0 q2) as [P2|N2].
      * rewrite (double_pos q2 P2).
        eapply num_le_trans; [exact Hneg|]. apply nearestDouble_nonneg. lra.
      * destruct (Qeq_dec q2 0) as [Z2|NZ2].
        { by rewrite (double_zero q2 Z2). }
        rewrite (double_neg q2) by lra. apply num_le_opp.
        apply nearestDouble_mono; lra.
Qed.

Lemma double_proper (q1 q2 : Q) : (q1 == q2)%Q -> double q1 = double q2.
Proof. intros H. unfold double. by rewrite (Qred_complete q1 q2 H). Qed.

(** *** The step *)

Lemma double_1 : double 1 = Fin 1.
Proof. by vm_compute. Qed.

Lemma double_10 : double 10 = Fin 10.
Proof. by vm_compute. Qed.

Lemma js_div_Fin (x y : Q) :
  ~ (y == 0)%Q -> js_div (Fin x) (Fin y) = double (x / y).
Proof. intros Hy. unfold js_div, num_div. by rewrite Qzero_false. Qed.

Lemma js_mul_Fin (x y : Q) : js_mul (Fin x) (Fin y) = double (x * y).
Proof. reflexivity. Qed.

(** Between two doubles a rounded result is finite. *)
Lemma num_le_between (a : num) (lo hi : Q) :
  num_le (Fin lo) a -> num_le a (Fin hi) ->
  exists n, a = Fin n /\ (lo <= n)%Q /\ (n <= hi)%Q.
Proof. destruct a as [| |n|]; simpl; try done. by exists n. Qed.

Lemma num_lt_false_below (a : num) (x y : Q) :
  (x <= y)%Q -> num_lt a (Fin y) = false -> num_lt a (Fin x) = false.
Proof.
  intros Hxy. destruct a as [| |n|]; try done.
  rewrite !num_lt_Fin_false. intros Hy. by apply Qle_trans with y.
Qed.

Lemma calculateNiceStep_nonzero `{MathHost} (q : Q) :
  ~ (q == 0)%Q ->
  calculateNiceStep (Fin q) =
    let roughStep := js_div (Fin q) (Fin 16) in
    let magnitude := Math_pow10 (Math_floor (Math_log10 roughStep)) in
    let normalizedStep := js_div roughStep magnitude in
    js_mul
      (if num_lt normalizedStep (Fin (3 # 2)) then Fin 1
       else if num_lt normalizedStep (Fin 3) then Fin 2
       else if num_lt normalizedStep (Fin 7) then Fin 5
       else Fin 10)
      magnitude.
Proof.
  intros Hq. unfold calculateNiceStep.
  assert (Hz : num_is_zero (Fin q) = false) by by apply Qzero_false.
  by rewrite Hz.
Qed.

(** C4. On a maximum other than 0 [calculateNiceStep] divides by 16,
    takes [magnitude = Math.pow(10, Math.floor(Math.log10(roughStep)))],
    divides the rough step by it, and returns 1, 2, 5 or 10 times the
    magnitude according to the thresholds 1.5, 3 and 7, each operation
    rounded to a double.  The normalized step is a number between 1 and
    10 whenever the magnitude is positive and brackets the rough step
    ([magnitude <= roughStep <= 10 * magnitude]).  For the maximum 37 the
    rough step is 2.3125, and the step is 2 on every host whose
    [Math.log10(2.3125)] has the integer part 0. *)
Theorem calculateNiceStep_snaps `{MathHost} (q : Q) :
  ~ (q == 0)%Q ->
  let roughStep := js_div (Fin q) (Fin 16) in
  let magnitude := Math_pow10 (Math_floor (Math_log10 roughStep)) in
  let normalizedStep := js_div roughStep magnitude in
  roughStep = double (q / 16) /\
  (num_lt normalizedStep (Fin (3 # 2)) = true ->
     calculateNiceStep (Fin q) = js_mul (Fin 1) magnitude) /\
  (num_lt normalizedStep (Fin (3 # 2)) = false ->
   num_lt normalizedStep (Fin 3) = true ->
     calculateNiceStep (Fin q) = js_mul (Fin 2) magnitude) /\
  (num_lt normalizedStep (Fin 3) = false ->
   num_lt normalizedStep (Fin 7) = true ->
     calculateNiceStep (Fin q) = js_mul (Fin 5) magnitude) /\
  (num_lt normalizedStep (Fin 7) = false ->
     calculateNiceStep (Fin q) = js_mul (Fin 10) magnitude) /\
  (forall r m : Q,
     roughStep = Fin r -> magnitude = Fin m ->
     (0 < m)%Q -> (m <= r)%Q -> (r <= 10 * m)%Q ->
     exists n, normalizedStep = Fin n /\ (1 <= n)%Q /\ (n <= 10)%Q) /\
  js_div (Fin 37) (Fin 16) = Fin (37 # 16) /\
  (Math_floor (host_log10 (37 # 16)) = Fin 0 ->
     calculateNiceStep (Fin 37) = Fin 2).
Proof.
  intros Hq roughStep magnitude normalizedStep.
  pose proof (calculateNiceStep_nonzero q Hq) as Hcalc.
  cbv zeta in Hcalc. fold roughStep magnitude normalizedStep in Hcalc.
  split; [by apply js_div_Fin|].
  split. { intros H1. by rewrite Hcalc, H1. }
  split. { intros H1 H2. by rewrite Hcalc, H1, H2. }
  split.
  { intros H1 H2.
    assert (H0 : num_lt normalizedStep (Fin (3 # 2)) = false).
    { by apply (num_lt_false_below _ _ 3). }
    by rewrite Hcalc, H0, H1, H2. }
  split.
  { intros H1.
    assert (H3 : num_lt normalizedStep (Fin 3) = false).
    { by apply (num_lt_false_below _ _ 7). }
    assert (H0 : num_lt normalizedStep (Fin (3 # 2)) = false).
    { by apply (num_lt_false_below _ _ 3). }
    by rewrite Hcalc, H0, H3, H1. }
  split.
  { intros r m Hr Hm Hpos Hlo Hhi. unfold normalizedStep.
    rewrite Hr, Hm, js_div_Fin by lra.
    apply num_le_between.
    - rewrite <- double_1. apply double_mono.
      apply Qle_shift_div_l; [done|]. lra.
    - rewrite <- double_10. apply double_mono.
      apply Qle_shift_div_r; [done|]. lra. }
  split; [by vm_compute|].
  intros Hlog.
  assert (H37 : ~ (37 == 0)%Q) by done.
  rewrite (calculateNiceStep_nonzero 37 H37). cbv zeta.
  assert (Hrough : js_div (Fin 37) (Fin 16) = Fin (37 # 16)) by by vm_compute.
  rewrite Hrough.
  assert (Hl : Math_log10 (Fin (37 # 16)) = host_log10 (37 # 16)) by done.
  rewrite Hl, Hlog. by vm_compute.
Qed.

Lemma calculateNiceStep_snaps_witness :
  @calculateNiceStep sampleMath (Fin 37) = Fin 2 /\
  @calculateNiceStep sampleMath (double (24 # 100)) = double (2 # 100).
Proof.
  split.
  - assert (H37 : ~ (37 == 0)%Q) by done.
    apply (@calculateNiceStep_snaps sampleMath 37 H37). by vm_compute.
  - by vm_compute.
Defined.

(** Positive maxima whose normalized step is not in [1,10).  The least
    positive double: its sixteenth rounds to 0, whose logarithm is
    [-Infinity]; the magnitude is 0, the normalized step [0 / 0] is NaN
    and the step returned is 0.  The double below 16000
    (15999.999999999998): the rough step is the double below 1000, and on
    a host that rounds its logarithm to 3 and has [Math.pow(10, 3)] equal
    to 1000 the normalized step is 0.9999999999999999.  On a negative
    maximum the logarithm and the step are NaN. *)
Lemma calculateNiceStep_not_normalized :
  (0 < pow2 (-1074))%Q /\
  double (pow2 (-1074)) = Fin (pow2 (-1074)) /\
  (forall host : MathHost,
     js_div (Fin (pow2 (-1074))) (Fin 16) = Fin 0 /\
     Math_pow10 (Math_floor (Math_log10 (Fin 0))) = Fin 0 /\
     js_div (Fin 0) (Fin 0) = NaN /\
     calculateNiceStep (Fin (pow2 (-1074))) = Fin 0) /\
  (forall (host : MathHost) (r : Q),
     js_div (Fin (16000 - pow2 (-39))) (Fin 16) = Fin r ->
     host_log10 r = Fin 3 -> host_pow10 3 = Fin 1000 ->
     (r == 1000 - pow2 (-43))%Q /\
     Math_pow10 (Math_floor (Math_log10 (Fin r))) = Fin 1000 /\
     (exists n, js_div (Fin r) (Fin 1000) = Fin n /\ (n < 1)%Q) /\
     calculateNiceStep (Fin (16000 - pow2 (-39))) = Fin 1000) /\
  (forall host : MathHost, calculateNiceStep (Fin (- 37)) = NaN).
Proof.
  split; [done|]. split; [by vm_compute|].
  split; [intros host; repeat split; by vm_compute|].
  split; [|intros host; by vm_compute].
  intros host r Hr Hlog Hpow.
  assert (Hval : r = (8796093022207999 # 8796093022208)%Q).
  { vm_compute in Hr. by injection Hr. }
  assert (Hmag : Math_pow10 (Math_floor (Math_log10 (Fin r))) = Fin 1000).
  { assert (Hl : Math_log10 (Fin r) = host_log10 r).
    { unfold Math_log10.
      replace (Qnegative r) with false by (by rewrite Hval).
      replace (Qzero r) with false by (by rewrite Hval).
      by replace (Qeq_bool r 1) with false by (by rewrite Hval). }
    rewrite Hl, Hlog. exact Hpow. }
  assert (Hnorm : js_div (Fin r) (Fin 1000)
                  = Fin (9007199254740991 # 9007199254740992)).
  { rewrite Hval. by vm_compute. }
  split; [rewrite Hval; by vm_compute|]. split; [exact Hmag|].
  split; [eexists; split; [exact Hnorm|reflexivity]|].
  rewrite calculateNiceStep_nonzero by done. cbv zeta.
  rewrite Hr, Hmag, Hnorm. by vm_compute.
Qed.

Lemma num_is_zero_Fin (q : Q) : num_is_zero (Fin q) = true <-> (q == 0)%Q.
Proof. simpl. unfold Qzero. apply Qeq_bool_iff. Qed.

(** C9. When the leading value of the ranking shown is exactly 0, the
    step computed for the frame is the fallback 1000, a positive step
    obtained without any division by the maximum. *)
Theorem calculateNiceStep_zero `{MathHost} (frame : Frame.t) (metric : Metric)
    (e : Entry.t) (rest : list Entry.t) (q : Q) :
  Frame.rankings metric frame = e :: rest ->
  Entry.floatValue e = Fin q ->
  (q == 0)%Q ->
  calculateNiceStep (Fin q) = Fin 1000 /\
  scaleStepData frame metric = Fin 1000 /\
  num_lt (Fin 0) (Fin 1000) = true.
Proof.
  intros Hrank Hval Hq.
  assert (Hz : forall r : Q, (r == 0)%Q -> calculateNiceStep (Fin r) = Fin 1000).
  { intros r Hr. unfold calculateNiceStep.
    by rewrite (proj2 (num_is_zero_Fin r) Hr). }
  split; [by apply Hz|]. split; [|reflexivity].
  unfold scaleStepData. rewrite Hrank, Hval.
  rewrite js_div_Fin by done.
  rewrite double_zero by (rewrite Hq; reflexivity).
  by apply Hz.
Qed.

Lemma calculateNiceStep_zero_witness :
  @calculateNiceStep sampleMath (Fin (0 # 7)) = Fin 1000 /\
  @scaleStepData sampleMath
     (Frame.mk 0 "" [Entry.mk "A" "0" (Fin (0 # 7)) None None] [])
     Stake = Fin 1000 /\
  num_lt (Fin 0) (Fin 1000) = true.
Proof.
  apply (@calculateNiceStep_zero sampleMath
           (Frame.mk 0 "" [Entry.mk "A" "0" (Fin (0 # 7)) None None] [])
           Stake (Entry.mk "A" "0" (Fin (0 # 7)) None None) [] (0 # 7));
    reflexivity.
Defined.

(** ** Playback *)

Ltac unfold_playback :=
  unfold togglePlay, loop, sliderInput, setMetric, stop, toggleFilter,
    toggleSpeed, resetUI, renderFrame, setTimeout, clearTimeout in *.

Ltac playback_cases :=
  unfold_playback; repeat case_match; simplify_eq/=; try done.

Lemma renderFrame_in_range (s : State) (index : Z) :
  0 <= index <= lastIndex s ->
  renderFrame index s = set_rendered (rendered s ++ [(index, activeMetric s)]) s.
Proof.
  intros Hi. unfold renderFrame, frameAtIndex, lastIndex in *.
  destruct (Z.leb_spec 0 index); [|lia].
  destruct (timelineData s !! Z.to_nat index) eqn:E; [done|].
  apply lookup_ge_None in E. lia.
Qed.


Lemma renderFrame_state (index : Z) (s : State) :
  renderFrame index s = s \/
  renderFrame index s = set_rendered (rendered s ++ [(index, activeMetric s)]) s.
Proof. unfold renderFrame. destruct (frameAtIndex s index); auto. Qed.

Section playback_facts.
Context `{Builtins}.

Lemma playbackSpeed_refilter (s : State) :
  playbackSpeed (refilter s) = playbackSpeed s.
Proof. unfold refilter. playback_cases. Qed.

Lemma playbackSpeed_init d metas h (s : State) :
  playbackSpeed (init d metas h s) = playbackSpeed s.
Proof. unfold init. playback_cases. Qed.

Lemma playbackSpeed_loop (s : State) : playbackSpeed (loop s) = playbackSpeed s.
Proof. playback_cases. Qed.

Lemma playbackSpeed_fireTimer id (s : State) :
  playbackSpeed (fireTimer id s) = playbackSpeed s.
Proof.
  unfold fireTimer. repeat case_match; try done.
  - by rewrite playbackSpeed_loop.
  - by rewrite playbackSpeed_refilter.
Qed.

(** Every event leaves the speed alone, except the speed toggle. *)
Lemma playbackSpeed_step (s : State) (e : Event) :
  e <> EToggleSpeed -> playbackSpeed (step s e) = playbackSpeed s.
Proof.
  intros He. destruct e; simpl; try done;
    [apply playbackSpeed_init | playback_cases ..
    | apply playbackSpeed_fireTimer].
Qed.

Lemma run_snoc (events : list Event) (e : Event) (s : State) :
  run (events ++ [e]) s = step (run events s) e.
Proof. unfold run. by rewrite fold_left_app. Qed.

Lemma reachable_speed (s : State) :
  reachable s -> playbackSpeed s = 100 \/ playbackSpeed s = 30.
Proof.
  intros [events ->].
  induction events as [|e events IH] using rev_ind; [by left|].
  rewrite run_snoc.
  assert (He : e = EToggleSpeed \/ e <> EToggleSpeed)
    by (destruct e; auto; right; discriminate).
  destruct He as [->|Hne].
  - simpl. unfold toggleSpeed. simpl. case_decide; auto.
  - rewrite playbackSpeed_step by done. exact IH.
Qed.
End playback_facts.

(** C5. Pressing play while the index is at or past the last frame
    resets the index to 0 and plays from there: frame 0 is drawn first.
    A tick at the last frame draws that frame and stops: the index does
    not move and no timer is scheduled. *)
Theorem play_restarts_and_last_tick_stops `{Builtins} (s t : State) :
  isPlaying s = false ->
  lastIndex s <= currentIndex s ->
  isPlaying t = true ->
  currentIndex t = lastIndex t ->
  0 <= lastIndex t ->
  (togglePlay s = loop (set_currentIndex 0 (set_isPlaying true s)) /\
   (0 <= lastIndex s ->
      exists rest, rendered (togglePlay s)
                   = rendered s ++ (0, activeMetric s) :: rest) /\
   (0 < lastIndex s ->
      isPlaying (togglePlay s) = true /\
      currentIndex (togglePlay s) = 1 /\
      pendingTimers (togglePlay s)
        = pendingTimers s ++ [(nextTimerId s, (CbLoop, playbackSpeed s))])) /\
  (rendered (loop t) = rendered t ++ [(currentIndex t, activeMetric t)] /\
   isPlaying (loop t) = false /\
   currentIndex (loop t) = currentIndex t /\
   pendingTimers (loop t) = pendingTimers t /\
   timer (loop t) = timer t /\
   forall id delay,
     List.find (fun x => Nat.eqb (fst x) id) (pendingTimers t)
       = Some (id, (CbLoop, delay)) ->
     rendered (fireTimer id t)
       = rendered t ++ [(currentIndex t, activeMetric t)] /\
     isPlaying (fireTimer id t) = false /\
     currentIndex (fireTimer id t) = currentIndex t /\
     pendingTimers (fireTimer id t)
       = List.filter (fun x => negb (Nat.eqb (fst x) id)) (pendingTimers t)).
Proof.
  intros Hstop Hpast Hplay Hlast Hne.
  split.
  - assert (Htoggle : togglePlay s = loop (set_currentIndex 0 (set_isPlaying true s))).
    { unfold togglePlay. rewrite Hstop. simpl.
      assert (Hl : lastIndex (set_isPlaying true s) = lastIndex s) by done.
      rewrite Hl. destruct (Z.leb_spec (lastIndex s) (currentIndex s)); [done|lia]. }
    split; [exact Htoggle|]. split.
    + intros Hs. rewrite Htoggle. unfold loop. simpl.
      rewrite (renderFrame_in_range _ 0) by (unfold lastIndex in *; simpl; lia).
      simpl. case_match; simpl; eauto.
    + intros Hs. rewrite Htoggle. unfold loop. simpl.
      rewrite (renderFrame_in_range _ 0) by (unfold lastIndex in *; simpl; lia).
      simpl.
      assert (Hl : lastIndex (set_rendered (rendered s ++ [(0, activeMetric s)])
                     (set_currentIndex 0 (set_isPlaying true s))) = lastIndex s) by done.
      rewrite Hl. destruct (Z.leb_spec (lastIndex s) 0); [lia|]. done.
  - assert (Hloop : forall u, isPlaying u = true -> currentIndex u = lastIndex u ->
                0 <= lastIndex u ->
                loop u = set_isPlaying false
                           (set_rendered (rendered u ++ [(currentIndex u, activeMetric u)]) u)).
    { intros u Hu1 Hu2 Hu3. unfold loop. rewrite Hu1. simpl.
      rewrite renderFrame_in_range by lia. simpl.
      assert (Hl : lastIndex (set_rendered (rendered u ++ [(currentIndex u, activeMetric u)]) u)
                   = lastIndex u) by done.
      rewrite Hl. destruct (Z.leb_spec (lastIndex u) (currentIndex u)); [done|lia]. }
    rewrite (Hloop t) by done. simpl.
    repeat (split; [done|]).
    intros id delay Hfind. unfold fireTimer. rewrite Hfind.
    rewrite Hloop by done. done.
Qed.

Lemma play_restarts_and_last_tick_stops_witness :
  currentIndex (togglePlay sampleState) = 1 /\
  isPlaying (loop (set_isPlaying true sampleState)) = false /\
  currentIndex (loop (set_isPlaying true sampleState)) = 2.
Proof.
  destruct (@play_restarts_and_last_tick_stops sampleBuiltins
              sampleState (set_isPlaying true sampleState))
    as [(_ & _ & Hplay) (_ & Hstop & Hidx & _)];
    [reflexivity | by vm_compute | reflexivity | reflexivity | by vm_compute |].
  destruct Hplay as (_ & Hone & _); [reflexivity|].
  split; [exact Hone|]. split; [exact Hstop|]. exact Hidx.
Defined.

(** C6. The slider handler does not cancel the pending tick: the timer
    table is the same after a seek.  On the sample timeline, a seek during
    playback followed by play leaves two ticks pending; the first one,
    scheduled before the seek, then draws frame 1 and schedules a further
    tick. *)
Theorem seek_leaves_tick_pending :
  (forall (s : State) (value : Z),
     pendingTimers (sliderInput value s) = pendingTimers s /\
     timer (sliderInput value s) = timer s) /\
  let playing := @run sampleBuiltins [ETogglePlay] sampleState in
  let sought := @step sampleBuiltins playing (ESlider 0) in
  let resumed := @step sampleBuiltins sought ETogglePlay in
  let stale := @step sampleBuiltins resumed (ETimer 1) in
  isPlaying playing = true /\
  pendingTimers playing = [(1%nat, (CbLoop, 100))] /\
  isPlaying sought = false /\
  pendingTimers sought = [(1%nat, (CbLoop, 100))] /\
  pendingTimers resumed = [(1%nat, (CbLoop, 100)); (2%nat, (CbLoop, 100))] /\
  rendered stale = rendered resumed ++ [(1, Stake)] /\
  pendingTimers stale = [(2%nat, (CbLoop, 100)); (3%nat, (CbLoop, 100))].
Proof.
  split.
  - intros s value. unfold sliderInput. simpl.
    destruct (renderFrame_state value (set_currentIndex value (set_isPlaying false s)))
      as [-> | ->]; done.
  - vm_compute. repeat split.
Qed.

(** The pause branch of [togglePlay] and [stop] do cancel the tick kept
    in [state.timer]. *)
Lemma pause_and_stop_cancel (s : State) (id : nat) :
  timer s = Some id ->
  (isPlaying s = true ->
     Forall (fun t => fst t <> id) (pendingTimers (togglePlay s))) /\
  Forall (fun t => fst t <> id) (pendingTimers (stop s)).
Proof.
  intros Ht.
  assert (Hf : Forall (fun t : nat * (Callback * Z) => fst t <> id)
                 (List.filter (fun t => negb (Nat.eqb (fst t) id)) (pendingTimers s))).
  { apply Forall_forall. intros t Hin. apply list_elem_of_In, filter_In in Hin.
    destruct Hin as [_ Hneq]. apply negb_true_iff, Nat.eqb_neq in Hneq. done. }
  split.
  - intros Hp. unfold togglePlay. rewrite Hp. simpl. rewrite Ht. exact Hf.
  - unfold stop. simpl. rewrite Ht. exact Hf.
Qed.




(** C10. In every reachable state the speed is 100 or 30; the toggle
    exchanges the two, is its own inverse, and touches no other field. *)
Theorem toggleSpeed_involution `{Builtins} (s : State) :
  reachable s ->
  (playbackSpeed s = 100 \/ playbackSpeed s = 30) /\
  (playbackSpeed s = 100 -> playbackSpeed (toggleSpeed s) = 30) /\
  (playbackSpeed s = 30 -> playbackSpeed (toggleSpeed s) = 100) /\
  toggleSpeed (toggleSpeed s) = s /\
  toggleSpeed s = set_playbackSpeed (playbackSpeed (toggleSpeed s)) s /\
  currentIndex (toggleSpeed s) = currentIndex s /\
  isPlaying (toggleSpeed s) = isPlaying s /\
  activeMetric (toggleSpeed s) = activeMetric s.
Proof.
  intros Hreach. pose proof (reachable_speed s Hreach) as Hspeed.
  split; [exact Hspeed|].
  split. { intros E. unfold toggleSpeed. simpl. by rewrite E. }
  split. { intros E. unfold toggleSpeed. simpl. by rewrite E. }
  split; [|done].
  destruct s. unfold toggleSpeed, set_playbackSpeed in *. simpl in *.
  destruct Hspeed as [-> | ->]; reflexivity.
Qed.

Lemma toggleSpeed_involution_witness :
  playbackSpeed (toggleSpeed (toggleSpeed sampleState)) = 100 /\
  toggleSpeed (toggleSpeed (toggleSpeed sampleState)) = toggleSpeed sampleState.
Proof.
  assert (Hreach : @reachable sampleBuiltins (toggleSpeed sampleState)).
  { exists [EInit (Ok sampleIds) (map_to_list sampleMeta) (Ok sampleBuckets);
            EToggleSpeed]. reflexivity. }
  destruct (@toggleSpeed_involution sampleBuiltins (toggleSpeed sampleState) Hreach)
    as (_ & _ & H30 & Hinv & _).
  split; [apply H30; reflexivity | exact Hinv].
Defined.

(** ** Lists *)

Lemma List_filter_sublist {A} (p : A -> bool) (l : list A) :
  List.filter p l `sublist_of` l.
Proof.
  induction l as [|x l IH]; simpl; [constructor|].
  destruct (p x); by constructor.
Qed.

Lemma sublist_elem_of {A} (l k : list A) (x : A) :
  l `sublist_of` k -> x ∈ l -> x ∈ k.
Proof.
  induction 1 as [|y l1 l2 _ IH|y l1 l2 _ IH]; intros Hx; [done|..].
  - apply elem_of_cons in Hx as [->|Hx]; [left|right; auto].
  - right; auto.
Qed.

Lemma StronglySorted_sublist {A} (R : relation A) (l k : list A) :
  l `sublist_of` k -> StronglySorted R k -> StronglySorted R l.
Proof.
  induction 1 as [|y l1 l2 Hsub IH|y l1 l2 Hsub IH]; intros Hk; [done|..].
  - apply StronglySorted_inv in Hk as [Hk Hy].
    constructor; [auto|].
    apply Forall_forall. intros x Hx.
    apply (proj1 (Forall_forall _ _) Hy).
    by apply (sublist_elem_of l1 l2).
  - apply StronglySorted_inv in Hk as [Hk _]. auto.
Qed.

Lemma Forall_sublist {A} (P : A -> Prop) (l k : list A) :
  l `sublist_of` k -> Forall P k -> Forall P l.
Proof.
  intros Hsub Hk. apply Forall_forall. intros x Hx.
  apply (proj1 (Forall_forall _ _) Hk). by apply (sublist_elem_of l k).
Qed.

(** ** The pagination loop *)

Section pagination.
Variable remote : nat -> Z -> Response.
Variable now : Z.

Hypothesis remote_contract :
  forall n since page, remote n since = Data page -> pageContract since page.
Hypothesis remote_bounded :
  forall n since page, remote n since = Data page ->
    Forall (fun b => Bucket.date b <= now) page.

(** Each full page moves the cursor forward by at least one second and
    no cursor passes [now]: fuel beyond [now - lastDate] suffices. *)
Lemma fetchLoop_terminates (fuel : nat) :
  forall n allBuckets lastDate,
    (Z.to_nat (now - lastDate) < fuel)%nat ->
    exists r, fetchLoop remote fuel n allBuckets lastDate = Some r /\
      match r with
      | Ok all => exists pages,
          Paginates remote n lastDate pages /\ all = allBuckets ++ concat pages
      | Throw e => e = HistoryError
      end.
Proof.
  induction fuel as [|fuel IH]; intros n allBuckets lastDate Hfuel; [lia|].
  cbn [fetchLoop].
  destruct (remote n lastDate) as [|page] eqn:Hpage.
  { exists (Throw HistoryError). done. }
  destruct (last page) as [b|] eqn:Hlast.
  - assert (Hb : b ∈ page) by by apply last_Some_elem_of.
    assert (Hlen : (0 < length page)%nat).
    { destruct page; [done|simpl; lia]. }
    case_decide as Hshort.
    + exists (Ok (allBuckets ++ page)). split; [done|].
      exists [page]. split.
      * by apply Paginates_short.
      * simpl. by rewrite app_nil_r.
    + destruct (remote_contract _ _ _ Hpage) as [_ Hafter].
      pose proof (remote_bounded _ _ _ Hpage) as Hbound.
      pose proof (proj1 (Forall_forall _ _) Hafter b Hb) as Hgt.
      pose proof (proj1 (Forall_forall _ _) Hbound b Hb) as Hle.
      simpl in Hgt, Hle.
      destruct (IH (S n) (allBuckets ++ page) (Bucket.date b)) as (r & Hr & Hspec);
        [lia|].
      exists r. split; [done|].
      destruct r as [all|e]; [|done].
      destruct Hspec as (pages & Hpages & ->).
      exists (page :: pages). split.
      * eapply Paginates_full; eauto. lia.
      * simpl. by rewrite app_assoc.
  - apply last_None in Hlast. subst page.
    exists (Ok allBuckets). split; [done|].
    exists [[]]. split.
    + by apply Paginates_empty.
    + simpl. by rewrite app_nil_r.
Qed.

Lemma fetchLoop_no_errors (fuel : nat) :
  (forall n since, remote n since <> Errors) ->
  forall n allBuckets lastDate,
    fetchLoop remote fuel n allBuckets lastDate <> Some (Throw HistoryError).
Proof.
  intros Hne. induction fuel as [|fuel IH]; intros n allBuckets lastDate; [done|].
  cbn [fetchLoop].
  destruct (remote n lastDate) as [|page] eqn:Hpage; [by destruct (Hne n lastDate)|].
  destruct (last page); [|done].
  case_decide; [done|apply IH].
Qed.
End pagination.

(** More fuel does not change the outcome of a loop that has ended. *)
Lemma fetchLoop_more_fuel (remote : nat -> Z -> Response) (fuel : nat) :
  forall fuel' n allBuckets lastDate r,
    (fuel <= fuel')%nat ->
    fetchLoop remote fuel n allBuckets lastDate = Some r ->
    fetchLoop remote fuel' n allBuckets lastDate = Some r.
Proof.
  induction fuel as [|fuel IH]; intros fuel' n allBuckets lastDate r Hle Hr; [done|].
  destruct fuel' as [|fuel']; [lia|].
  cbn [fetchLoop] in *.
  destruct (remote n lastDate); [done|].
  destruct (last buckets); [|done].
  case_decide; [done|]. apply IH; [lia|done].
Qed.

(** *** The endless remote *)

Lemma Sorted_dates_replicate (k : nat) (b : Bucket.t) :
  Sorted Z.le (Bucket.date <$> replicate k b).
Proof.
  induction k as [|k IHk]; [constructor|].
  change (replicate (S k) b) with (b :: replicate k b).
  rewrite fmap_cons. constructor; [exact IHk|].
  destruct k; [constructor|].
  change (replicate (S k) b) with (b :: replicate k b).
  rewrite fmap_cons. constructor. lia.
Qed.

Lemma endless_contract (n : nat) (since : Z) (page : list Bucket.t) :
  endless n since = Data page -> pageContract since page.
Proof.
  intros Heq.
  assert (E : page = replicate PAGE_SIZE (Bucket.mk (since + 1) "1" "1" "0xa1"))
    by (unfold endless in Heq; congruence).
  rewrite E. clear. split.
  - apply Sorted_dates_replicate.
  - apply Forall_replicate. simpl. lia.
Qed.

Lemma last_replicate_S {A} (k : nat) (x : A) : last (replicate (S k) x) = Some x.
Proof.
  induction k as [|k IH]; [done|].
  change (replicate (S (S k)) x) with (x :: replicate (S k) x).
  change (replicate (S k) x) with (x :: replicate k x) in *.
  by rewrite last_cons_cons.
Qed.

Lemma fetchLoop_endless (fuel : nat) :
  forall n allBuckets lastDate,
    fetchLoop endless fuel n allBuckets lastDate = None.
Proof.
  induction fuel as [|fuel IH]; intros n allBuckets lastDate; [done|].
  cbn [fetchLoop]. unfold endless at 1.
  assert (Hp : PAGE_SIZE = S (pred PAGE_SIZE)) by reflexivity.
  rewrite Hp at 1. rewrite last_replicate_S.
  rewrite length_replicate.
  case_decide as Hlt; [lia|]. apply IH.
Qed.

(** C8 as stated fails: the endless remote honours the page contract, yet
    the loop does not end, whatever the fuel. *)
Lemma pagination_needs_finite_data :
  (forall n since page, endless n since = Data page -> pageContract since page) /\
  (forall fuel, fetchHistory endless fuel = None) /\
  ~ (exists fuel r, fetchHistory endless fuel = Some r).
Proof.
  split; [exact endless_contract|].
  split; [intros fuel; apply fetchLoop_endless|].
  intros (fuel & r & Hr). unfold fetchHistory in Hr.
  by rewrite fetchLoop_endless in Hr.
Qed.

(** C8, amended. If every page is in ascending order of date with all
    dates after the cursor sent, and no date exceeds [now], the loop ends:
    with enough fuel it returns, never running out.  It throws only
    "History error", and only if the remote answers with errors;
    otherwise it returns the concatenation, in order, of the pages read,
    where each full page moved the cursor to the date of its last row and
    the page read last, and only that one, has fewer than 1000 rows. *)
Theorem fetchHistory_terminates (remote : nat -> Z -> Response) (now : Z) :
  (forall n since page, remote n since = Data page -> pageContract since page) ->
  (forall n since page, remote n since = Data page ->
     Forall (fun b => Bucket.date b <= now) page) ->
  exists fuel r,
    (forall fuel', (fuel <= fuel')%nat -> fetchHistory remote fuel' = Some r) /\
    match r with
    | Ok all => exists pages,
        Paginates remote 0 START_DATE pages /\ all = concat pages
    | Throw e => e = HistoryError
    end /\
    ((forall n since, remote n since <> Errors) -> exists all, r = Ok all).
Proof.
  intros Hcontract Hbound.
  set (fuel := S (Z.to_nat (now - START_DATE))).
  destruct (fetchLoop_terminates remote now Hcontract Hbound fuel 0%nat []
              START_DATE ltac:(lia)) as (r & Hr & Hspec).
  exists fuel, r. split; [|split].
  - intros fuel' Hle. by apply (fetchLoop_more_fuel remote fuel).
  - destruct r; [|done]. destruct Hspec as (pages & Hp & ->). by exists pages.
  - intros Hne. destruct r as [all|e]; [by exists all|].
    subst e. by destruct (fetchLoop_no_errors remote fuel Hne 0%nat [] START_DATE).
Qed.

(** *** A remote serving a finite, ordered data set *)

Lemma serve_contract (dataset : list Bucket.t) (n : nat) (since : Z)
    (page : list Bucket.t) :
  StronglySorted Z.le (Bucket.date <$> dataset) ->
  serve dataset n since = Data page -> pageContract since page.
Proof.
  intros Hsorted Heq.
  assert (E : page = take PAGE_SIZE
                (List.filter (fun b => since <? Bucket.date b) dataset))
    by (unfold serve in Heq; congruence).
  rewrite E. clear E Heq. split.
  - apply StronglySorted_Sorted.
    eapply StronglySorted_sublist; [|exact Hsorted].
    apply fmap_sublist. etrans; [apply sublist_take|apply List_filter_sublist].
  - apply Forall_take, Forall_forall. intros b Hb.
    apply list_elem_of_In, filter_In in Hb as [_ Hb]. lia.
Qed.

Lemma serve_bounded (dataset : list Bucket.t) (now : Z) (n : nat) (since : Z)
    (page : list Bucket.t) :
  Forall (fun b => Bucket.date b <= now) dataset ->
  serve dataset n since = Data page ->
  Forall (fun b => Bucket.date b <= now) page.
Proof.
  intros Hbound Heq.
  assert (E : page = take PAGE_SIZE
                (List.filter (fun b => since <? Bucket.date b) dataset))
    by (unfold serve in Heq; congruence).
  rewrite E. eapply Forall_sublist; [|exact Hbound].
  etrans; [apply sublist_take|apply List_filter_sublist].
Qed.

Lemma sampleDataset_sorted :
  StronglySorted Z.le (Bucket.date <$> sampleDataset).
Proof. apply (bool_decide_unpack _). vm_compute. exact I. Defined.

Lemma sampleDataset_bounded :
  Forall (fun b => Bucket.date b <= START_DATE + 4) sampleDataset.
Proof. apply (bool_decide_unpack _). vm_compute. exact I. Defined.

Lemma fetchHistory_terminates_witness :
  exists fuel r,
    (forall fuel', (fuel <= fuel')%nat ->
       fetchHistory (serve sampleDataset) fuel' = Some r) /\
    match r with
    | Ok all => exists pages,
        Paginates (serve sampleDataset) 0 START_DATE pages /\ all = concat pages
    | Throw e => e = HistoryError
    end /\
    ((forall n since, serve sampleDataset n since <> Errors) ->
     exists all, r = Ok all).
Proof.
  apply (fetchHistory_terminates (serve sampleDataset) (START_DATE + 4)).
  - intros n since page. apply serve_contract, sampleDataset_sorted.
  - intros n since page. apply serve_bounded, sampleDataset_bounded.
Defined.

(** ** [Array.prototype.sort] *)

Lemma num_pos_sub (a b : num) : num_pos (num_sub b a) = num_lt a b.
Proof.
  destruct a as [| |x|], b as [| |y|]; try reflexivity.
  unfold num_pos, num_sub, num_lt. f_equal.
  destruct (Qle_bool (y - x) 0) eqn:E1, (Qle_bool y x) eqn:E2; try reflexivity.
  - apply Qle_bool_iff in E1.
    assert (Hle : (y <= x)%Q).
    { apply (Qplus_le_l _ _ (- x)). rewrite Qplus_opp_r. exact E1. }
    apply Qle_bool_iff in Hle. congruence.
  - apply Qle_bool_iff in E2.
    assert (Hle : (y - x <= 0)%Q).
    { rewrite <- (Qplus_opp_r x). by apply Qplus_le_l. }
    apply Qle_bool_iff in Hle. congruence.
Qed.

Lemma num_lt_le (a b : num) : num_lt a b = true -> num_le a b.
Proof.
  destruct a as [| |x|], b as [| |y|]; simpl; try done.
  intros E. apply Qlt_le_weak. by apply (num_lt_Fin x y).
Qed.

Lemma num_not_lt_le (a b : num) :
  a <> NaN -> b <> NaN -> num_lt a b = false -> num_le b a.
Proof.
  destruct a as [| |x|], b as [| |y|]; simpl; try done.
  intros _ _ E. by apply (num_lt_Fin_false x y).
Qed.

Section js_sort_facts.
Context {A : Type} (compareFn : A -> A -> num).

Lemma sort_insert_Permutation (x : A) (l : list A) :
  sort_insert compareFn x l ≡ₚ x :: l.
Proof.
  induction l as [|y l IH]; simpl; [done|].
  destruct (comes_after compareFn x y); [|done].
  rewrite IH. apply Permutation_swap.
Qed.

Lemma js_sort_Permutation (l : list A) : js_sort compareFn l ≡ₚ l.
Proof.
  induction l as [|x l IH]; simpl; [done|].
  by rewrite sort_insert_Permutation, IH.
Qed.

Lemma js_sort_length (l : list A) : length (js_sort compareFn l) = length l.
Proof. by rewrite js_sort_Permutation. Qed.

Lemma js_sort_elem_of (l : list A) (x : A) : x ∈ js_sort compareFn l <-> x ∈ l.
Proof. by rewrite js_sort_Permutation. Qed.

(** The result is sorted for any transitive relation that the
    comparator decides on the elements [ok] of the array. *)
Section sorted.
Context (R : relation A) (ok : A -> Prop).
Hypothesis R_trans : forall x y z, R x y -> R y z -> R x z.
Hypothesis after_R : forall x y, comes_after compareFn x y = true -> R y x.
Hypothesis not_after_R :
  forall x y, ok x -> ok y -> comes_after compareFn x y = false -> R x y.

Lemma sort_insert_sorted (x : A) (l : list A) :
  ok x -> Forall ok l -> StronglySorted R l ->
  StronglySorted R (sort_insert compareFn x l).
Proof.
  intros Hx Hl Hs. induction Hs as [|y l Hs IH Hy]; simpl.
  - repeat constructor.
  - apply Forall_cons in Hl as [Hoky Hl].
    destruct (comes_after compareFn x y) eqn:E.
    + constructor; [by apply IH|].
      apply Forall_forall. intros z Hz.
      rewrite (sort_insert_Permutation x l) in Hz.
      apply elem_of_cons in Hz as [->|Hz]; [by apply after_R|].
      by apply (proj1 (Forall_forall _ _) Hy).
    + constructor; [by constructor|].
      constructor; [by apply not_after_R|].
      apply Forall_forall. intros z Hz.
      apply (R_trans x y z); [by apply not_after_R|].
      by apply (proj1 (Forall_forall _ _) Hy).
Qed.

Lemma js_sort_sorted (l : list A) :
  Forall ok l -> StronglySorted R (js_sort compareFn l).
Proof.
  induction 1 as [|x l Hx Hl IH]; [apply SSorted_nil|].
  change (js_sort compareFn (x :: l))
    with (sort_insert compareFn x (js_sort compareFn l)).
  apply sort_insert_sorted; [exact Hx| |exact IH].
  apply Forall_forall. intros y Hy.
  apply (proj1 (js_sort_elem_of l y)) in Hy.
  by apply (proj1 (Forall_forall _ _) Hl).
Qed.
End sorted.

(** Stability: elements that the comparator never orders among
    themselves keep their relative order. *)
Section stable.
Context (P : A -> bool).
Hypothesis P_ties :
  forall x y, P x = true -> P y = true -> comes_after compareFn x y = false.

Lemma sort_insert_stable (x : A) (l : list A) :
  List.filter P (sort_insert compareFn x l) = List.filter P (x :: l).
Proof.
  induction l as [|y l IH]; [done|].
  cbn [sort_insert].
  destruct (comes_after compareFn x y) eqn:E; [|done].
  cbn [List.filter] in *. rewrite IH.
  destruct (P x) eqn:Ex, (P y) eqn:Ey; try done.
  rewrite P_ties in E; done.
Qed.

Lemma js_sort_stable (l : list A) :
  List.filter P (js_sort compareFn l) = List.filter P l.
Proof.
  induction l as [|x l IH]; [done|].
  cbn [js_sort foldr]. rewrite sort_insert_stable.
  cbn [List.filter]. fold (js_sort compareFn l). by rewrite IH.
Qed.
End stable.
End js_sort_facts.

Lemma StronglySorted_le_lt (l : list Z) :
  NoDup l -> StronglySorted Z.le l -> StronglySorted Z.lt l.
Proof.
  intros Hnd Hs. induction Hs as [|x l Hs IH Hx]; [constructor|].
  apply NoDup_cons in Hnd as [Hnotin Hnd].
  constructor; [auto|].
  apply Forall_forall. intros y Hy.
  pose proof (proj1 (Forall_forall _ _) Hx y Hy).
  assert (x <> y) by (intros ->; done). lia.
Qed.

(** [sortDates] returns the dates in increasing order. *)
Lemma sortDates_sorted (uniqueDates : list Z) :
  StronglySorted Z.le (sortDates uniqueDates).
Proof.
  unfold sortDates.
  apply (js_sort_sorted _ Z.le (fun _ => True)).
  - intros x y z. lia.
  - intros x y. unfold comes_after. rewrite num_pos_sub.
    intros E. apply num_lt_Fin in E. rewrite <- Zlt_Qlt in E. lia.
  - intros x y _ _. unfold comes_after. rewrite num_pos_sub.
    intros E. apply num_lt_Fin_false in E. by rewrite <- Zle_Qle in E.
  - by apply Forall_forall.
Qed.

Lemma sortDates_Permutation (uniqueDates : list Z) :
  sortDates uniqueDates ≡ₚ uniqueDates.
Proof. apply js_sort_Permutation. Qed.

(** ** Grouping the rows by date *)

Lemma obj_get_set (k k' : string) (v : Values.t) (o : DayData) :
  obj_get k (obj_set k' v o) = if decide (k = k') then Some v else obj_get k o.
Proof.
  induction o as [|[k0 v0] o IH]; simpl.
  - repeat case_decide; done.
  - destruct (decide (k' = k0)) as [->|Hne]; simpl.
    + repeat case_decide; done.
    + rewrite IH. repeat case_decide; simplify_eq; done.
Qed.

Lemma obj_set_keys (k : string) (v : Values.t) (o : DayData) :
  forall k0, k0 ∈ (obj_set k v o).*1 <-> k0 = k \/ k0 ∈ o.*1.
Proof.
  induction o as [|[k1 v1] o IH]; intros k0; simpl.
  - rewrite list_elem_of_singleton, elem_of_nil. tauto.
  - case_decide; simplify_eq/=.
    + rewrite !elem_of_cons. tauto.
    + rewrite !elem_of_cons, IH. tauto.
Qed.

Lemma obj_set_NoDup (k : string) (v : Values.t) (o : DayData) :
  NoDup o.*1 -> NoDup (obj_set k v o).*1.
Proof.
  induction o as [|[k1 v1] o IH]; simpl; intros Hnd.
  - apply NoDup_singleton.
  - apply NoDup_cons in Hnd as [Hk1 Hnd].
    case_decide; simplify_eq/=.
    + by apply NoDup_cons.
    + apply NoDup_cons. split; [|auto].
      rewrite obj_set_keys. intros [?|?]; done.
Qed.

Lemma obj_get_None (k : string) (o : DayData) :
  obj_get k o = None <-> k ∉ o.*1.
Proof.
  induction o as [|[k1 v1] o IH]; simpl.
  - split; [intros _; apply not_elem_of_nil|done].
  - rewrite not_elem_of_cons. case_decide; simplify_eq/=.
    + split; [done|]. intros [? _]. done.
    + rewrite IH. tauto.
Qed.

Lemma set_add_elem_of (d d' : Z) (s : list Z) :
  d' ∈ set_add d s <-> d' = d \/ d' ∈ s.
Proof.
  unfold set_add. case_decide as Hin.
  - split; [auto|]. intros [->|?]; done.
  - rewrite elem_of_app, list_elem_of_singleton. tauto.
Qed.

Lemma set_add_NoDup (d : Z) (s : list Z) : NoDup s -> NoDup (set_add d s).
Proof.
  intros Hnd. unfold set_add. case_decide as Hin; [done|].
  apply NoDup_app. split; [done|]. split; [|apply NoDup_singleton].
  intros x Hx Hx'. apply list_elem_of_singleton in Hx'. by subst.
Qed.

Lemma groupBuckets_snoc (buckets : list Bucket.t) (b : Bucket.t) :
  groupBuckets (buckets ++ [b]) = addBucket (groupBuckets buckets) b.
Proof. unfold groupBuckets. by rewrite fold_left_app. Qed.

Lemma List_filter_snoc {A} (p : A -> bool) (l : list A) (x : A) :
  List.filter p (l ++ [x]) = List.filter p l ++ (if p x then [x] else []).
Proof. by rewrite List.filter_app. Qed.

(** The set of dates holds each date of the rows once. *)
Lemma groupBuckets_dates (buckets : list Bucket.t) :
  NoDup (groupBuckets buckets).2 /\
  forall d, d ∈ (groupBuckets buckets).2 <->
            exists b, b ∈ buckets /\ Bucket.date b = d.
Proof.
  induction buckets as [|b buckets [IHnd IH]] using rev_ind.
  - split; [constructor|]. intros d. split; [by intros ?%elem_of_nil|].
    by intros (b & ?%elem_of_nil & _).
  - rewrite groupBuckets_snoc.
    destruct (groupBuckets buckets) as [bucketsByDate uniqueDates].
    simpl in *. split; [by apply set_add_NoDup|].
    intros d. rewrite set_add_elem_of, IH. split.
    + intros [->|(b' & Hb' & <-)].
      * exists b. split; [|done]. apply elem_of_app. right. by left.
      * exists b'. split; [|done]. apply elem_of_app. by left.
    + intros (b' & Hb' & <-). apply elem_of_app in Hb' as [Hb'|Hb'].
      * right. by exists b'.
      * apply list_elem_of_singleton in Hb'. subst. by left.
Qed.

(** The object of a day maps each entity to its last row of that day. *)
Lemma groupBuckets_lookup (buckets : list Bucket.t) (d : Z) (k : string) :
  obj_get k (default [] ((groupBuckets buckets).1 !! d))
  = valuesOf <$> last (List.filter (onDay d k) buckets).
Proof.
  induction buckets as [|b buckets IH] using rev_ind; [done|].
  rewrite groupBuckets_snoc, List_filter_snoc.
  destruct (groupBuckets buckets) as [bucketsByDate uniqueDates].
  simpl in *. unfold onDay at 2.
  destruct (Z.eqb_spec (Bucket.date b) d) as [<-|Hd].
  - rewrite lookup_insert_eq. simpl. rewrite obj_get_set.
    case_decide as Hk.
    + subst k. rewrite bool_decide_eq_true_2 by done. simpl.
      by rewrite last_snoc.
    + rewrite bool_decide_eq_false_2 by done. simpl.
      rewrite app_nil_r. rewrite <- IH.
      by destruct (bucketsByDate !! Bucket.date b).
  - rewrite lookup_insert_ne by done. simpl. by rewrite app_nil_r.
Qed.

Lemma groupBuckets_NoDup (buckets : list Bucket.t) (d : Z) (o : DayData) :
  (groupBuckets buckets).1 !! d = Some o -> NoDup o.*1.
Proof.
  revert d o. induction buckets as [|b buckets IH] using rev_ind; intros d o.
  - unfold groupBuckets. simpl. by rewrite lookup_empty.
  - rewrite groupBuckets_snoc.
    destruct (groupBuckets buckets) as [bucketsByDate uniqueDates].
    simpl in *. destruct (decide (Bucket.date b = d)) as [<-|Hd].
    + rewrite lookup_insert_eq. intros [= <-]. apply obj_set_NoDup.
      destruct (bucketsByDate !! Bucket.date b) eqn:E; [|constructor].
      by apply (IH _ _ E).
    + rewrite lookup_insert_ne by done. apply IH.
Qed.

(** ** Merging a day into the last known values *)

Lemma bind_Ok {A B} (r : result A) (k : A -> result B) (b : B) :
  r ≫= k = Ok b <-> exists a, r = Ok a /\ k a = Ok b.
Proof.
  destruct r as [a|e]; simpl.
  - split; [by exists a|]. by intros (a' & [= <-] & Hk).
  - split; [done|]. by intros (a' & ? & _).
Qed.

Lemma Values_eta (r : Values.t) :
  Values.mk (Values.stake r) (Values.earnings r) = r.
Proof. by destruct r. Qed.

Lemma mergeOperator_lookup (lkv lkv' : gmap string Values.t) (k : string)
    (v : Values.t) :
  mergeOperator lkv (k, v) = Ok lkv' ->
  forall id, lkv' !! id
             = if decide (id = k) then mergeValues v <$> lkv !! k else lkv !! id.
Proof.
  unfold mergeOperator, mergeValues, setStake, setEarnings.
  intros Hm id.
  apply bind_Ok in Hm as (lkv1 & H1 & H2).
  destruct (truthy (Values.stake v)), (truthy (Values.earnings v));
    destruct (lkv !! k) as [r|] eqn:Hr; simplify_eq/=;
    try rewrite lookup_insert_eq in H2; try rewrite Hr in H2; simplify_eq/=;
    destruct (decide (id = k)) as [->|Hne];
    rewrite ?lookup_insert_eq, ?lookup_insert_ne, ?Hr, ?Values_eta by done;
    done.
Qed.

Lemma forEachM_mergeOperator (o : DayData) :
  NoDup o.*1 ->
  forall lkv lkv' : gmap string Values.t,
    forEachM mergeOperator o lkv = Ok lkv' ->
    forall id, lkv' !! id
               = match obj_get id o with
                 | Some v => mergeValues v <$> lkv !! id
                 | None => lkv !! id
                 end.
Proof.
  induction o as [|[k v] o IH]; intros Hnd lkv lkv' Hm id.
  - simpl in Hm. by simplify_eq.
  - cbn [forEachM] in Hm. apply bind_Ok in Hm as (lkv1 & H1 & H2).
    apply NoDup_cons in Hnd as [Hk Hnd].
    rewrite (IH Hnd _ _ H2 id).
    rewrite (mergeOperator_lookup _ _ _ _ H1 id).
    cbn [obj_get]. destruct (decide (id = k)) as [->|Hne].
    + by rewrite (proj2 (obj_get_None k o) Hk).
    + done.
Qed.

Lemma mergeDay_lookup (lkv lkv' : gmap string Values.t)
    (daysData : option DayData) :
  (forall o, daysData = Some o -> NoDup o.*1) ->
  mergeDay lkv daysData = Ok lkv' ->
  forall id, lkv' !! id
             = match obj_get id (default [] daysData) with
               | Some v => mergeValues v <$> lkv !! id
               | None => lkv !! id
               end.
Proof.
  intros Hnd Hm id. destruct daysData as [o|]; simpl in *.
  - by apply (forEachM_mergeOperator o (Hnd o eq_refl) lkv).
  - by simplify_eq.
Qed.

(** ** The most recent observation *)

Lemma fold_moreRecent_snoc (L : list Bucket.t) (b : Bucket.t) :
  fold_left moreRecent (L ++ [b]) None
  = moreRecent (fold_left moreRecent L None) b.
Proof. by rewrite fold_left_app. Qed.

Lemma fold_moreRecent_elem_of (L : list Bucket.t) (b : Bucket.t) :
  fold_left moreRecent L None = Some b -> b ∈ L.
Proof.
  revert b. induction L as [|x L IH] using rev_ind; intros b; [done|].
  rewrite fold_moreRecent_snoc, elem_of_app, list_elem_of_singleton.
  destruct (fold_left moreRecent L None) as [b0|]; simpl.
  - case_match; intros [= <-]; auto.
  - intros [= <-]; auto.
Qed.

Lemma fold_moreRecent_last (d : Z) (L : list Bucket.t) (b0 : Bucket.t) :
  Forall (fun b => Bucket.date b <= d) L ->
  last (List.filter (fun b => Bucket.date b =? d) L) = Some b0 ->
  fold_left moreRecent L None = Some b0.
Proof.
  revert b0. induction L as [|x L IH] using rev_ind; intros b0 Hle; [done|].
  apply Forall_app in Hle as [Hle Hx]. apply Forall_inv in Hx. simpl in Hx.
  rewrite List_filter_snoc, fold_moreRecent_snoc.
  destruct (Z.eqb_spec (Bucket.date x) d) as [Hd|Hd].
  - rewrite last_snoc. intros [= <-].
    destruct (fold_left moreRecent L None) as [b1|] eqn:E; [|done].
    simpl. apply fold_moreRecent_elem_of in E.
    pose proof (proj1 (Forall_forall _ _) Hle b1 E) as Hb1. simpl in Hb1.
    destruct (Z.leb_spec (Bucket.date b1) (Bucket.date x)); [done|exfalso; lia].
  - rewrite app_nil_r. intros Hlast. rewrite (IH b0 Hle Hlast). simpl.
    assert (Hb0 : Bucket.date b0 = d).
    { apply last_Some_elem_of, list_elem_of_In, filter_In in Hlast as [_ E].
      lia. }
    destruct (Z.leb_spec (Bucket.date b0) (Bucket.date x)); [exfalso; lia|done].
Qed.

Lemma List_filter_filter {A} (p q : A -> bool) (l : list A) :
  List.filter p (List.filter q l) = List.filter (fun x => q x && p x) l.
Proof.
  induction l as [|x l IH]; [done|]. simpl.
  destruct (q x); simpl; [|done]. destruct (p x); by rewrite IH.
Qed.

(** On a day with a row of the entity, the most recent observation is
    the last such row. *)
Lemma mostRecentObservation_on_day (buckets : list Bucket.t) (e : string)
    (d : Z) (b0 : Bucket.t) :
  last (List.filter (onDay d e) buckets) = Some b0 ->
  mostRecentObservation buckets e d = Some b0.
Proof.
  intros Hlast. unfold mostRecentObservation.
  apply (fold_moreRecent_last d).
  - apply Forall_forall. intros b Hb.
    apply list_elem_of_In, filter_In in Hb as [_ Hb].
    unfold observedBy in Hb. apply andb_true_iff in Hb as [_ Hb]. lia.
  - rewrite List_filter_filter. rewrite <- Hlast. f_equal.
    apply List.filter_ext. intros b. unfold observedBy, onDay.
    destruct (bool_decide (Bucket.operator b = e)),
      (Z.leb_spec (Bucket.date b) d), (Z.eqb_spec (Bucket.date b) d);
      simpl; try done; lia.
Qed.

(** Between two dates with no row of the entity in between, the most
    recent observation is the same. *)
Lemma mostRecentObservation_ext (buckets : list Bucket.t) (e : string)
    (d d' : Z) :
  (forall b, b ∈ buckets -> observedBy e d b = observedBy e d' b) ->
  mostRecentObservation buckets e d = mostRecentObservation buckets e d'.
Proof.
  intros Hext. unfold mostRecentObservation. f_equal.
  apply List.filter_ext_in. intros b Hb. apply Hext. by apply list_elem_of_In.
Qed.

Lemma mostRecentObservation_elem_of (buckets : list Bucket.t) (e : string)
    (d : Z) (b : Bucket.t) :
  mostRecentObservation buckets e d = Some b ->
  b ∈ buckets /\ Bucket.operator b = e /\ Bucket.date b <= d.
Proof.
  intros Hb. apply fold_moreRecent_elem_of, list_elem_of_In, filter_In in Hb
    as [Hin Hobs].
  unfold observedBy in Hobs. apply andb_true_iff in Hobs as [H1 H2].
  apply bool_decide_eq_true in H1. apply Z.leb_le in H2.
  split; [by apply list_elem_of_In|]. by split.
Qed.

Lemma mostRecentObservation_None (buckets : list Bucket.t) (e : string) (d : Z) :
  mostRecentObservation buckets e d = None <->
  forall b, b ∈ buckets -> Bucket.operator b = e -> d < Bucket.date b.
Proof.
  unfold mostRecentObservation. split.
  - intros Hnone b Hb He.
    destruct (Z.lt_ge_cases d (Bucket.date b)) as [|Hle]; [done|].
    assert (Hin : b ∈ List.filter (observedBy e d) buckets).
    { apply list_elem_of_In, filter_In. split; [by apply list_elem_of_In|].
      unfold observedBy. rewrite bool_decide_eq_true_2 by done.
      simpl. lia. }
    destruct (List.filter (observedBy e d) buckets) as [|x L] eqn:E using rev_ind;
      [by apply elem_of_nil in Hin|].
    rewrite fold_moreRecent_snoc in Hnone.
    by destruct (fold_left moreRecent L None); simpl in Hnone; [case_match|].
  - intros Hall.
    assert (E : List.filter (observedBy e d) buckets = []); [|by rewrite E].
    apply elem_of_nil_inv. intros b Hb.
    apply list_elem_of_In, filter_In in Hb as [Hin Hobs].
    unfold observedBy in Hobs. apply andb_true_iff in Hobs as [H1 H2].
    apply bool_decide_eq_true in H1.
    pose proof (Hall b (proj2 (list_elem_of_In _ _) Hin) H1). lia.
Qed.

(** ** The frames *)

Lemma mapR_Forall2 {A B} (f : A -> result B) (l : list A) (ys : list B) :
  mapR f l = Ok ys -> Forall2 (fun x y => f x = Ok y) l ys.
Proof.
  revert ys. induction l as [|x l IH]; intros ys Hm.
  - simpl in Hm. simplify_eq. constructor.
  - cbn [mapR] in Hm. apply bind_Ok in Hm as (y & Hy & Hm).
    apply bind_Ok in Hm as (ys' & Hys & Hm). simplify_eq/=.
    constructor; auto.
Qed.

Lemma filterR_Ok {A} (f : A -> result bool) (l v : list A) :
  filterR f l = Ok v ->
  v = List.filter (fun x => match f x with Ok true => true | _ => false end) l /\
  Forall (fun x => exists b, f x = Ok b) l.
Proof.
  revert v. induction l as [|x l IH]; intros v Hv.
  - simpl in Hv. by simplify_eq.
  - cbn [filterR] in Hv. apply bind_Ok in Hv as (b & Hb & Hv).
    apply bind_Ok in Hv as (ys & Hys & Hv). simplify_eq.
    destruct (IH _ Hys) as [-> Hall]. split; [|constructor; eauto].
    cbn [List.filter]. rewrite Hb. by destruct b.
Qed.

Lemma filterR_succeeds {A} (f : A -> result bool) (l : list A) :
  Forall (fun x => exists b, f x = Ok b) l ->
  filterR f l
  = Ok (List.filter (fun x => match f x with Ok true => true | _ => false end) l).
Proof.
  induction 1 as [|x l [b Hb] _ IH]; [done|].
  cbn [filterR List.filter]. rewrite Hb, IH. by destruct b.
Qed.

Lemma filterR_Throw {A} (f : A -> result bool) (l : list A) (e : Error) :
  filterR f l = Throw e -> exists x, x ∈ l /\ f x = Throw e.
Proof.
  induction l as [|x l IH]; [done|]. cbn [filterR].
  destruct (f x) as [b|e'] eqn:Hx.
  - destruct (filterR f l) as [ys|e'']; [done|].
    intros [= <-]. destruct IH as (y & Hy & Hfy); [done|].
    exists y. split; [by right|done].
  - intros [= <-]. exists x. split; [by left|done].
Qed.

Lemma seedValues_lookup (operatorIds : list string) (id : string) (r : Values.t) :
  seedValues operatorIds !! id = Some r -> r = Values.mk "0" "0".
Proof.
  unfold seedValues.
  assert (Hgen : forall lkv : gmap string Values.t,
             (forall r0, lkv !! id = Some r0 -> r0 = Values.mk "0" "0") ->
             fold_left (fun lkv id => <[id := Values.mk "0" "0"]> lkv)
                       operatorIds lkv !! id = Some r ->
             r = Values.mk "0" "0").
  { induction operatorIds as [|k ks IH]; intros lkv Hlkv; simpl.
    - apply Hlkv.
    - apply IH. intros r0. rewrite lookup_insert.
      case_decide; [by intros [= <-]|apply Hlkv]. }
  apply Hgen. intros r0. by rewrite lookup_empty.
Qed.

Lemma List_filter_sublist_mono {A} (p : A -> bool) (l k : list A) :
  l `sublist_of` k -> List.filter p l `sublist_of` List.filter p k.
Proof.
  induction 1 as [|x l1 l2 _ IH|x l1 l2 _ IH]; simpl; [constructor|..].
  - destruct (p x); [by constructor|done].
  - destruct (p x); [by constructor|done].
Qed.

Section frames.
Context `{Builtins}.
Context (operatorMetaMap : gmap string Meta.t) (filterDeprecated : bool).
Context (bucketsByDate : gmap Z DayData) (operatorIds : list string).

Let validOperatorIds : list string :=
  List.filter (isValid operatorMetaMap filterDeprecated) operatorIds.

Lemma mkEntry_Ok (metric : Metric) (lkv : gmap string Values.t)
    (id : string) (e : Entry.t) :
  mkEntry operatorMetaMap metric lkv id = Ok e ->
  Entry.id e = id /\
  exists r, lkv !! id = Some r /\
    Entry.valueWei e = Values.get metric r /\
    Entry.floatValue e = parseFloat (Values.get metric r).
Proof.
  unfold mkEntry. destruct (lkv !! id) as [r|]; [|done].
  intros [= <-]. split; [done|]. by exists r.
Qed.

Lemma ranking_Ok (metric : Metric) (lkv : gmap string Values.t)
    (ids : list string) (rk : list Entry.t) :
  ranking operatorMetaMap metric lkv ids = Ok rk ->
  exists entries,
    Forall2 (fun id e => mkEntry operatorMetaMap metric lkv id = Ok e)
            ids entries /\
    rk = take DISPLAY_COUNT (js_sort byFloatValueDesc entries).
Proof.
  unfold ranking. intros Hr. apply bind_Ok in Hr as (entries & Hm & Hr).
  simplify_eq. exists entries. split; [by apply mapR_Forall2|done].
Qed.

Lemma frameAt_filter (lkv lkv' : gmap string Values.t) (d : Z) (f : Frame.t) :
  frameAt operatorMetaMap filterDeprecated bucketsByDate operatorIds lkv d
    = Ok (lkv', f) ->
  filterR (isValidOperator operatorMetaMap filterDeprecated) operatorIds
    = Ok validOperatorIds.
Proof.
  unfold frameAt. intros Hf.
  apply bind_Ok in Hf as (lkv1 & Hm & Hf).
  apply bind_Ok in Hf as (ids & Hids & Hf).
  rewrite Hids. f_equal. apply filterR_Ok in Hids as [-> _]. reflexivity.
Qed.

Lemma frameAt_Ok (lkv lkv' : gmap string Values.t) (d : Z) (f : Frame.t) :
  frameAt operatorMetaMap filterDeprecated bucketsByDate operatorIds lkv d
    = Ok (lkv', f) ->
  mergeDay lkv (bucketsByDate !! d) = Ok lkv' /\
  Frame.date f = d /\
  forall metric,
    ranking operatorMetaMap metric lkv' validOperatorIds
      = Ok (Frame.rankings metric f).
Proof.
  intros Hf. pose proof (frameAt_filter _ _ _ _ Hf) as Hvalid.
  unfold frameAt in Hf.
  apply bind_Ok in Hf as (lkv1 & Hm & Hf).
  apply bind_Ok in Hf as (ids & Hids & Hf).
  rewrite Hvalid in Hids. injection Hids as <-.
  apply bind_Ok in Hf as (rs & Hs & Hf).
  apply bind_Ok in Hf as (re & He & Hf).
  simplify_eq/=. split; [done|]. split; [done|].
  intros []; done.
Qed.

Lemma buildFrames_validOperatorIds (sortedDates : list Z) (lkv : gmap string Values.t)
    (frames : list Frame.t) :
  buildFrames operatorMetaMap filterDeprecated bucketsByDate operatorIds
              lkv sortedDates = Ok frames ->
  sortedDates <> [] ->
  filterR (isValidOperator operatorMetaMap filterDeprecated) operatorIds
    = Ok validOperatorIds.
Proof.
  destruct sortedDates as [|d ds]; [done|]. intros Hb _.
  cbn [buildFrames] in Hb.
  apply bind_Ok in Hb as ([lkv' f] & Hf & Hb).
  by apply frameAt_filter in Hf.
Qed.

Lemma buildFrames_dates (sortedDates : list Z) :
  forall lkv frames,
    buildFrames operatorMetaMap filterDeprecated bucketsByDate operatorIds
                lkv sortedDates = Ok frames ->
    Frame.date <$> frames = sortedDates.
Proof.
  induction sortedDates as [|d ds IH]; intros lkv frames Hb.
  - simpl in Hb. by simplify_eq.
  - cbn [buildFrames] in Hb.
    apply bind_Ok in Hb as ([lkv' f] & Hf & Hb).
    apply bind_Ok in Hb as (fs & Hfs & Hb). simplify_eq/=.
    apply frameAt_Ok in Hf as (_ & -> & _).
    by rewrite (IH _ _ Hfs).
Qed.

(** An invariant [P] of the last known values before each date, which
    merging the day turns into [Q] at that date, gives [Q] for the
    values that every frame was ranked from. *)
Lemma buildFrames_inv (P : list Z -> gmap string Values.t -> Prop)
    (Q : Z -> gmap string Values.t -> Prop) :
  (forall d rest lkv lkv',
     P (d :: rest) lkv -> mergeDay lkv (bucketsByDate !! d) = Ok lkv' ->
     Q d lkv' /\ P rest lkv') ->
  forall sortedDates lkv frames,
    P sortedDates lkv ->
    buildFrames operatorMetaMap filterDeprecated bucketsByDate operatorIds
                lkv sortedDates = Ok frames ->
    Forall (fun f => exists lkv',
              Q (Frame.date f) lkv' /\
              forall metric,
                ranking operatorMetaMap metric lkv' validOperatorIds
                  = Ok (Frame.rankings metric f)) frames.
Proof.
  intros Hstep. induction sortedDates as [|d ds IH]; intros lkv frames HP Hb.
  - simpl in Hb. simplify_eq. constructor.
  - cbn [buildFrames] in Hb.
    apply bind_Ok in Hb as ([lkv' f] & Hf & Hb).
    apply bind_Ok in Hb as (fs & Hfs & Hb). simplify_eq/=.
    apply frameAt_Ok in Hf as (Hm & Hd & Hr).
    destruct (Hstep _ _ _ _ HP Hm) as [HQ HP'].
    constructor; [|by apply (IH lkv')].
    exists lkv'. by rewrite Hd.
Qed.

(** What a ranking holds: the entries of the valid operators, sorted
    and cut. *)
Lemma ranking_entries (metric : Metric) (lkv : gmap string Values.t)
    (rk : list Entry.t) :
  ranking operatorMetaMap metric lkv validOperatorIds = Ok rk ->
  exists entries,
    rk = take DISPLAY_COUNT (js_sort byFloatValueDesc entries) /\
    Entry.id <$> entries = validOperatorIds /\
    Forall (fun e => exists r, lkv !! Entry.id e = Some r /\
              Entry.valueWei e = Values.get metric r /\
              Entry.floatValue e = parseFloat (Values.get metric r)) entries.
Proof.
  intros Hr. apply ranking_Ok in Hr as (entries & Hall & ->).
  exists entries. split; [done|].
  induction Hall as [|id e ids es He _ [IH1 IH2]]; [by split|].
  apply mkEntry_Ok in He as (Hid & r & Hr & Hv & Hf).
  split; [by rewrite fmap_cons, Hid, IH1|].
  constructor; [|done]. exists r. by rewrite Hid.
Qed.
End frames.

(** ** The timeline *)

Lemma processTimeline_Ok `{Builtins} (operatorMetaMap : gmap string Meta.t)
    (filterDeprecated : bool) (buckets : list Bucket.t)
    (operatorIds : list string) (frames : list Frame.t) :
  processTimeline operatorMetaMap filterDeprecated buckets operatorIds
    = Ok frames ->
  buildFrames operatorMetaMap filterDeprecated (groupBuckets buckets).1
              operatorIds (seedValues operatorIds)
              (sortDates (groupBuckets buckets).2) = Ok frames.
Proof.
  unfold processTimeline.
  destruct (groupBuckets buckets) as [bucketsByDate uniqueDates].
  by case_decide.
Qed.

(** When [processTimeline] returns, the callback of [operatorIds.filter]
    has not thrown: the filtered list is the same at every date. *)
Lemma processTimeline_validOperatorIds `{Builtins}
    (operatorMetaMap : gmap string Meta.t) (filterDeprecated : bool)
    (buckets : list Bucket.t) (operatorIds : list string)
    (frames : list Frame.t) :
  processTimeline operatorMetaMap filterDeprecated buckets operatorIds
    = Ok frames ->
  filterR (isValidOperator operatorMetaMap filterDeprecated) operatorIds
    = Ok (List.filter (isValid operatorMetaMap filterDeprecated) operatorIds).
Proof.
  unfold processTimeline.
  destruct (groupBuckets buckets) as [bucketsByDate uniqueDates].
  case_decide as Hlen; [done|]. intros Hb.
  eapply buildFrames_validOperatorIds; [exact Hb|].
  intros E. by rewrite E in Hlen.
Qed.

Lemma sortDates_strict (buckets : list Bucket.t) :
  StronglySorted Z.lt (sortDates (groupBuckets buckets).2).
Proof.
  apply StronglySorted_le_lt; [|apply sortDates_sorted].
  rewrite sortDates_Permutation. apply groupBuckets_dates.
Qed.

(** C3. Whatever the order of the rows and however often a date occurs,
    the frames are dated in strictly increasing order, one frame for each
    date that occurs. *)
Theorem frame_dates_strictly_increasing `{Builtins}
    (operatorMetaMap : gmap string Meta.t) (filterDeprecated : bool)
    (buckets : list Bucket.t) (operatorIds : list string)
    (frames : list Frame.t) :
  processTimeline operatorMetaMap filterDeprecated buckets operatorIds
    = Ok frames ->
  StronglySorted Z.lt (Frame.date <$> frames) /\
  NoDup (Frame.date <$> frames) /\
  forall d, d ∈ Frame.date <$> frames <->
            exists b, b ∈ buckets /\ Bucket.date b = d.
Proof.
  intros Hp. apply processTimeline_Ok in Hp.
  rewrite (buildFrames_dates _ _ _ _ _ _ _ Hp).
  split; [apply sortDates_strict|].
  split.
  - rewrite sortDates_Permutation. apply groupBuckets_dates.
  - intros d. rewrite sortDates_Permutation. apply groupBuckets_dates.
Qed.

Lemma frame_dates_strictly_increasing_witness :
  StronglySorted Z.lt (Frame.date <$> sampleFrames) /\
  NoDup (Frame.date <$> sampleFrames) /\
  forall d, d ∈ Frame.date <$> sampleFrames <->
            exists b, b ∈ sampleBuckets /\ Bucket.date b = d.
Proof.
  apply (@frame_dates_strictly_increasing sampleBuiltins sampleMeta false
           sampleBuckets sampleIds sampleFrames).
  reflexivity.
Defined.

Lemma num_tie_not_lt (a b v : num) :
  v <> NaN -> num_tie a v = true -> num_tie b v = true -> num_lt a b = false.
Proof.
  unfold num_tie. intros Hv Ha Hb.
  apply andb_true_iff in Ha as [Ha1 Ha2]. apply andb_true_iff in Hb as [Hb1 Hb2].
  apply negb_true_iff in Ha1, Ha2, Hb1, Hb2.
  destruct a as [| |x|], b as [| |y|], v as [| |z|]; simpl in *; try done.
  apply negb_false_iff, Qle_bool_iff.
  apply negb_false_iff, Qle_bool_iff in Ha1, Ha2, Hb1, Hb2.
  by apply (Qle_trans _ z).
Qed.

Section ranking_facts.
Context `{Builtins}.
Context (operatorMetaMap : gmap string Meta.t) (filterDeprecated : bool).
Context (buckets : list Bucket.t) (operatorIds : list string).

Hypothesis zero_parses : parseFloat "0" <> NaN.
Hypothesis values_parse :
  forall b m, b ∈ buckets -> truthy (bucketValue m b) = true ->
              parseFloat (bucketValue m b) <> NaN.

Lemma seedValues_parse : parsesToNumbers (seedValues operatorIds).
Proof.
  intros id r m Hr. apply seedValues_lookup in Hr as ->. by destruct m.
Qed.

Lemma mergeDay_parse (lkv lkv' : gmap string Values.t) (d : Z) :
  parsesToNumbers lkv ->
  mergeDay lkv ((groupBuckets buckets).1 !! d) = Ok lkv' ->
  parsesToNumbers lkv'.
Proof.
  intros Hlkv Hm id r m Hr.
  rewrite (mergeDay_lookup _ _ _ (groupBuckets_NoDup buckets d) Hm id) in Hr.
  rewrite groupBuckets_lookup in Hr.
  destruct (last (List.filter (onDay d id) buckets)) as [b|] eqn:Hlast;
    simpl in Hr; [|by apply (Hlkv id)].
  destruct (lkv !! id) as [r0|] eqn:Hr0; simplify_eq/=.
  assert (Hb : b ∈ buckets).
  { apply last_Some_elem_of, list_elem_of_In, filter_In in Hlast as [Hb _].
    by apply list_elem_of_In. }
  pose proof (values_parse b m Hb) as Hval.
  pose proof (Hlkv id r0 m Hr0) as Hold.
  destruct m; simpl in *; case_match; auto.
Qed.
End ranking_facts.

(** C2. In every frame and for each metric the ranking has at most 50
    entries and is in descending order of [floatValue]; entries with the
    same value stand in the order of the operator list, as filtered by
    [operatorIds.filter]. *)
Theorem rankings_sorted_capped_stable `{Builtins}
    (operatorMetaMap : gmap string Meta.t) (filterDeprecated : bool)
    (buckets : list Bucket.t) (operatorIds : list string)
    (frames : list Frame.t) :
  processTimeline operatorMetaMap filterDeprecated buckets operatorIds
    = Ok frames ->
  parseFloat "0" <> NaN ->
  (forall b m, b ∈ buckets -> truthy (bucketValue m b) = true ->
               parseFloat (bucketValue m b) <> NaN) ->
  forall f m, f ∈ frames ->
    DISPLAY_COUNT = 50%nat /\
    (length (Frame.rankings m f) <= DISPLAY_COUNT)%nat /\
    StronglySorted (fun a b => num_le (Entry.floatValue b) (Entry.floatValue a))
                   (Frame.rankings m f) /\
    exists validOperatorIds,
      filterR (isValidOperator operatorMetaMap filterDeprecated) operatorIds
        = Ok validOperatorIds /\
      validOperatorIds `sublist_of` operatorIds /\
      forall v, v <> NaN ->
        (Entry.id <$> List.filter (fun e => num_tie (Entry.floatValue e) v)
                                  (Frame.rankings m f))
        `sublist_of` validOperatorIds.
Proof.
  intros Hp Hzero Hvals f m Hf.
  pose proof (processTimeline_validOperatorIds _ _ _ _ _ Hp) as Hvalid.
  apply processTimeline_Ok in Hp.
  assert (Hstep : forall (d : Z) (rest : list Z) (lkv lkv' : gmap string Values.t),
             parsesToNumbers lkv ->
             mergeDay lkv ((groupBuckets buckets).1 !! d) = Ok lkv' ->
             parsesToNumbers lkv' /\ parsesToNumbers lkv').
  { intros d rest lkv lkv' HP Hm.
    split; eapply mergeDay_parse; eauto. }
  pose proof (buildFrames_inv operatorMetaMap filterDeprecated
                (groupBuckets buckets).1 operatorIds
                (fun _ lkv => parsesToNumbers lkv)
                (fun _ lkv => parsesToNumbers lkv) Hstep
                _ _ _ (seedValues_parse _ Hzero) Hp) as Hinv.
  simpl in Hinv.
  apply (proj1 (Forall_forall _ _) Hinv) in Hf as (lkv & Hlkv & Hrank).
  specialize (Hrank m).
  apply ranking_entries in Hrank as (entries & -> & Hids & Hentries).
  split; [done|]. split; [|split].
  - rewrite length_take. lia.
  - eapply StronglySorted_sublist; [apply sublist_take|].
    apply (js_sort_sorted _ _ (fun e => Entry.floatValue e <> NaN)).
    + intros x y z Hxy Hyz. by apply (num_le_trans _ (Entry.floatValue y)).
    + intros x y. unfold comes_after, byFloatValueDesc. rewrite num_pos_sub.
      apply num_lt_le.
    + intros x y Hx Hy. unfold comes_after, byFloatValueDesc.
      rewrite num_pos_sub. by apply num_not_lt_le.
    + apply Forall_forall. intros e He.
      apply (proj1 (Forall_forall _ _) Hentries) in He as (r & Hr & _ & ->).
      by apply (Hlkv _ _ _ Hr).
  - exists (List.filter (isValid operatorMetaMap filterDeprecated) operatorIds).
    split; [exact Hvalid|]. split; [apply List_filter_sublist|].
    intros v Hv. rewrite <- Hids. apply fmap_sublist.
    etrans; [apply List_filter_sublist_mono, sublist_take|].
    rewrite js_sort_stable; [apply List_filter_sublist|].
    intros x y Hx Hy. unfold comes_after, byFloatValueDesc.
    rewrite num_pos_sub. by apply (num_tie_not_lt _ _ v).
Qed.

Lemma sample_values_parse (b : Bucket.t) (m : Metric) :
  b ∈ sampleBuckets ->
  truthy (bucketValue m b) = true /\ parseDigits (bucketValue m b) <> NaN.
Proof.
  intros Hb. unfold sampleBuckets in Hb.
  repeat (apply elem_of_cons in Hb as [->|Hb]; [by destruct m|]).
  by apply elem_of_nil in Hb.
Qed.

Lemma sampleFrame3_elem_of : sampleFrame3 ∈ sampleFrames.
Proof. apply list_elem_of_lookup. by exists 2%nat. Qed.

Lemma rankings_sorted_capped_stable_witness :
  StronglySorted (fun a b => num_le (Entry.floatValue b) (Entry.floatValue a))
                 (Frame.stake sampleFrame3) /\
  (length (Frame.stake sampleFrame3) <= 50)%nat.
Proof.
  destruct (@rankings_sorted_capped_stable sampleBuiltins sampleMeta false
              sampleBuckets sampleIds sampleFrames)
    with (f := sampleFrame3) (m := Stake) as (_ & Hlen & Hsorted & _).
  - reflexivity.
  - discriminate.
  - intros b m Hb _. by apply sample_values_parse.
  - apply sampleFrame3_elem_of.
  - split; [exact Hsorted | exact Hlen].
Defined.

(** ** Forward fill *)

Lemma last_filter_None {A} (p : A -> bool) (l : list A) (x : A) :
  last (List.filter p l) = None -> x ∈ l -> p x = false.
Proof.
  intros Hlast Hx. apply last_None in Hlast.
  destruct (p x) eqn:E; [|done].
  assert (Hin : In x (List.filter p l)).
  { apply filter_In. split; [by apply list_elem_of_In|done]. }
  rewrite Hlast in Hin. done.
Qed.

Section forward_fill.
Context (buckets : list Bucket.t).
Hypothesis all_truthy :
  forall b m, b ∈ buckets -> truthy (bucketValue m b) = true.

Lemma mergeValues_truthy (b : Bucket.t) (r : Values.t) (m : Metric) :
  b ∈ buckets -> Values.get m (mergeValues (valuesOf b) r) = bucketValue m b.
Proof.
  intros Hb. pose proof (all_truthy b Stake Hb) as Hs.
  pose proof (all_truthy b Earnings Hb) as He.
  unfold mergeValues, valuesOf. simpl in *. rewrite Hs, He. by destruct m.
Qed.

(** Merging the rows of day [d] takes a table filled up to the day
    before to a table filled up to [d]. *)
Lemma mergeDay_filled (lkv lkv' : gmap string Values.t) (d : Z) :
  filledAt buckets (d - 1) lkv ->
  mergeDay lkv ((groupBuckets buckets).1 !! d) = Ok lkv' ->
  filledAt buckets d lkv'.
Proof.
  intros Hfilled Hm id r m Hr.
  rewrite (mergeDay_lookup _ _ _ (groupBuckets_NoDup buckets d) Hm id) in Hr.
  rewrite groupBuckets_lookup in Hr.
  destruct (last (List.filter (onDay d id) buckets)) as [b|] eqn:Hlast;
    simpl in Hr.
  - destruct (lkv !! id) as [r0|] eqn:Hr0; simplify_eq/=.
    assert (Hb : b ∈ buckets).
    { apply last_Some_elem_of, list_elem_of_In, filter_In in Hlast as [Hb _].
      by apply list_elem_of_In. }
    rewrite mergeValues_truthy by done.
    unfold forwardFill. by rewrite (mostRecentObservation_on_day _ _ _ _ Hlast).
  - rewrite (Hfilled id r m Hr). unfold forwardFill.
    rewrite (mostRecentObservation_ext buckets id (d - 1) d); [done|].
    intros b Hb. pose proof (last_filter_None _ _ b Hlast Hb) as Hday.
    unfold onDay in Hday. unfold observedBy.
    destruct (bool_decide (Bucket.operator b = id)); [|done]. simpl.
    rewrite andb_true_r in Hday. apply Z.eqb_neq in Hday.
    destruct (Z.leb_spec (Bucket.date b) (d - 1)),
      (Z.leb_spec (Bucket.date b) d); try done; exfalso; lia.
Qed.

Lemma fillInvariant_step (d : Z) (rest : list Z)
    (lkv lkv' : gmap string Values.t) :
  fillInvariant buckets (d :: rest) lkv ->
  mergeDay lkv ((groupBuckets buckets).1 !! d) = Ok lkv' ->
  filledAt buckets d lkv' /\ fillInvariant buckets rest lkv'.
Proof.
  intros (Hsorted & Hdates & Hfilled) Hm.
  assert (HQ : filledAt buckets d lkv')
    by (eapply mergeDay_filled; eauto).
  split; [exact HQ|].
  apply StronglySorted_inv in Hsorted as [Hrest Hd].
  split; [exact Hrest|]. split.
  - intros b Hb. destruct (Hdates b Hb) as [Hin|Hlt].
    + apply elem_of_cons in Hin as [Heq|Hin]; [|by left].
      right. intros d' Hd'. rewrite Heq.
      by apply (proj1 (Forall_forall _ _) Hd).
    + right. intros d' Hd'. apply Hlt. by right.
  - intros d' rest' ->. intros id r m Hr.
    rewrite (HQ id r m Hr). unfold forwardFill.
    rewrite (mostRecentObservation_ext buckets id d (d' - 1)); [done|].
    apply Forall_cons in Hd as [Hdd' _].
    apply StronglySorted_inv in Hrest as [_ Hd'].
    intros b Hb. unfold observedBy. f_equal.
    destruct (Hdates b Hb) as [Hin|Hlt].
    + apply elem_of_cons in Hin as [Heq|Hin].
      * destruct (Z.leb_spec (Bucket.date b) d),
          (Z.leb_spec (Bucket.date b) (d' - 1)); try done; exfalso; lia.
      * assert (d' <= Bucket.date b).
        { apply elem_of_cons in Hin as [->|Hin]; [lia|].
          pose proof (proj1 (Forall_forall _ _) Hd' _ Hin). lia. }
        destruct (Z.leb_spec (Bucket.date b) d),
          (Z.leb_spec (Bucket.date b) (d' - 1)); try done; exfalso; lia.
    + pose proof (Hlt d ltac:(left)).
      destruct (Z.leb_spec (Bucket.date b) d),
        (Z.leb_spec (Bucket.date b) (d' - 1)); try done; exfalso; lia.
Qed.

Lemma fillInvariant_init (operatorIds : list string) :
  fillInvariant buckets (sortDates (groupBuckets buckets).2)
                (seedValues operatorIds).
Proof.
  pose proof (sortDates_strict buckets) as Hsorted.
  assert (Hall : forall b, b ∈ buckets ->
                   Bucket.date b ∈ sortDates (groupBuckets buckets).2).
  { intros b Hb. rewrite sortDates_Permutation.
    apply groupBuckets_dates. by exists b. }
  split; [exact Hsorted|]. split; [by left; apply Hall|].
  intros d rest Heq id r m Hr.
  apply seedValues_lookup in Hr as ->.
  assert (Hnone : mostRecentObservation buckets id (d - 1) = None).
  { apply mostRecentObservation_None. intros b Hb _.
    pose proof (Hall b Hb) as Hin. rewrite Heq in Hin, Hsorted.
    apply StronglySorted_inv in Hsorted as [_ Hd].
    apply elem_of_cons in Hin as [->|Hin]; [lia|].
    pose proof (proj1 (Forall_forall _ _) Hd _ Hin). lia. }
  unfold forwardFill. rewrite Hnone. by destruct m.
Qed.
End forward_fill.

(** C1. Every entry of every frame carries, for each metric, the value
    of the most recent observation of its entity at or before the date of
    the frame, and the string "0", parsed as 0, when the entity has no
    observation up to that date.  The entries of a frame are drawn from
    all valid discovered entities: the ranking is the first 50 of a list
    that holds each of them once. *)
Theorem forward_fill_correct `{Builtins}
    (operatorMetaMap : gmap string Meta.t) (filterDeprecated : bool)
    (buckets : list Bucket.t) (operatorIds : list string)
    (frames : list Frame.t) :
  processTimeline operatorMetaMap filterDeprecated buckets operatorIds
    = Ok frames ->
  (forall b m, b ∈ buckets -> truthy (bucketValue m b) = true) ->
  parseFloat "0" = Fin 0 ->
  forall f m, f ∈ frames ->
    exists candidates,
      Frame.rankings m f = take DISPLAY_COUNT candidates /\
      (exists validOperatorIds,
         filterR (isValidOperator operatorMetaMap filterDeprecated)
                 operatorIds = Ok validOperatorIds /\
         Entry.id <$> candidates ≡ₚ validOperatorIds) /\
      (forall e, e ∈ Frame.rankings m f -> e ∈ candidates) /\
      forall e, e ∈ candidates ->
        Entry.valueWei e
          = forwardFill m buckets (Entry.id e) (Frame.date f) /\
        Entry.floatValue e = parseFloat (Entry.valueWei e) /\
        (forall b,
           mostRecentObservation buckets (Entry.id e) (Frame.date f) = Some b ->
           Entry.valueWei e = bucketValue m b) /\
        (mostRecentObservation buckets (Entry.id e) (Frame.date f) = None ->
           Entry.valueWei e = "0" /\ Entry.floatValue e = Fin 0).
Proof.
  intros Hp Htruthy Hzero f m Hf.
  pose proof (processTimeline_validOperatorIds _ _ _ _ _ Hp) as Hvalid.
  apply processTimeline_Ok in Hp.
  assert (Hstep : forall (d : Z) (rest : list Z) (lkv lkv' : gmap string Values.t),
             fillInvariant buckets (d :: rest) lkv ->
             mergeDay lkv ((groupBuckets buckets).1 !! d) = Ok lkv' ->
             filledAt buckets d lkv' /\ fillInvariant buckets rest lkv').
  { intros d rest lkv lkv'. by apply fillInvariant_step. }
  pose proof (buildFrames_inv operatorMetaMap filterDeprecated
                (groupBuckets buckets).1 operatorIds
                (fillInvariant buckets) (filledAt buckets) Hstep
                _ _ _ (fillInvariant_init buckets operatorIds) Hp) as Hinv.
  apply (proj1 (Forall_forall _ _) Hinv) in Hf as (lkv & Hlkv & Hrank).
  specialize (Hrank m).
  apply ranking_entries in Hrank as (entries & Hrk & Hids & Hentries).
  exists (js_sort byFloatValueDesc entries).
  split; [exact Hrk|].
  split.
  { eexists. split; [exact Hvalid|]. by rewrite js_sort_Permutation, Hids. }
  split.
  { intros e He. rewrite Hrk in He.
    eapply sublist_elem_of; [apply sublist_take|done]. }
  intros e He. apply js_sort_elem_of in He.
  apply (proj1 (Forall_forall _ _) Hentries) in He as (r & Hr & Hv & Hfv).
  assert (Hval : Entry.valueWei e
                 = forwardFill m buckets (Entry.id e) (Frame.date f)).
  { rewrite Hv. by apply (Hlkv _ _ _ Hr). }
  split; [exact Hval|]. split; [by rewrite Hv|]. split.
  - intros b Hb. rewrite Hval. unfold forwardFill. by rewrite Hb.
  - intros Hnone. rewrite Hfv, <- Hv, Hval. unfold forwardFill.
    by rewrite Hnone.
Qed.

Lemma forward_fill_correct_witness :
  exists candidates,
    Frame.stake sampleFrame3 = take DISPLAY_COUNT candidates /\
    forall e, e ∈ candidates ->
      Entry.valueWei e
        = forwardFill Stake sampleBuckets (Entry.id e) (Frame.date sampleFrame3).
Proof.
  destruct (@forward_fill_correct sampleBuiltins sampleMeta false
              sampleBuckets sampleIds sampleFrames)
    with (f := sampleFrame3) (m := Stake) as (candidates & Hrk & _ & _ & Hall).
  - reflexivity.
  - intros b m Hb. by apply sample_values_parse.
  - reflexivity.
  - apply sampleFrame3_elem_of.
  - exists candidates. split; [exact Hrk|].
    intros e He. by destruct (Hall e He) as [Hv _].
Defined.

(** The spec's example: A reports 100 on day 1 and 10 on day 3, B reports
    50 on day 1 only; on day 3 B, still at 50, ranks above A. *)
Example day3_ranks_B_above_A :
  @processTimeline sampleBuiltins
    (<["A" := Meta.mk (JString "A") None]> (<["B" := Meta.mk (JString "B") None]> ∅)) false
    [Bucket.mk (day 1) "100" "0" "A"; Bucket.mk (day 1) "50" "0" "B";
     Bucket.mk (day 3) "10" "0" "A"] ["A"; "B"]
  = Ok [Frame.mk (day 1) ""
          [Entry.mk "A" "100" (Fin 100) (Some (JString "A")) None;
           Entry.mk "B" "50" (Fin 50) (Some (JString "B")) None]
          [Entry.mk "A" "0" (Fin 0) (Some (JString "A")) None;
           Entry.mk "B" "0" (Fin 0) (Some (JString "B")) None];
        Frame.mk (day 3) ""
          [Entry.mk "B" "50" (Fin 50) (Some (JString "B")) None;
           Entry.mk "A" "10" (Fin 10) (Some (JString "A")) None]
          [Entry.mk "A" "0" (Fin 0) (Some (JString "A")) None;
           Entry.mk "B" "0" (Fin 0) (Some (JString "B")) None]].
Proof. reflexivity. Qed.

(** [processTimeline] throws "No data found" on an empty history. *)
Lemma processTimeline_empty `{Builtins} (operatorMetaMap : gmap string Meta.t)
    (filterDeprecated : bool) (operatorIds : list string) :
  processTimeline operatorMetaMap filterDeprecated [] operatorIds
  = Throw NoDataFound.
Proof. reflexivity. Qed.

(** ** [processTimeline] returns *)

Lemma mergeOperator_succeeds (lkv : gmap string Values.t) (k : string)
    (v : Values.t) :
  is_Some (lkv !! k) -> exists lkv', mergeOperator lkv (k, v) = Ok lkv'.
Proof.
  intros [r Hr]. unfold mergeOperator, setStake, setEarnings.
  destruct (truthy (Values.stake v)), (truthy (Values.earnings v));
    rewrite ?Hr; simpl; rewrite ?lookup_insert_eq, ?Hr; eauto.
Qed.

Lemma mergeOperator_dom (lkv lkv' : gmap string Values.t) (k : string)
    (v : Values.t) (id : string) :
  mergeOperator lkv (k, v) = Ok lkv' ->
  is_Some (lkv !! id) -> is_Some (lkv' !! id).
Proof.
  intros Hm [r Hr]. rewrite (mergeOperator_lookup _ _ _ _ Hm id).
  case_decide; subst; rewrite Hr; simpl; eauto.
Qed.

Lemma forEachM_mergeOperator_succeeds (o : DayData) :
  forall lkv : gmap string Values.t,
    (forall k, k ∈ o.*1 -> is_Some (lkv !! k)) ->
    exists lkv', forEachM mergeOperator o lkv = Ok lkv' /\
                 forall id, is_Some (lkv !! id) -> is_Some (lkv' !! id).
Proof.
  induction o as [|[k v] o IH]; intros lkv Hkeys.
  - exists lkv. by split.
  - destruct (mergeOperator_succeeds lkv k v) as [lkv1 H1].
    { apply Hkeys. left. }
    destruct (IH lkv1) as (lkv' & H2 & Hdom).
    { intros k' Hk'. apply (mergeOperator_dom _ _ _ _ _ H1).
      apply Hkeys. by right. }
    exists lkv'. split.
    + cbn [forEachM]. rewrite H1. exact H2.
    + intros id Hid. apply Hdom. by apply (mergeOperator_dom _ _ _ _ _ H1).
Qed.

Lemma mapR_succeeds {A B} (f : A -> result B) (l : list A) :
  (forall x, x ∈ l -> exists y, f x = Ok y) -> exists ys, mapR f l = Ok ys.
Proof.
  induction l as [|x l IH]; intros Hall; [by exists []|].
  destruct (Hall x ltac:(left)) as [y Hy].
  destruct IH as [ys Hys]; [intros x' Hx'; apply Hall; by right|].
  exists (y :: ys). cbn [mapR]. by rewrite Hy, Hys.
Qed.

Lemma seedValues_is_Some (operatorIds : list string) (id : string) :
  id ∈ operatorIds -> is_Some (seedValues operatorIds !! id).
Proof.
  unfold seedValues.
  assert (Hgen : forall lkv : gmap string Values.t,
             id ∈ operatorIds \/ is_Some (lkv !! id) ->
             is_Some (fold_left (fun lkv id => <[id := Values.mk "0" "0"]> lkv)
                                operatorIds lkv !! id)).
  { induction operatorIds as [|k ks IH]; intros lkv Hid; simpl.
    - destruct Hid as [Hid|Hid]; [by apply elem_of_nil in Hid|done].
    - apply IH. destruct Hid as [Hid|Hid].
      + apply elem_of_cons in Hid as [->|Hid]; [|by left].
        right. by rewrite lookup_insert_eq.
      + right. rewrite lookup_insert. case_decide; eauto. }
  intros Hid. apply Hgen. by left.
Qed.

(** The callback of [operatorIds.filter] returns when the names can be
    read, and throws a [TypeError] only at a name that is not a string. *)
Lemma isValidOperator_returns (operatorMetaMap : gmap string Meta.t)
    (filterDeprecated : bool) (operatorIds : list string) (id : string) :
  namesReadable operatorMetaMap filterDeprecated operatorIds ->
  id ∈ operatorIds ->
  exists b, isValidOperator operatorMetaMap filterDeprecated id = Ok b.
Proof.
  intros Hnames Hid. unfold isValidOperator.
  destruct (operatorMetaMap !! id) as [mt|] eqn:Hmt; [|by eexists].
  destruct filterDeprecated; [|by eexists].
  destruct (Hnames eq_refl id mt Hid Hmt) as [name ->]. by eexists.
Qed.

Lemma isValidOperator_Throw (operatorMetaMap : gmap string Meta.t)
    (filterDeprecated : bool) (id : string) (e : Error) :
  isValidOperator operatorMetaMap filterDeprecated id = Throw e ->
  e = TypeError /\ filterDeprecated = true /\
  exists mt, operatorMetaMap !! id = Some mt /\
             forall name, Meta.name mt <> JString name.
Proof.
  unfold isValidOperator.
  destruct (operatorMetaMap !! id) as [mt|]; [|done].
  destruct filterDeprecated; [|done].
  destruct (Meta.name mt) eqn:Hname; try done;
    intros [= <-]; (split; [done|]); (split; [done|]);
    exists mt; (split; [done|]); by rewrite Hname.
Qed.

Section total.
Context `{Builtins}.
Context (operatorMetaMap : gmap string Meta.t) (filterDeprecated : bool).
Context (buckets : list Bucket.t) (operatorIds : list string).
Hypothesis rows_of_discovered :
  forall b, b ∈ buckets -> Bucket.operator b ∈ operatorIds.
Hypothesis names_readable :
  namesReadable operatorMetaMap filterDeprecated operatorIds.

Lemma filter_succeeds :
  filterR (isValidOperator operatorMetaMap filterDeprecated) operatorIds
  = Ok (List.filter (isValid operatorMetaMap filterDeprecated) operatorIds).
Proof.
  apply filterR_succeeds, Forall_forall. intros id Hid.
  by apply (isValidOperator_returns _ _ operatorIds).
Qed.

Lemma ranking_succeeds (metric : Metric) (lkv : gmap string Values.t)
    (ids : list string) :
  (forall id, id ∈ ids -> is_Some (lkv !! id)) ->
  exists rk, ranking operatorMetaMap metric lkv ids = Ok rk.
Proof.
  intros Hdom. unfold ranking.
  destruct (mapR_succeeds (mkEntry operatorMetaMap metric lkv) ids) as [es Hes].
  { intros id Hid. destruct (Hdom id Hid) as [r Hr].
    unfold mkEntry. rewrite Hr. eauto. }
  rewrite Hes. simpl. eauto.
Qed.

Lemma day_keys_discovered (d : Z) (o : DayData) (k : string) :
  (groupBuckets buckets).1 !! d = Some o -> k ∈ o.*1 -> k ∈ operatorIds.
Proof.
  intros Ho Hk. pose proof (groupBuckets_lookup buckets d k) as Hget.
  unfold DayData in *. rewrite Ho in Hget. simpl in Hget.
  destruct (obj_get k o) eqn:E; [|by apply obj_get_None in E].
  destruct (last (List.filter (onDay d k) buckets)) as [b|] eqn:Hlast; [|done].
  apply last_Some_elem_of, list_elem_of_In, filter_In in Hlast as [Hb Hday].
  unfold onDay in Hday. apply andb_true_iff in Hday as [_ Hop].
  apply bool_decide_eq_true in Hop. subst k.
  by apply rows_of_discovered, list_elem_of_In.
Qed.

Lemma buildFrames_succeeds (sortedDates : list Z) :
  forall lkv : gmap string Values.t,
    (forall id, id ∈ operatorIds -> is_Some (lkv !! id)) ->
    exists frames,
      buildFrames operatorMetaMap filterDeprecated (groupBuckets buckets).1
                  operatorIds lkv sortedDates = Ok frames.
Proof.
  induction sortedDates as [|d ds IH]; intros lkv Hdom; [by exists []|].
  assert (Hmerge : exists lkv',
             mergeDay lkv ((groupBuckets buckets).1 !! d) = Ok lkv' /\
             forall id, is_Some (lkv !! id) -> is_Some (lkv' !! id)).
  { destruct ((groupBuckets buckets).1 !! d) as [o|] eqn:Ho; simpl.
    - apply forEachM_mergeOperator_succeeds.
      intros k Hk. apply Hdom. by apply (day_keys_discovered d o).
    - exists lkv. by split. }
  destruct Hmerge as (lkv' & Hm & Hdom').
  assert (Hvalid : forall id,
             id ∈ List.filter (isValid operatorMetaMap filterDeprecated)
                              operatorIds ->
             is_Some (lkv' !! id)).
  { intros id Hid. apply Hdom', Hdom.
    by apply list_elem_of_In, filter_In in Hid as [Hid%list_elem_of_In _]. }
  destruct (ranking_succeeds Stake lkv' _ Hvalid) as [rs Hrs].
  destruct (ranking_succeeds Earnings lkv' _ Hvalid) as [re Hre].
  destruct (IH lkv') as [fs Hfs]; [by intros id Hid; apply Hdom', Hdom|].
  exists (Frame.mk d (formatDate d) rs re :: fs).
  cbn [buildFrames]. unfold frameAt. rewrite Hm. simpl.
  rewrite filter_succeeds. simpl.
  rewrite Hrs. simpl. rewrite Hre. simpl. by rewrite Hfs.
Qed.

(** With at least one row, all rows belonging to discovered operators,
    [processTimeline] returns a timeline, and it is not empty. *)
Lemma processTimeline_succeeds :
  buckets <> [] ->
  exists frames,
    processTimeline operatorMetaMap filterDeprecated buckets operatorIds
      = Ok frames /\ frames <> [].
Proof.
  intros Hne.
  destruct (buildFrames_succeeds (sortDates (groupBuckets buckets).2)
              (seedValues operatorIds) (seedValues_is_Some operatorIds))
    as [frames Hframes].
  assert (Hdates : sortDates (groupBuckets buckets).2 <> []).
  { destruct buckets as [|b bs]; [done|].
    intros Hnil.
    assert (Hin : Bucket.date b ∈ sortDates (groupBuckets (b :: bs)).2).
    { rewrite sortDates_Permutation. apply groupBuckets_dates.
      exists b. split; [left|done]. }
    rewrite Hnil in Hin. by apply elem_of_nil in Hin. }
  exists frames. split.
  - unfold processTimeline.
    destruct (groupBuckets buckets) as [bucketsByDate uniqueDates]. simpl in *.
    case_decide as Hlen; [|done].
    by apply length_zero_iff_nil in Hlen.
  - intros ->. apply buildFrames_dates in Hframes. simpl in Hframes. done.
Qed.
End total.

(** ** The stable sort is unique

    Any array that is sorted for the comparator and keeps the elements
    of every tie class in their original order is the array computed by
    [js_sort]: on a consistent comparator the model does not depend on
    the sorting algorithm of the engine. *)

Lemma StronglySorted_impl {A} (R1 R2 : relation A) (l : list A) :
  (forall x y, R1 x y -> R2 x y) -> StronglySorted R1 l -> StronglySorted R2 l.
Proof.
  intros Himpl. induction 1 as [|x l _ IH Hx]; constructor; [done|].
  eapply Forall_impl; [exact Hx|]. intros y. apply Himpl.
Qed.

Section unique.
Context {A : Type} (compareFn : A -> A -> num) (ok : A -> Prop).
Hypothesis after_irrefl : forall x, comes_after compareFn x x = false.

Lemma ties_refl (x : A) : ties compareFn x x = true.
Proof. unfold ties. by rewrite after_irrefl. Qed.

Lemma sorted_stable_unique (l1 : list A) :
  forall l2,
    Forall ok l1 -> Forall ok l2 ->
    StronglySorted (fun x y => comes_after compareFn x y = false) l1 ->
    StronglySorted (fun x y => comes_after compareFn x y = false) l2 ->
    (forall x, ok x -> List.filter (ties compareFn x) l1
                       = List.filter (ties compareFn x) l2) ->
    l1 = l2.
Proof.
  induction l1 as [|x l1 IH]; intros l2 Hok1 Hok2 Hs1 Hs2 Hfilter.
  - destruct l2 as [|y l2]; [done|].
    apply Forall_cons in Hok2 as [Hy _].
    specialize (Hfilter y Hy). simpl in Hfilter.
    by rewrite ties_refl in Hfilter.
  - apply Forall_cons in Hok1 as [Hx Hok1].
    destruct l2 as [|y l2].
    { specialize (Hfilter x Hx). simpl in Hfilter.
      by rewrite ties_refl in Hfilter. }
    apply Forall_cons in Hok2 as [Hy Hok2].
    apply StronglySorted_inv in Hs1 as [Hs1 Hx1].
    apply StronglySorted_inv in Hs2 as [Hs2 Hy2].
    assert (Hxy : x = y).
    { pose proof (Hfilter x Hx) as Fx. pose proof (Hfilter y Hy) as Fy.
      simpl in Fx, Fy. rewrite ties_refl in Fx, Fy.
      destruct (ties compareFn x y) eqn:Exy; [by simplify_eq|].
      destruct (ties compareFn y x) eqn:Eyx.
      { unfold ties in Exy, Eyx. rewrite andb_comm in Eyx. congruence. }
      assert (Hin2 : x ∈ l2).
      { apply list_elem_of_In.
        apply (proj1 (filter_In (ties compareFn x) x l2)).
        rewrite <- Fx. by left. }
      assert (Hin1 : y ∈ l1).
      { apply list_elem_of_In.
        apply (proj1 (filter_In (ties compareFn y) y l1)).
        rewrite Fy. by left. }
      pose proof (proj1 (Forall_forall _ _) Hx1 y Hin1) as Hb1.
      pose proof (proj1 (Forall_forall _ _) Hy2 x Hin2) as Hb2.
      unfold ties in Exy. simpl in Hb1, Hb2. by rewrite Hb1, Hb2 in Exy. }
    subst y. f_equal. apply IH; try done.
    intros z Hz. specialize (Hfilter z Hz). simpl in Hfilter.
    destruct (ties compareFn z x); by simplify_eq.
Qed.
End unique.

Lemma byFloatValueDesc_after (x y : Entry.t) :
  comes_after byFloatValueDesc x y
  = num_lt (Entry.floatValue x) (Entry.floatValue y).
Proof. unfold comes_after, byFloatValueDesc. apply num_pos_sub. Qed.

Lemma num_lt_irrefl (a : num) : num_lt a a = false.
Proof.
  destruct a as [| |x|]; try done.
  apply num_lt_Fin_false. apply Qle_refl.
Qed.

Lemma num_le_not_lt (a b : num) : num_le b a -> num_lt a b = false.
Proof.
  destruct a as [| |x|], b as [| |y|]; simpl; try done.
  intros Hle. by apply negb_false_iff, Qle_bool_iff.
Qed.

(** The ranking before the cut is the only sorted, stable arrangement of
    the entries. *)
Lemma js_sort_byFloatValueDesc_unique (entries sorted : list Entry.t) :
  Forall (fun e => Entry.floatValue e <> NaN) entries ->
  Forall (fun e => Entry.floatValue e <> NaN) sorted ->
  StronglySorted (fun a b => num_le (Entry.floatValue b) (Entry.floatValue a))
                 sorted ->
  (forall x, Entry.floatValue x <> NaN ->
     List.filter (ties byFloatValueDesc x) sorted
     = List.filter (ties byFloatValueDesc x) entries) ->
  sorted = js_sort byFloatValueDesc entries.
Proof.
  intros Hok Hok' Hsorted Hstable.
  assert (Hconv : forall l,
             StronglySorted
               (fun a b => num_le (Entry.floatValue b) (Entry.floatValue a)) l ->
             StronglySorted
               (fun x y => comes_after byFloatValueDesc x y = false) l).
  { intros l. apply StronglySorted_impl. intros x y Hle.
    rewrite byFloatValueDesc_after. by apply num_le_not_lt. }
  apply (sorted_stable_unique byFloatValueDesc
           (fun e => Entry.floatValue e <> NaN)).
  - intros x. rewrite byFloatValueDesc_after. apply num_lt_irrefl.
  - exact Hok'.
  - apply Forall_forall. intros e He. apply js_sort_elem_of in He.
    by apply (proj1 (Forall_forall _ _) Hok).
  - by apply Hconv.
  - apply Hconv.
    apply (js_sort_sorted _ _ (fun e => Entry.floatValue e <> NaN)); [| | |done].
    + intros x y z Hxy Hyz. by apply (num_le_trans _ (Entry.floatValue y)).
    + intros x y. rewrite byFloatValueDesc_after. apply num_lt_le.
    + intros x y Hx Hy. rewrite byFloatValueDesc_after. by apply num_not_lt_le.
  - intros x Hx. rewrite (Hstable x Hx). symmetry. apply js_sort_stable.
    intros y z Hy Hz. unfold ties in Hy, Hz.
    rewrite !byFloatValueDesc_after in *.
    apply (num_tie_not_lt _ _ (Entry.floatValue x) Hx); unfold num_tie.
    + by rewrite andb_comm.
    + by rewrite andb_comm.
Qed.

(** Likewise for the dates: the increasing arrangement is unique. *)
Lemma sortDates_unique (uniqueDates sorted : list Z) :
  sorted ≡ₚ uniqueDates -> StronglySorted Z.le sorted ->
  sorted = sortDates uniqueDates.
Proof.
  intros Hperm Hsorted.
  apply (StronglySorted_unique Z.le); [done|apply sortDates_sorted|].
  by rewrite Hperm, sortDates_Permutation.
Qed.

(** The guard of [mergeOperator] at work: a row with an empty stake leaves
    the last known stake as it was. *)
Example empty_metric_keeps_last_known :
  Frame.stake <$>
    (match @processTimeline sampleBuiltins (<["A" := Meta.mk (JString "A") None]> ∅) false
             [Bucket.mk (day 1) "100" "5" "A"; Bucket.mk (day 2) "" "6" "A"]
             ["A"] with
     | Ok frames => frames
     | Throw _ => []
     end)
  = [[Entry.mk "A" "100" (Fin 100) (Some (JString "A")) None];
     [Entry.mk "A" "100" (Fin 100) (Some (JString "A")) None]].
Proof. reflexivity. Qed.

(** A row of an operator that was not discovered makes the merge fail. *)
Example undiscovered_operator_throws :
  @processTimeline sampleBuiltins ∅ false
    [Bucket.mk (day 1) "100" "5" "Z"] ["A"] = Throw TypeError.
Proof. reflexivity. Qed.

(** * Further properties *)

(** ** The timer table and the pending tick *)

Lemma List_filter_NoDup_fst {B} (p : nat * B -> bool) (l : list (nat * B)) :
  NoDup l.*1 -> NoDup (List.filter p l).*1.
Proof.
  intros Hnd. eapply sublist_NoDup; [exact Hnd|].
  apply fmap_sublist. apply List_filter_sublist.
Qed.

Lemma timersFresh_sub (s s' : State) :
  pendingTimers s' `sublist_of` pendingTimers s ->
  nextTimerId s' = nextTimerId s ->
  timersFresh s -> timersFresh s'.
Proof.
  intros Hsub Hn [Hnd Hlt]. unfold timersFresh. rewrite Hn. split.
  - eapply sublist_NoDup; [exact Hnd|]. by apply fmap_sublist.
  - by eapply Forall_sublist.
Qed.

Lemma delaysKnown_sub (s s' : State) :
  pendingTimers s' `sublist_of` pendingTimers s ->
  delaysKnown s -> delaysKnown s'.
Proof. unfold delaysKnown. intros Hsub Hd. by eapply Forall_sublist. Qed.

Lemma timersFresh_proper (s s' : State) :
  pendingTimers s' = pendingTimers s -> nextTimerId s' = nextTimerId s ->
  timersFresh s -> timersFresh s'.
Proof. unfold timersFresh. by intros -> ->. Qed.

Lemma delaysKnown_proper (s s' : State) :
  pendingTimers s' = pendingTimers s -> delaysKnown s -> delaysKnown s'.
Proof. unfold delaysKnown. by intros ->. Qed.

Lemma renderFrame_timers (index : Z) (s : State) :
  pendingTimers (renderFrame index s) = pendingTimers s /\
  nextTimerId (renderFrame index s) = nextTimerId s /\
  isPlaying (renderFrame index s) = isPlaying s /\
  timer (renderFrame index s) = timer s /\
  currentIndex (renderFrame index s) = currentIndex s /\
  timelineData (renderFrame index s) = timelineData s /\
  playbackSpeed (renderFrame index s) = playbackSpeed s /\
  activeMetric (renderFrame index s) = activeMetric s.
Proof. destruct (renderFrame_state index s) as [-> | ->]; done. Qed.

(** What [loop] does to a state that is playing. *)
Lemma loop_playing (s : State) :
  isPlaying s = true ->
  let s1 := renderFrame (currentIndex s) s in
  (lastIndex s <= currentIndex s /\ loop s = set_isPlaying false s1) \/
  (currentIndex s < lastIndex s /\
   loop s = set_timer (Some (nextTimerId s))
              (set_nextTimerId (S (nextTimerId s))
                 (set_pendingTimers
                    (pendingTimers s ++ [(nextTimerId s, (CbLoop, playbackSpeed s))])
                    (set_currentIndex (currentIndex s + 1) s1)))).
Proof.
  intros Hp s1. unfold loop. rewrite Hp. simpl. fold s1.
  destruct (renderFrame_timers (currentIndex s) s)
    as (Hpt & Hn & _ & _ & Hc & Htl & Hsp & _).
  fold s1 in Hpt, Hn, Hc, Htl, Hsp.
  assert (Hl : lastIndex s1 = lastIndex s) by (unfold lastIndex; by rewrite Htl).
  rewrite Hl, Hc.
  destruct (Z.leb_spec (lastIndex s) (currentIndex s)); [by left|].
  right. split; [done|]. unfold setTimeout. simpl.
  by rewrite Hpt, Hn, Hsp.
Qed.

Lemma timersFresh_push (s s' : State) (cb : Callback) (d : Z) :
  pendingTimers s' = pendingTimers s ++ [(nextTimerId s, (cb, d))] ->
  nextTimerId s' = S (nextTimerId s) ->
  timersFresh s -> timersFresh s'.
Proof.
  intros Hpt Hn [Hnd Hlt]. unfold timersFresh. rewrite Hpt, Hn. split.
  - rewrite fmap_app. simpl. apply NoDup_app. split; [done|].
    split; [|apply NoDup_singleton].
    intros x Hx Hx'. apply list_elem_of_singleton in Hx'. subst x.
    apply list_elem_of_fmap in Hx as ([i c] & Heq & Hin). simpl in Heq. subst i.
    pose proof (proj1 (Forall_forall _ _) Hlt _ Hin) as Hi. simpl in Hi. lia.
  - apply Forall_app. split.
    + eapply Forall_impl; [exact Hlt|]. intros t Ht. simpl in *. lia.
    + apply Forall_singleton. simpl. lia.
Qed.

Lemma loop_keeps (s : State) :
  (timersFresh s -> timersFresh (loop s)) /\
  tickPending (loop s) /\
  (playbackSpeed s = 100 \/ playbackSpeed s = 30 ->
   delaysKnown s -> delaysKnown (loop s)).
Proof.
  destruct (isPlaying s) eqn:Hp.
  - destruct (renderFrame_timers (currentIndex s) s)
      as (Hpt & Hn & _ & _ & _ & _ & _ & _).
    destruct (loop_playing s Hp) as [[_ ->] | [_ ->]].
    + split; [|split].
      * by apply timersFresh_proper.
      * intros Hplay. by simpl in Hplay.
      * intros _. by apply delaysKnown_proper.
    + match goal with
      | |- context [timersFresh ?X] =>
          assert (E : pendingTimers X
                      = pendingTimers s ++ [(nextTimerId s, (CbLoop, playbackSpeed s))])
            by reflexivity;
          assert (En : nextTimerId X = S (nextTimerId s)) by reflexivity;
          assert (Et : timer X = Some (nextTimerId s)) by reflexivity
      end.
      split; [|split].
      * by apply (timersFresh_push s _ CbLoop (playbackSpeed s)).
      * intros _. exists (nextTimerId s), (playbackSpeed s).
        split; [exact Et|]. rewrite E. apply elem_of_app. right. by left.
      * intros Hsp Hd. unfold delaysKnown. rewrite E.
        apply Forall_app. split; [exact Hd|]. by apply Forall_singleton.
  - assert (Hl : loop s = s) by (unfold loop; by rewrite Hp).
    rewrite Hl. split; [done|]. split; [|done].
    intros Hplay. congruence.
Qed.

Section timer_invariants.
Context `{Builtins}.

Lemma refilter_timers (s : State) :
  pendingTimers (refilter s) = pendingTimers s /\
  nextTimerId (refilter s) = nextTimerId s /\
  isPlaying (refilter s) = isPlaying s /\
  timer (refilter s) = timer s /\
  currentIndex (refilter s) = currentIndex s /\
  playbackSpeed (refilter s) = playbackSpeed s.
Proof.
  unfold refilter. case_decide; [|done].
  destruct (processTimeline _ _ _ _) as [frames|e]; [|done].
  destruct (renderFrame_timers (currentIndex s) (set_timelineData frames s))
    as (-> & -> & -> & -> & -> & _ & -> & _). done.
Qed.

Lemma init_timers discovered metas history (s : State) :
  pendingTimers (init discovered metas history s) = pendingTimers s /\
  nextTimerId (init discovered metas history s) = nextTimerId s /\
  isPlaying (init discovered metas history s) = false.
Proof.
  unfold init. destruct discovered as [ids|e]; [|done].
  destruct history as [allBuckets|e]; [|done].
  simpl. destruct (processTimeline _ _ _ _) as [frames|e]; [|done].
  match goal with
  | |- context [renderFrame ?i ?u] =>
      destruct (renderFrame_timers i u) as (-> & -> & -> & _)
  end.
  by case_decide.
Qed.

Lemma find_timer_elem_of (id : nat) (l : list (nat * (Callback * Z)))
    (t : nat * (Callback * Z)) :
  List.find (fun x => Nat.eqb (fst x) id) l = Some t -> t ∈ l /\ t.1 = id.
Proof.
  intros Hf. apply find_some in Hf as [Hin Heq].
  split; [by apply list_elem_of_In|]. by apply Nat.eqb_eq in Heq.
Qed.

Lemma NoDup_fst_eq {B} (l : list (nat * B)) (i : nat) (x y : B) :
  NoDup l.*1 -> (i, x) ∈ l -> (i, y) ∈ l -> x = y.
Proof.
  induction l as [|[j z] l IH]; intros Hnd Hx Hy; [by apply elem_of_nil in Hx|].
  simpl in Hnd. apply NoDup_cons in Hnd as [Hj Hnd].
  apply elem_of_cons in Hx as [Hx|Hx], Hy as [Hy|Hy]; simplify_eq; try done.
  - exfalso. apply Hj. apply list_elem_of_fmap. by exists (j, y).
  - exfalso. apply Hj. apply list_elem_of_fmap. by exists (j, x).
  - by apply IH.
Qed.

Lemma step_keeps (s : State) (e : Event) :
  timersFresh s /\ tickPending s /\ delaysKnown s /\
  (playbackSpeed s = 100 \/ playbackSpeed s = 30) ->
  timersFresh (step s e) /\ tickPending (step s e) /\ delaysKnown (step s e).
Proof.
  intros (Hfresh & Htick & Hdelays & Hspeed).
  destruct e as [discovered metas history| | | |value|metric| |id]; simpl.
  - (* init *)
    destruct (init_timers discovered metas history s) as (Hpt & Hn & Hp).
    split; [by apply (timersFresh_proper s)|]. split.
    + intros Hplay. congruence.
    + by apply (delaysKnown_proper s).
  - (* togglePlay *)
    unfold togglePlay. simpl. destruct (isPlaying s) eqn:Hp; simpl.
    + split; [|split].
      * unfold clearTimeout. destruct (timer s); [|done].
        apply (timersFresh_sub s); [apply List_filter_sublist|done|done].
      * intros Hplay. unfold clearTimeout in Hplay.
        by destruct (timer s); simpl in Hplay.
      * unfold clearTimeout. destruct (timer s); [|done].
        apply (delaysKnown_sub s); [apply List_filter_sublist|done].
    + match goal with
      | |- context [loop ?u] =>
          destruct (loop_keeps u) as (H1 & H2 & H3)
      end.
      split; [|split; [exact H2|]].
      * apply H1. by case_match.
      * apply H3; by case_match.
  - (* toggleSpeed *)
    by unfold toggleSpeed.
  - (* toggleFilter *)
    unfold toggleFilter. split; [|split].
    + by apply (timersFresh_push s _ CbRefilter 50).
    + intros Hplay. simpl in Hplay. destruct (Htick Hplay) as (i & d & Ht & Hin).
      exists i, d. simpl. split; [done|]. apply elem_of_app. by left.
    + unfold delaysKnown. simpl. apply Forall_app. split; [exact Hdelays|].
      by apply Forall_singleton.
  - (* slider *)
    unfold sliderInput. simpl.
    match goal with
    | |- context [renderFrame ?i ?u] =>
        destruct (renderFrame_timers i u) as (Hpt & Hn & Hp & _)
    end.
    split; [by apply (timersFresh_proper s)|]. split.
    + intros Hplay. rewrite Hp in Hplay. by simpl in Hplay.
    + by apply (delaysKnown_proper s).
  - (* setMetric *)
    unfold setMetric. simpl.
    match goal with
    | |- context [renderFrame ?i ?u] =>
        destruct (renderFrame_timers i u) as (Hpt & Hn & Hp & Ht & _)
    end.
    split; [by apply (timersFresh_proper s)|]. split.
    + intros Hplay. rewrite Hp in Hplay. simpl in Hplay.
      destruct (Htick Hplay) as (i & d & Hti & Hin).
      exists i, d. by rewrite Ht, Hpt.
    + by apply (delaysKnown_proper s).
  - (* stop *)
    unfold stop. simpl. destruct (timer s) as [i|] eqn:Ht; simpl.
    + split; [apply (timersFresh_sub s); [apply List_filter_sublist|done|done]|].
      split; [by intros ?|].
      apply (delaysKnown_sub s); [apply List_filter_sublist|done].
    + split; [done|]. split; [by intros ?|done].
  - (* a timer fires *)
    unfold fireTimer.
    destruct (List.find _ (pendingTimers s)) as [[i [cb d]]|] eqn:Hfind; [|done].
    apply find_timer_elem_of in Hfind as [Hin Hi]. simpl in Hi. subst i.
    set (s1 := set_pendingTimers
                 (List.filter (fun t => negb (Nat.eqb (fst t) id)) (pendingTimers s)) s).
    assert (Hfresh1 : timersFresh s1)
      by (apply (timersFresh_sub s); [apply List_filter_sublist|done|done]).
    assert (Hdelays1 : delaysKnown s1)
      by (apply (delaysKnown_sub s); [apply List_filter_sublist|done]).
    destruct cb.
    + destruct (loop_keeps s1) as (H1 & H2 & H3). auto.
    + destruct (refilter_timers s1) as (Hpt & Hn & Hp & Ht & _).
      split; [by apply (timersFresh_proper s1)|]. split.
      * intros Hplay. rewrite Hp in Hplay. simpl in Hplay.
        destruct (Htick Hplay) as (i & d' & Hti & Hin').
        exists i, d'. rewrite Ht, Hpt. simpl. split; [done|].
        apply list_elem_of_In, filter_In. split; [by apply list_elem_of_In|].
        simpl. apply negb_true_iff, Nat.eqb_neq. intros ->.
        destruct Hfresh as [Hnd _].
        pose proof (NoDup_fst_eq _ _ _ _ Hnd Hin Hin'). done.
      * by apply (delaysKnown_proper s1).
Qed.

Lemma reachable_timers (s : State) :
  reachable s -> timersFresh s /\ tickPending s /\ delaysKnown s.
Proof.
  intros [events ->].
  induction events as [|e events IH] using rev_ind.
  - split; [|split].
    + split; simpl; constructor.
    + by intros ?.
    + constructor.
  - rewrite run_snoc. apply step_keeps.
    destruct IH as (H1 & H2 & H3).
    split; [exact H1|]. split; [exact H2|]. split; [exact H3|].
    apply reachable_speed. by exists events.
Qed.
End timer_invariants.

(** ** Playback from play to the last frame *)

Lemma indicesFrom_cons (from : Z) (count : nat) :
  indicesFrom from (S count) = from :: indicesFrom (from + 1) count.
Proof.
  unfold indicesFrom. simpl. f_equal; [lia|].
  rewrite <- fmap_S_seq, <- list_fmap_compose.
  apply list_fmap_ext. intros _ k _. simpl. lia.
Qed.

Section playback_runs.
Context `{Builtins}.

Lemma find_pending_tick (s : State) (id : nat) (cb : Callback) (d : Z) :
  timersFresh s -> (id, (cb, d)) ∈ pendingTimers s ->
  List.find (fun x => Nat.eqb (fst x) id) (pendingTimers s) = Some (id, (cb, d)).
Proof.
  intros [Hnd _] Hin.
  destruct (List.find _ (pendingTimers s)) as [[i c]|] eqn:Hfind.
  - apply find_timer_elem_of in Hfind as [Hin' Hi]. simpl in Hi. subst i.
    by rewrite (NoDup_fst_eq _ _ _ _ Hnd Hin' Hin).
  - pose proof (find_none _ _ Hfind (id, (cb, d))
                  (proj1 (list_elem_of_In _ _) Hin)) as Hno.
    simpl in Hno. by rewrite Nat.eqb_refl in Hno.
Qed.

(** From a state in which [loop] is about to run with playback on, the
    loop and the ticks that follow draw the frames from the current one
    to the last one, in order, and playback stops there. *)
Lemma loop_runs_to_end (n : nat) :
  forall u : State,
    isPlaying u = true -> timersFresh u ->
    0 <= currentIndex u ->
    lastIndex u - currentIndex u = Z.of_nat n ->
    let u' := Nat.iter n tick (loop u) in
    rendered u'
      = rendered u ++ ((fun i => (i, activeMetric u)) <$>
                         indicesFrom (currentIndex u) (S n)) /\
    isPlaying u' = false /\
    currentIndex u' = lastIndex u /\
    timelineData u' = timelineData u /\
    activeMetric u' = activeMetric u.
Proof.
  induction n as [|n IH]; intros u Hp Hfresh Hc Hn; cbv zeta in *.
  - simpl. destruct (loop_playing u Hp) as [[_ ->] | [Hlt _]]; [|lia].
    rewrite renderFrame_in_range by lia. simpl.
    unfold indicesFrom. simpl. rewrite Z.add_0_r.
    repeat split; try done. lia.
  - rewrite Nat.iter_succ_r.
    destruct (loop_playing u Hp) as [[Hle _] | [Hlt Hloop]]; [lia|].
    rewrite renderFrame_in_range in Hloop by lia.
    set (X := loop u) in *.
    assert (HXt : timer X = Some (nextTimerId u)) by by rewrite Hloop.
    assert (HXp : pendingTimers X
                  = pendingTimers u ++ [(nextTimerId u, (CbLoop, playbackSpeed u))])
      by by rewrite Hloop.
    assert (HXn : nextTimerId X = S (nextTimerId u)) by by rewrite Hloop.
    assert (HXfresh : timersFresh X)
      by by apply (timersFresh_push u X CbLoop (playbackSpeed u)).
    assert (Htick : tick X
                    = loop (set_pendingTimers
                              (List.filter
                                 (fun t => negb (Nat.eqb (fst t) (nextTimerId u)))
                                 (pendingTimers X)) X)).
    { unfold tick. rewrite HXt. unfold fireTimer.
      rewrite (find_pending_tick X (nextTimerId u) CbLoop (playbackSpeed u));
        [done|done|].
      rewrite HXp. apply elem_of_app. right. by left. }
    rewrite Htick.
    set (u2 := set_pendingTimers _ X).
    assert (H2p : isPlaying u2 = true) by (subst u2 X; by rewrite Hloop).
    assert (H2c : currentIndex u2 = currentIndex u + 1)
      by (subst u2 X; by rewrite Hloop).
    assert (H2l : lastIndex u2 = lastIndex u)
      by (subst u2 X; by rewrite Hloop).
    assert (H2r : rendered u2 = rendered u ++ [(currentIndex u, activeMetric u)])
      by (subst u2 X; by rewrite Hloop).
    assert (H2m : activeMetric u2 = activeMetric u)
      by (subst u2 X; by rewrite Hloop).
    assert (H2t : timelineData u2 = timelineData u)
      by (subst u2 X; by rewrite Hloop).
    assert (H2fresh : timersFresh u2).
    { apply (timersFresh_sub X); [apply List_filter_sublist|done|done]. }
    destruct (IH u2 H2p H2fresh ltac:(lia) ltac:(lia))
      as (Hr & Hstop & Hidx & Htl & Hm).
    rewrite Hr, Hstop, Hidx, Htl, Hm, H2r, H2c, H2l, H2m, H2t.
    rewrite (indicesFrom_cons (currentIndex u) (S n)).
    rewrite fmap_cons, <- app_assoc. done.
Qed.
End playback_runs.

(** X1. Pressing play on a loaded timeline draws the frames from the
    current one (from the first one when the index is at or past the
    end) to the last one, one per tick and in order, and playback then
    stops on the last frame.  Drawing a frame is taken to succeed, as in
    the whole model of the playback. *)
Theorem play_draws_to_the_end `{Builtins} (s : State) :
  reachable s ->
  isPlaying s = false ->
  0 <= currentIndex s ->
  0 <= lastIndex s ->
  let start := if lastIndex s <=? currentIndex s then 0 else currentIndex s in
  let n := Z.to_nat (lastIndex s - start) in
  let s' := Nat.iter n tick (togglePlay s) in
  rendered s'
    = rendered s ++ ((fun i => (i, activeMetric s)) <$> indicesFrom start (S n)) /\
  isPlaying s' = false /\
  currentIndex s' = lastIndex s /\
  timelineData s' = timelineData s.
Proof.
  intros Hreach Hstop Hc Hl start n s'. subst s'.
  destruct (reachable_timers s Hreach) as (Hfresh & _ & _).
  set (u := if lastIndex s <=? currentIndex s
            then set_currentIndex 0 (set_isPlaying true s)
            else set_isPlaying true s).
  assert (Htoggle : togglePlay s = loop u).
  { unfold togglePlay. rewrite Hstop. simpl. subst u.
    assert (E : lastIndex (set_isPlaying true s) = lastIndex s) by done.
    rewrite E. by destruct (lastIndex s <=? currentIndex s). }
  assert (Hu : isPlaying u = true /\ timersFresh u /\ currentIndex u = start /\
               lastIndex u = lastIndex s /\ rendered u = rendered s /\
               activeMetric u = activeMetric s /\ timelineData u = timelineData s).
  { subst u start. destruct (lastIndex s <=? currentIndex s);
      (split; [done|]; split; [by apply (timersFresh_proper s)|]; done). }
  destruct Hu as (Hup & Hufresh & Huc & Hul & Hur & Hum & Hut).
  assert (Hstart : 0 <= start <= lastIndex s).
  { subst start. destruct (Z.leb_spec (lastIndex s) (currentIndex s)); lia. }
  rewrite Htoggle.
  destruct (loop_runs_to_end n u Hup Hufresh ltac:(lia) ltac:(lia))
    as (Hr & Hp & Hi & Ht & _).
  rewrite Hr, Hp, Hi, Ht, Hur, Huc, Hul, Hum, Hut. done.
Qed.

Lemma sampleState_reachable : @reachable sampleBuiltins sampleState.
Proof.
  exists [EInit (Ok sampleIds) (map_to_list sampleMeta) (Ok sampleBuckets)].
  reflexivity.
Qed.

Lemma play_draws_to_the_end_witness :
  rendered (Nat.iter 2 (@tick sampleBuiltins) (togglePlay sampleState))
  = rendered sampleState ++ [(0, Stake); (1, Stake); (2, Stake)] /\
  isPlaying (Nat.iter 2 (@tick sampleBuiltins) (togglePlay sampleState)) = false.
Proof.
  destruct (@play_draws_to_the_end sampleBuiltins sampleState)
    as (Hr & Hp & _).
  - apply sampleState_reachable.
  - reflexivity.
  - by vm_compute.
  - by vm_compute.
  - split; [exact Hr | exact Hp].
Defined.

(** X2. In every reachable state the timer handles are distinct, a
    pending tick waits 100 or 30 ms, and while playback is on the tick
    kept in [state.timer] is pending: as long as drawing a frame
    succeeds, playback never stalls without a scheduled tick. *)
Theorem playing_has_a_pending_tick `{Builtins} (s : State) :
  reachable s ->
  NoDup (pendingTimers s).*1 /\
  (forall id delay, (id, (CbLoop, delay)) ∈ pendingTimers s ->
     delay = 100 \/ delay = 30) /\
  (isPlaying s = true ->
   exists id delay,
     timer s = Some id /\ (id, (CbLoop, delay)) ∈ pendingTimers s /\
     List.find (fun x => Nat.eqb (fst x) id) (pendingTimers s)
       = Some (id, (CbLoop, delay))).
Proof.
  intros Hreach. destruct (reachable_timers s Hreach) as (Hfresh & Htick & Hd).
  split; [apply Hfresh|]. split.
  - intros id delay Hin.
    by apply (proj1 (Forall_forall _ _) Hd (id, (CbLoop, delay))).
  - intros Hp. destruct (Htick Hp) as (id & delay & Ht & Hin).
    exists id, delay. split; [done|]. split; [done|].
    by apply find_pending_tick.
Qed.

Lemma playing_has_a_pending_tick_witness :
  exists id delay,
    timer (togglePlay sampleState) = Some id /\
    (id, (CbLoop, delay)) ∈ pendingTimers (togglePlay sampleState).
Proof.
  destruct (@playing_has_a_pending_tick sampleBuiltins (togglePlay sampleState))
    as (_ & _ & Htick).
  - exists [EInit (Ok sampleIds) (map_to_list sampleMeta) (Ok sampleBuckets);
            ETogglePlay]. reflexivity.
  - destruct Htick as (id & delay & Ht & Hin & _); [reflexivity|].
    exists id, delay. split; [exact Ht | exact Hin].
Defined.

(** ** Ticks while playback is off *)

Section inert.
Context `{Builtins}.

Lemma fireTimer_stopped (id : nat) (s : State) :
  isPlaying s = false -> onlyTicksPending s ->
  isPlaying (fireTimer id s) = false /\
  onlyTicksPending (fireTimer id s) /\
  rendered (fireTimer id s) = rendered s /\
  currentIndex (fireTimer id s) = currentIndex s /\
  timelineData (fireTimer id s) = timelineData s /\
  timer (fireTimer id s) = timer s.
Proof.
  intros Hp Honly. unfold fireTimer.
  destruct (List.find _ (pendingTimers s)) as [[i [cb d]]|] eqn:Hfind; [|done].
  apply find_timer_elem_of in Hfind as [Hin _].
  pose proof (proj1 (Forall_forall _ _) Honly _ Hin) as Hcb. simpl in Hcb.
  subst cb. unfold loop. simpl. rewrite Hp. simpl.
  repeat split; try done.
  unfold onlyTicksPending. simpl.
  eapply Forall_sublist; [apply List_filter_sublist|exact Honly].
Qed.

Lemma ticks_stopped (ids : list nat) :
  forall s : State,
    isPlaying s = false -> onlyTicksPending s ->
    isPlaying (run (ETimer <$> ids) s) = false /\
    rendered (run (ETimer <$> ids) s) = rendered s /\
    currentIndex (run (ETimer <$> ids) s) = currentIndex s /\
    timelineData (run (ETimer <$> ids) s) = timelineData s /\
    timer (run (ETimer <$> ids) s) = timer s.
Proof.
  induction ids as [|id ids IH]; intros s Hp Honly; [done|].
  destruct (fireTimer_stopped id s Hp Honly) as (Hp' & Honly' & Hr & Hc & Ht & Hti).
  destruct (IH (fireTimer id s) Hp' Honly') as (H1 & H2 & H3 & H4 & H5).
  change (run (ETimer <$> id :: ids) s)
    with (run (ETimer <$> ids) (fireTimer id s)).
  rewrite H1, H2, H3, H4, H5. done.
Qed.
End inert.

(** X3. While playback is off a firing tick only leaves the timer table.
    After [stop()], and after a move of the slider, the ticks still
    pending draw nothing and move nothing, in whatever number and order
    they fire. *)
Theorem pending_ticks_are_inert_when_stopped `{Builtins}
    (s : State) (value : Z) (ids : list nat) :
  onlyTicksPending s ->
  (let stopped := stop s in
   let later := run (ETimer <$> ids) stopped in
   isPlaying later = false /\ rendered later = rendered s /\
   currentIndex later = currentIndex s /\ timelineData later = timelineData s) /\
  (let sought := sliderInput value s in
   let later := run (ETimer <$> ids) sought in
   isPlaying later = false /\ rendered later = rendered sought /\
   currentIndex later = value /\ timelineData later = timelineData s).
Proof.
  intros Honly. split.
  - assert (Hstop : isPlaying (stop s) = false /\ onlyTicksPending (stop s) /\
                    rendered (stop s) = rendered s /\
                    currentIndex (stop s) = currentIndex s /\
                    timelineData (stop s) = timelineData s).
    { unfold stop. simpl. destruct (timer s); simpl; repeat split; try done.
      unfold onlyTicksPending. simpl.
      eapply Forall_sublist; [apply List_filter_sublist|exact Honly]. }
    destruct Hstop as (Hp & Ho & Hr & Hc & Ht).
    destruct (ticks_stopped ids (stop s) Hp Ho) as (H1 & H2 & H3 & H4 & _).
    cbv zeta. by rewrite H1, H2, H3, H4, Hr, Hc, Ht.
  - assert (Hseek : isPlaying (sliderInput value s) = false /\
                    onlyTicksPending (sliderInput value s) /\
                    currentIndex (sliderInput value s) = value /\
                    timelineData (sliderInput value s) = timelineData s).
    { unfold sliderInput. simpl.
      match goal with
      | |- context [renderFrame ?i ?u] =>
          destruct (renderFrame_timers i u) as (Hpt & _ & Hp & _ & Hc & Ht & _)
      end.
      unfold onlyTicksPending. rewrite Hpt, Hp, Hc, Ht. done. }
    destruct Hseek as (Hp & Ho & Hc & Ht).
    destruct (ticks_stopped ids (sliderInput value s) Hp Ho)
      as (H1 & H2 & H3 & H4 & _).
    cbv zeta. by rewrite H1, H2, H3, H4, Hc, Ht.
Qed.

Lemma pending_ticks_are_inert_when_stopped_witness :
  rendered (@run sampleBuiltins [ETimer 1%nat; ETimer 1%nat]
              (stop (togglePlay sampleState)))
  = rendered (togglePlay sampleState).
Proof.
  destruct (@pending_ticks_are_inert_when_stopped sampleBuiltins
              (togglePlay sampleState) 0 [1%nat; 1%nat]) as [(_ & Hr & _) _].
  - unfold onlyTicksPending. by vm_compute; repeat constructor.
  - exact Hr.
Defined.

(** ** What [processTimeline] can throw *)

Lemma bind_Throw {A B : Type} (r : result A) (k : A -> result B) (e : Error) :
  r ≫= k = Throw e ->
  r = Throw e \/ exists a, r = Ok a /\ k a = Throw e.
Proof. destruct r as [a|e']; simpl; [eauto|]. intros [= <-]. by left. Qed.

Lemma mergeOperator_Throw (lkv : gmap string Values.t)
    (kv : string * Values.t) (e : Error) :
  mergeOperator lkv kv = Throw e -> e = TypeError.
Proof.
  destruct kv as [opId v]. unfold mergeOperator, setStake, setEarnings.
  intros [Hs | (lkv1 & _ & He)]%bind_Throw.
  - destruct (truthy (Values.stake v)); [|done].
    destruct (lkv !! opId); [done|]. by simplify_eq.
  - destruct (truthy (Values.earnings v)); [|done].
    destruct (lkv1 !! opId); [done|]. by simplify_eq.
Qed.

Lemma mergeDay_Throw (daysData : option DayData) (e : Error) :
  forall lkv, mergeDay lkv daysData = Throw e -> e = TypeError.
Proof.
  destruct daysData as [o|]; [|done]. simpl.
  induction o as [|kv o IH]; intros lkv; [done|]. cbn [forEachM].
  intros [Hs | (lkv1 & _ & He)]%bind_Throw.
  - by apply mergeOperator_Throw in Hs.
  - by apply IH in He.
Qed.

Section throws.
Context `{Builtins}.
Context (operatorMetaMap : gmap string Meta.t) (filterDeprecated : bool).

Lemma filter_Throw (operatorIds : list string) (e : Error) :
  filterR (isValidOperator operatorMetaMap filterDeprecated) operatorIds
    = Throw e ->
  e = TypeError.
Proof.
  intros (id & _ & Hid)%filterR_Throw.
  by apply isValidOperator_Throw in Hid as [-> _].
Qed.

Lemma ranking_Throw (metric : Metric) (lkv : gmap string Values.t)
    (ids : list string) (e : Error) :
  ranking operatorMetaMap metric lkv ids = Throw e -> e = TypeError.
Proof.
  unfold ranking. intros [Hs | (es & _ & He)]%bind_Throw; [|done].
  induction ids as [|id ids IH]; [done|]. cbn [mapR] in Hs.
  apply bind_Throw in Hs as [Hs | (y & _ & Hs)].
  - unfold mkEntry in Hs. destruct (lkv !! id); [done|]. by simplify_eq.
  - apply bind_Throw in Hs as [Hs | (ys & _ & Hs)]; [by apply IH|done].
Qed.

Lemma frameAt_Throw (bucketsByDate : gmap Z DayData)
    (operatorIds : list string) (lkv : gmap string Values.t) (d : Z)
    (e : Error) :
  frameAt operatorMetaMap filterDeprecated bucketsByDate operatorIds lkv d
    = Throw e ->
  e = TypeError.
Proof.
  unfold frameAt. intros Hs.
  apply bind_Throw in Hs as [Hs | (l1 & _ & Hs)];
    [by apply mergeDay_Throw in Hs|].
  apply bind_Throw in Hs as [Hs | (ids & _ & Hs)];
    [by apply filter_Throw in Hs|].
  apply bind_Throw in Hs as [Hs | (rs & _ & Hs)];
    [by apply ranking_Throw in Hs|].
  apply bind_Throw in Hs as [Hs | (re & _ & Hs)];
    [by apply ranking_Throw in Hs|done].
Qed.

Lemma buildFrames_Throw (bucketsByDate : gmap Z DayData)
    (operatorIds : list string) (sortedDates : list Z) (e : Error) :
  forall lkv,
    buildFrames operatorMetaMap filterDeprecated bucketsByDate operatorIds
                lkv sortedDates = Throw e ->
    e = TypeError.
Proof.
  induction sortedDates as [|d ds IH]; intros lkv; [done|].
  cbn [buildFrames].
  intros [Hs | ([lkv1 f] & _ & He)]%bind_Throw.
  - by apply frameAt_Throw in Hs.
  - apply bind_Throw in He as [He | (fs & _ & He)]; [by apply IH in He|done].
Qed.

(** The callback of the filter returns on every operator only when the
    names can be read. *)
Lemma filter_Ok_readable (operatorIds ids : list string) :
  filterR (isValidOperator operatorMetaMap filterDeprecated) operatorIds
    = Ok ids ->
  namesReadable operatorMetaMap filterDeprecated operatorIds.
Proof.
  intros [_ Hall]%filterR_Ok Hfilt id mt Hid Hmt.
  apply (proj1 (Forall_forall _ _) Hall) in Hid as [b Hb].
  unfold isValidOperator in Hb. rewrite Hmt, Hfilt in Hb.
  destruct (Meta.name mt); try done. by eexists.
Qed.

(** With the filter on and a name that is not a string, the first date
    already throws. *)
Lemma buildFrames_unreadable (bucketsByDate : gmap Z DayData)
    (operatorIds : list string) (lkv : gmap string Values.t)
    (sortedDates : list Z) :
  sortedDates <> [] ->
  ~ namesReadable operatorMetaMap filterDeprecated operatorIds ->
  buildFrames operatorMetaMap filterDeprecated bucketsByDate operatorIds
              lkv sortedDates = Throw TypeError.
Proof.
  destruct sortedDates as [|d ds]; [done|]. intros _ Hnot.
  cbn [buildFrames].
  destruct (frameAt _ _ _ _ lkv d) as [[lkv' f]|e] eqn:Hf.
  - exfalso. apply Hnot. apply frameAt_filter in Hf.
    by apply filter_Ok_readable in Hf.
  - apply frameAt_Throw in Hf as ->. done.
Qed.
End throws.

Lemma sortDates_nonempty (buckets : list Bucket.t) :
  buckets <> [] -> sortDates (groupBuckets buckets).2 <> [].
Proof.
  destruct buckets as [|b bs]; [done|]. intros _ Hnil.
  assert (Hin : Bucket.date b ∈ sortDates (groupBuckets (b :: bs)).2).
  { rewrite sortDates_Permutation. apply groupBuckets_dates.
    exists b. split; [left|done]. }
  rewrite Hnil in Hin. by apply elem_of_nil in Hin.
Qed.

Lemma processTimeline_nonempty `{Builtins}
    (operatorMetaMap : gmap string Meta.t) (filterDeprecated : bool)
    (buckets : list Bucket.t) (operatorIds : list string) :
  buckets <> [] ->
  processTimeline operatorMetaMap filterDeprecated buckets operatorIds
  = buildFrames operatorMetaMap filterDeprecated (groupBuckets buckets).1
                operatorIds (seedValues operatorIds)
                (sortDates (groupBuckets buckets).2).
Proof.
  intros Hne. apply sortDates_nonempty in Hne. unfold processTimeline.
  destruct (groupBuckets buckets) as [bucketsByDate uniqueDates]. simpl in *.
  case_decide as Hlen; [|done]. by apply length_zero_iff_nil in Hlen.
Qed.

(** With a row, the filter on and a name that is not a string,
    [processTimeline] throws a [TypeError]. *)
Lemma processTimeline_unreadable `{Builtins}
    (operatorMetaMap : gmap string Meta.t) (filterDeprecated : bool)
    (buckets : list Bucket.t) (operatorIds : list string) :
  buckets <> [] ->
  ~ namesReadable operatorMetaMap filterDeprecated operatorIds ->
  processTimeline operatorMetaMap filterDeprecated buckets operatorIds
  = Throw TypeError.
Proof.
  intros Hne Hnot. rewrite processTimeline_nonempty by done.
  apply buildFrames_unreadable; [by apply sortDates_nonempty|done].
Qed.

Lemma processTimeline_Throw_cases `{Builtins}
    (operatorMetaMap : gmap string Meta.t) (filterDeprecated : bool)
    (buckets : list Bucket.t) (operatorIds : list string) (e : Error) :
  processTimeline operatorMetaMap filterDeprecated buckets operatorIds
    = Throw e ->
  (e = NoDataFound /\ buckets = []) \/
  (e = TypeError /\ buckets <> [] /\
   ((exists b, b ∈ buckets /\ Bucket.operator b ∉ operatorIds) \/
    (filterDeprecated = true /\
     exists id mt, id ∈ operatorIds /\ operatorMetaMap !! id = Some mt /\
                   forall name, Meta.name mt <> JString name))).
Proof.
  intros Hthrow. destruct buckets as [|b0 bs] eqn:Hbs.
  { left. rewrite processTimeline_empty in Hthrow. by simplify_eq. }
  right. rewrite <- Hbs in *.
  assert (Hne : buckets <> []) by (by rewrite Hbs).
  assert (He : e = TypeError).
  { rewrite processTimeline_nonempty in Hthrow by done.
    by apply buildFrames_Throw in Hthrow. }
  split; [done|]. split; [done|].
  destruct (decide (Forall (fun b => Bucket.operator b ∈ operatorIds) buckets))
    as [Hall | Hsome].
  2:{ left. apply not_Forall_Exists in Hsome; [|intros b; apply _].
      apply Exists_exists in Hsome as (b & Hb & Hnot). by exists b. }
  right. rewrite Forall_forall in Hall.
  destruct (decide (Forall (fun id => readable operatorMetaMap id = true)
                           operatorIds)) as [Hread | Hunread].
  - exfalso. rewrite Forall_forall in Hread.
    destruct (processTimeline_succeeds operatorMetaMap filterDeprecated
                buckets operatorIds Hall) as (frames & Hok & _); [|done|congruence].
    intros _ id mt Hid Hmt. specialize (Hread id Hid).
    unfold readable in Hread. rewrite Hmt in Hread.
    destruct (Meta.name mt); try done. by eexists.
  - destruct filterDeprecated.
    2:{ exfalso.
        destruct (processTimeline_succeeds operatorMetaMap false
                    buckets operatorIds Hall) as (frames & Hok & _);
          [done|done|congruence]. }
    split; [done|].
    apply not_Forall_Exists in Hunread; [|intros id; apply _].
    apply Exists_exists in Hunread as (id & Hid & Hnot).
    unfold compose, readable in Hnot.
    destruct (operatorMetaMap !! id) as [mt|] eqn:Hmt; [|by destruct Hnot].
    exists id, mt. split; [done|]. split; [done|].
    intros name Hname. rewrite Hname in Hnot. by destruct Hnot.
Qed.

(** X8. [processTimeline] throws in three situations only: its own "No
    data found" error, exactly when there is no row at all, and a
    [TypeError] of the engine, either when some row belongs to an operator
    that is not among the discovered ones (its entry of [lastKnownValues]
    is undefined), or when the filter is on and the stored name of a
    discovered operator is not a string (it has no [toLowerCase]).  The
    last situation always throws when there is a row. *)
Theorem processTimeline_throws `{Builtins}
    (operatorMetaMap : gmap string Meta.t) (filterDeprecated : bool)
    (buckets : list Bucket.t) (operatorIds : list string) :
  (forall e,
     processTimeline operatorMetaMap filterDeprecated buckets operatorIds
       = Throw e ->
     (e = NoDataFound /\ buckets = []) \/
     (e = TypeError /\ buckets <> [] /\
      ((exists b, b ∈ buckets /\ Bucket.operator b ∉ operatorIds) \/
       (filterDeprecated = true /\
        exists id mt, id ∈ operatorIds /\ operatorMetaMap !! id = Some mt /\
                      forall name, Meta.name mt <> JString name)))) /\
  (buckets = [] ->
   processTimeline operatorMetaMap filterDeprecated buckets operatorIds
     = Throw NoDataFound) /\
  (buckets <> [] -> filterDeprecated = true ->
   forall id mt, id ∈ operatorIds -> operatorMetaMap !! id = Some mt ->
     (forall name, Meta.name mt <> JString name) ->
     processTimeline operatorMetaMap filterDeprecated buckets operatorIds
       = Throw TypeError).
Proof.
  split; [intros e; apply processTimeline_Throw_cases|]. split.
  - intros ->. apply processTimeline_empty.
  - intros Hne Hfilt id mt Hid Hmt Hname.
    apply processTimeline_unreadable; [done|].
    intros Hread. destruct (Hread Hfilt id mt Hid Hmt) as [name Hn].
    by apply (Hname name).
Qed.

Lemma processTimeline_throws_witness :
  @processTimeline sampleBuiltins
    (<["A" := Meta.mk (JNumber (Fin 7)) None]> ∅) true
    [Bucket.mk (day 1) "100" "0" "A"] ["A"]
  = Throw TypeError.
Proof.
  apply (proj2 (proj2 (@processTimeline_throws sampleBuiltins
                         (<["A" := Meta.mk (JNumber (Fin 7)) None]> ∅) true
                         [Bucket.mk (day 1) "100" "0" "A"] ["A"]))
           ltac:(discriminate) eq_refl "A" (Meta.mk (JNumber (Fin 7)) None)).
  - by left.
  - reflexivity.
  - intros name. discriminate.
Defined.

(** ** Loading *)

(** X4. When the history has at least one row and every row belongs to a
    discovered operator, [init] ends in one of two ways.  When the filter
    is off, or the name of every discovered operator is a string, it ends
    with the rebuilt timeline, stopped, on its last frame, which it draws
    once; speed, metric and filter are kept.  Otherwise [processTimeline]
    throws a [TypeError] and the timeline stays empty.  When discovery or
    the history fails, or the history is empty, the timeline is empty, the
    index is 0 and nothing is drawn. *)
Theorem init_opens_on_the_last_frame `{Builtins}
    (operatorIds : list string) (metas : list (string * Meta.t))
    (allBuckets : list Bucket.t) (s : State) :
  allBuckets <> [] ->
  (forall b, b ∈ allBuckets -> Bucket.operator b ∈ operatorIds) ->
  (let s' := init (Ok operatorIds) metas (Ok allBuckets) s in
   namesReadable (operatorMetaMap s') (filterDeprecated s) operatorIds ->
   processTimeline (operatorMetaMap s') (filterDeprecated s) allBuckets
                   operatorIds = Ok (timelineData s') /\
   timelineData s' <> [] /\
   currentIndex s' = lastIndex s' /\
   isPlaying s' = false /\
   rendered s' = rendered s ++ [(lastIndex s', activeMetric s)] /\
   rawBuckets s' = allBuckets /\ allOperatorIds s' = operatorIds /\
   playbackSpeed s' = playbackSpeed s /\ activeMetric s' = activeMetric s /\
   filterDeprecated s' = filterDeprecated s) /\
  (let s' := init (Ok operatorIds) metas (Ok allBuckets) s in
   ~ namesReadable (operatorMetaMap s') (filterDeprecated s) operatorIds ->
   processTimeline (operatorMetaMap s') (filterDeprecated s) allBuckets
                   operatorIds = Throw TypeError /\
   timelineData s' = [] /\ currentIndex s' = 0 /\ isPlaying s' = false /\
   rendered s' = rendered s /\
   rawBuckets s' = allBuckets /\ allOperatorIds s' = operatorIds /\
   filterDeprecated s' = filterDeprecated s) /\
  (forall discovered history,
     (exists e, discovered = Throw e) \/ (exists e, history = Throw e) \/
     history = Ok [] ->
     let s' := init discovered metas history s in
     timelineData s' = [] /\ currentIndex s' = 0 /\ isPlaying s' = false /\
     rendered s' = rendered s).
Proof.
  intros Hne Hrows.
  assert (Hmeta : operatorMetaMap (init (Ok operatorIds) metas (Ok allBuckets) s)
                  = fold_left (fun m kv => <[fst kv := snd kv]> m) metas
                              (operatorMetaMap s)).
  { unfold init. simpl. destruct (processTimeline _ _ _ _); [|done].
    simpl. case_decide;
      match goal with
      | |- context [renderFrame ?i ?u] =>
          by destruct (renderFrame_state i u) as [-> | ->]
      end. }
  split; [|split].
  - cbv zeta. rewrite Hmeta. intros Hnames. unfold init. simpl.
    set (meta := fold_left _ metas (operatorMetaMap s)) in *.
    destruct (processTimeline_succeeds meta (filterDeprecated s) allBuckets
                operatorIds Hrows Hnames Hne) as (frames & Hframes & Hnonempty).
    rewrite Hframes.
    assert (Hlen : (0 < length frames)%nat).
    { destruct frames; [done|simpl; lia]. }
    rewrite decide_True by done.
    rewrite renderFrame_in_range
      by (unfold lastIndex; simpl; lia).
    simpl. repeat split; done.
  - cbv zeta. rewrite Hmeta. intros Hnames. unfold init. simpl.
    set (meta := fold_left _ metas (operatorMetaMap s)) in *.
    rewrite (processTimeline_unreadable meta _ _ _ Hne Hnames).
    repeat split; done.
  - intros discovered history Hfail. cbv zeta. unfold init.
    destruct Hfail as [[e ->] | [[e ->] | ->]].
    + done.
    + by destruct discovered.
    + destruct discovered as [ids|e]; [|done].
      cbv beta iota zeta. rewrite processTimeline_empty. done.
Qed.

Lemma init_opens_on_the_last_frame_witness :
  currentIndex sampleState = lastIndex sampleState /\
  rendered sampleState = [(lastIndex sampleState, Stake)].
Proof.
  destruct (@init_opens_on_the_last_frame sampleBuiltins sampleIds
              (map_to_list sampleMeta) sampleBuckets initialState)
    as [Hok _].
  - discriminate.
  - intros b Hb. unfold sampleBuckets in Hb.
    repeat (apply elem_of_cons in Hb as [->|Hb];
            [apply (bool_decide_unpack _); by vm_compute|]).
    by apply elem_of_nil in Hb.
  - destruct Hok as (_ & _ & Hc & _ & Hr & _); [done|].
    split; [exact Hc | exact Hr].
Defined.

(** ** The deprecation filter *)

Lemma prefix_spec (w s : string) :
  String.prefix w s = true <-> exists post, s = w +:+ post.
Proof.
  revert s. induction w as [|c w IH]; intros s.
  - split; [by exists s|]. intros _. by destruct s.
  - destruct s as [|c' s]; simpl; [split; [done|by intros (post & ?)]|].
    destruct (Ascii.ascii_dec c c') as [->|Hne].
    + rewrite IH. split; intros (post & Hs); exists post.
      * change (String c' w +:+ post) with (String c' (w +:+ post)).
        by rewrite Hs.
      * change (String c' w +:+ post) with (String c' (w +:+ post)) in Hs.
        by injection Hs.
    + split; [done|]. intros (post & Hs).
      change (String c w +:+ post) with (String c (w +:+ post)) in Hs.
      by injection Hs.
Qed.

(** [includes] is the substring test. *)
Lemma includes_spec (s w : string) :
  includes s w = true <-> exists pre post, s = pre +:+ w +:+ post.
Proof.
  induction s as [|c s IH]; cbn [includes]; rewrite orb_true_iff, prefix_spec.
  - split.
    + intros [(post & Hs)|?]; [|done]. by exists "", post.
    + intros (pre & post & Hs). left. destruct pre; [by exists post|done].
  - rewrite IH. split.
    + intros [(post & Hs)|(pre & post & Hs)].
      * by exists "", post.
      * exists (String c pre), post. by rewrite Hs.
    + intros (pre & post & Hs). destruct pre as [|c' pre].
      * left. by exists post.
      * right. change (String c' pre +:+ w +:+ post)
          with (String c' (pre +:+ w +:+ post)) in Hs.
        injection Hs as -> ->. by exists pre, post.
Qed.

Lemma isDeprecated_spec (name : string) :
  isDeprecated name = false <->
  forall word pre post,
    word ∈ blacklist -> toLowerCase name <> pre +:+ word +:+ post.
Proof.
  unfold isDeprecated. split.
  - intros Hex word pre post Hw Heq.
    assert (Hinc : includes (toLowerCase name) word = true)
      by (apply includes_spec; eauto).
    assert (Htrue : existsb (fun w => includes (toLowerCase name) w) blacklist = true).
    { apply existsb_exists. exists word. split; [by apply list_elem_of_In|done]. }
    congruence.
  - intros Hall.
    destruct (existsb _ blacklist) eqn:E; [|done].
    apply existsb_exists in E as (word & Hw & Hinc).
    apply includes_spec in Hinc as (pre & post & Heq).
    exfalso. by apply (Hall word pre post (proj2 (list_elem_of_In _ _) Hw)).
Qed.

Section filter.
Context `{Builtins}.
Context (operatorMetaMap : gmap string Meta.t).

Lemma mkEntry_meta (metric : Metric) (lkv : gmap string Values.t)
    (id : string) (e : Entry.t) :
  mkEntry operatorMetaMap metric lkv id = Ok e ->
  Entry.id e = id /\
  Entry.name e = Meta.name <$> operatorMetaMap !! id /\
  Entry.color e = operatorMetaMap !! id ≫= Meta.color.
Proof.
  unfold mkEntry. destruct (lkv !! id) as [r|]; [|done]. by intros [= <-].
Qed.

Lemma isValid_spec (filterDeprecated : bool) (id : string) :
  isValid operatorMetaMap filterDeprecated id = true <->
  exists mt, operatorMetaMap !! id = Some mt /\
             (filterDeprecated = true ->
              exists name, Meta.name mt = JString name /\
                           isDeprecated name = false).
Proof.
  unfold isValid, isValidOperator.
  destruct (operatorMetaMap !! id) as [mt|].
  - destruct filterDeprecated.
    + split.
      * intros Hd. exists mt. split; [done|]. intros _.
        destruct (Meta.name mt) as [| | |name| |]; try done.
        exists name. split; [done|]. by destruct (isDeprecated name).
      * intros (mt' & [= <-] & Hd).
        destruct (Hd eq_refl) as (name & -> & ->). done.
    + split; [by exists mt|done].
  - split; [done|]. by intros (mt & ? & _).
Qed.
End filter.

(** Every ranked entry was made for an operator that passed the filter. *)
Lemma ranked_entry_valid `{Builtins}
    (operatorMetaMap : gmap string Meta.t) (filterDeprecated : bool)
    (buckets : list Bucket.t) (operatorIds : list string)
    (frames : list Frame.t) (f : Frame.t) (m : Metric) (e : Entry.t) :
  processTimeline operatorMetaMap filterDeprecated buckets operatorIds
    = Ok frames ->
  f ∈ frames -> e ∈ Frame.rankings m f ->
  Entry.id e ∈ operatorIds /\
  isValid operatorMetaMap filterDeprecated (Entry.id e) = true /\
  Entry.name e = Meta.name <$> operatorMetaMap !! Entry.id e /\
  Entry.color e = operatorMetaMap !! Entry.id e ≫= Meta.color.
Proof.
  intros Hp Hf He. apply processTimeline_Ok in Hp.
  pose proof (buildFrames_inv operatorMetaMap filterDeprecated
                (groupBuckets buckets).1 operatorIds
                (fun _ _ => True) (fun _ _ => True)
                (fun _ _ _ _ _ _ => conj I I) _ _ _ I Hp) as Hinv.
  apply (proj1 (Forall_forall _ _) Hinv) in Hf as (lkv & _ & Hrank).
  specialize (Hrank m). apply ranking_Ok in Hrank as (entries & Hall & Hrk).
  rewrite Hrk in He.
  assert (He' : e ∈ entries).
  { apply (js_sort_elem_of byFloatValueDesc).
    eapply sublist_elem_of; [apply sublist_take|done]. }
  clear He Hrk Hinv Hp.
  assert (Hid : exists id,
             id ∈ List.filter (isValid operatorMetaMap filterDeprecated)
                              operatorIds /\
             mkEntry operatorMetaMap m lkv id = Ok e).
  { remember (List.filter (isValid operatorMetaMap filterDeprecated)
                          operatorIds) as valid eqn:Hvalid.
    clear Hvalid.
    induction Hall as [|id e0 ids es Hmk _ IH]; [by apply elem_of_nil in He'|].
    apply elem_of_cons in He' as [->|He'].
    - exists id. split; [left|done].
    - destruct (IH He') as (id' & Hin & Hmk'). exists id'. split; [by right|done]. }
  destruct Hid as (id & Hin & Hmk).
  apply mkEntry_meta in Hmk as (Hid & Hname & Hcolor).
  apply list_elem_of_In, filter_In in Hin as [Hin Hvalid].
  rewrite Hid. by split; [apply list_elem_of_In|].
Qed.

(** X5. Every entry of every frame belongs to a discovered operator that
    has metadata, and carries its name and colour; with the filter on,
    the name is a string, and lower-cased it contains none of "old",
    "testnet" and "deprecated". *)
Theorem ranked_entries_pass_the_filter `{Builtins}
    (operatorMetaMap : gmap string Meta.t) (filterDeprecated : bool)
    (buckets : list Bucket.t) (operatorIds : list string)
    (frames : list Frame.t) :
  processTimeline operatorMetaMap filterDeprecated buckets operatorIds
    = Ok frames ->
  forall f m e, f ∈ frames -> e ∈ Frame.rankings m f ->
    Entry.id e ∈ operatorIds /\
    exists mt,
      operatorMetaMap !! Entry.id e = Some mt /\
      Entry.name e = Some (Meta.name mt) /\
      Entry.color e = Meta.color mt /\
      (filterDeprecated = true ->
       exists name,
         Meta.name mt = JString name /\
         forall word pre post,
           word ∈ blacklist ->
           toLowerCase name <> pre +:+ word +:+ post).
Proof.
  intros Hp f m e Hf He.
  destruct (ranked_entry_valid _ _ _ _ _ _ _ _ Hp Hf He)
    as (Hin & Hvalid & Hname & Hcolor).
  apply isValid_spec in Hvalid as (mt & Hmt & Hdep).
  split; [done|].
  exists mt. rewrite Hname, Hcolor, Hmt. repeat split; try done.
  intros Hfilt. destruct (Hdep Hfilt) as (name & Hn & Hd).
  exists name. split; [done|]. by apply isDeprecated_spec.
Qed.

Lemma ranked_entries_pass_the_filter_witness :
  Forall (fun e => Entry.id e ∈ sampleIds) (Frame.stake sampleFrame3).
Proof.
  apply Forall_forall. intros e He.
  by destruct (@ranked_entries_pass_the_filter sampleBuiltins sampleMeta false
                 sampleBuckets sampleIds sampleFrames eq_refl
                 sampleFrame3 Stake e sampleFrame3_elem_of He) as [Hin _].
Defined.

(** ** Rebuilding the timeline after a filter change *)

Lemma forEachM_mergeOperator_dom (o : DayData) :
  forall (lkv lkv' : gmap string Values.t) (id : string),
    forEachM mergeOperator o lkv = Ok lkv' ->
    is_Some (lkv !! id) -> is_Some (lkv' !! id).
Proof.
  induction o as [|[k v] o IH]; intros lkv lkv' id Hm Hid.
  - simpl in Hm. by simplify_eq.
  - cbn [forEachM] in Hm. apply bind_Ok in Hm as (lkv1 & H1 & H2).
    apply (IH _ _ _ H2). by apply (mergeOperator_dom _ _ _ _ _ H1).
Qed.

Lemma mergeDay_dom (lkv lkv' : gmap string Values.t)
    (daysData : option DayData) (id : string) :
  mergeDay lkv daysData = Ok lkv' ->
  is_Some (lkv !! id) -> is_Some (lkv' !! id).
Proof.
  destruct daysData as [o|]; simpl.
  - apply forEachM_mergeOperator_dom.
  - by intros [= <-].
Qed.

Section any_filter.
Context `{Builtins}.
Context (operatorMetaMap : gmap string Meta.t).
Context (bucketsByDate : gmap Z DayData) (operatorIds : list string).

(** When the frames can be built with one setting of the filter, they can
    be built with the other, provided that it can read the names. *)
Lemma buildFrames_any_filter (b1 b2 : bool) (sortedDates : list Z) :
  namesReadable operatorMetaMap b2 operatorIds ->
  forall lkv frames1,
    (forall id, id ∈ operatorIds -> is_Some (lkv !! id)) ->
    buildFrames operatorMetaMap b1 bucketsByDate operatorIds lkv sortedDates
      = Ok frames1 ->
    exists frames2,
      buildFrames operatorMetaMap b2 bucketsByDate operatorIds lkv sortedDates
        = Ok frames2.
Proof.
  intros Hnames.
  induction sortedDates as [|d ds IH]; intros lkv frames1 Hdom Hb; [by exists []|].
  cbn [buildFrames] in Hb.
  apply bind_Ok in Hb as ([lkv1 f1] & Hf1 & Hb).
  apply bind_Ok in Hb as (fs1 & Hfs1 & _).
  apply frameAt_Ok in Hf1 as (Hm & _ & _).
  assert (Hdom1 : forall id, id ∈ operatorIds -> is_Some (lkv1 !! id)).
  { intros id Hid. by apply (mergeDay_dom _ _ _ _ Hm), Hdom. }
  assert (Hvalid : forall id,
             id ∈ List.filter (isValid operatorMetaMap b2) operatorIds ->
             is_Some (lkv1 !! id)).
  { intros id Hid. apply Hdom1.
    by apply list_elem_of_In, filter_In in Hid as [Hid%list_elem_of_In _]. }
  destruct (ranking_succeeds operatorMetaMap Stake lkv1 _ Hvalid) as [rs Hrs].
  destruct (ranking_succeeds operatorMetaMap Earnings lkv1 _ Hvalid) as [re Hre].
  destruct (IH lkv1 fs1 Hdom1 Hfs1) as [fs2 Hfs2].
  exists (Frame.mk d (formatDate d) rs re :: fs2).
  cbn [buildFrames]. unfold frameAt. rewrite Hm. simpl.
  rewrite (filter_succeeds operatorMetaMap b2 operatorIds Hnames). simpl.
  rewrite Hrs. simpl. rewrite Hre. simpl. by rewrite Hfs2.
Qed.
End any_filter.

Lemma buildFrames_formattedDates `{Builtins}
    (operatorMetaMap : gmap string Meta.t) (b : bool)
    (bucketsByDate : gmap Z DayData) (operatorIds : list string)
    (sortedDates : list Z) :
  forall lkv frames,
    buildFrames operatorMetaMap b bucketsByDate operatorIds lkv sortedDates
      = Ok frames ->
    Frame.formattedDate <$> frames = formatDate <$> sortedDates.
Proof.
  induction sortedDates as [|d ds IH]; intros lkv frames Hb.
  - simpl in Hb. by simplify_eq.
  - cbn [buildFrames] in Hb.
    apply bind_Ok in Hb as ([lkv1 f1] & Hf1 & Hb).
    apply bind_Ok in Hb as (fs1 & Hfs1 & Hb). simplify_eq/=.
    rewrite (IH _ _ Hfs1). f_equal.
    unfold frameAt in Hf1.
    apply bind_Ok in Hf1 as (l & _ & Hf1).
    apply bind_Ok in Hf1 as (ids & _ & Hf1).
    apply bind_Ok in Hf1 as (rs & _ & Hf1).
    apply bind_Ok in Hf1 as (re & _ & Hf1). by simplify_eq/=.
Qed.

(** The frames of two filter settings stand on the same dates. *)
Lemma processTimeline_same_dates `{Builtins}
    (operatorMetaMap : gmap string Meta.t) (b1 b2 : bool)
    (buckets : list Bucket.t) (operatorIds : list string)
    (frames1 frames2 : list Frame.t) :
  processTimeline operatorMetaMap b1 buckets operatorIds = Ok frames1 ->
  processTimeline operatorMetaMap b2 buckets operatorIds = Ok frames2 ->
  Frame.date <$> frames2 = Frame.date <$> frames1 /\
  Frame.formattedDate <$> frames2 = Frame.formattedDate <$> frames1.
Proof.
  intros Hb1%processTimeline_Ok Hb2%processTimeline_Ok. split.
  - by rewrite (buildFrames_dates _ _ _ _ _ _ _ Hb1),
               (buildFrames_dates _ _ _ _ _ _ _ Hb2).
  - by rewrite (buildFrames_formattedDates _ _ _ _ _ _ _ Hb1),
               (buildFrames_formattedDates _ _ _ _ _ _ _ Hb2).
Qed.

(** A timeline built with one setting of the filter can be built with
    the other, when that one can read the names. *)
Lemma processTimeline_any_filter `{Builtins}
    (operatorMetaMap : gmap string Meta.t) (b1 b2 : bool)
    (buckets : list Bucket.t) (operatorIds : list string)
    (frames1 : list Frame.t) :
  namesReadable operatorMetaMap b2 operatorIds ->
  processTimeline operatorMetaMap b1 buckets operatorIds = Ok frames1 ->
  exists frames2,
    processTimeline operatorMetaMap b2 buckets operatorIds = Ok frames2.
Proof.
  intros Hnames H1. pose proof (processTimeline_Ok _ _ _ _ _ H1) as Hb1.
  destruct (buildFrames_any_filter operatorMetaMap (groupBuckets buckets).1
              operatorIds b1 b2 _ Hnames _ _ (seedValues_is_Some operatorIds) Hb1)
    as [frames2 Hb2].
  exists frames2.
  unfold processTimeline in *.
  destruct (groupBuckets buckets) as [bucketsByDate uniqueDates]. simpl in *.
  by case_decide.
Qed.

Lemma List_filter_fresh (l : list (nat * (Callback * Z))) (id : nat) :
  Forall (fun t => (t.1 < id)%nat) l ->
  List.filter (fun t => negb (Nat.eqb (fst t) id)) l = l.
Proof.
  induction 1 as [|t l Ht _ IH]; [done|]. simpl.
  destruct (Nat.eqb_spec t.1 id); [lia|]. simpl. by rewrite IH.
Qed.

(** X7. A change of the filter takes effect when its timer fires.  When
    the new setting can read the names (it is off, or the name of every
    discovered operator is a string), the timeline is rebuilt from the
    stored rows with the new setting and the current frame is drawn
    again.  Otherwise [processTimeline] throws a [TypeError]: the flag is
    changed but the timeline stays as it was, built with the old setting,
    and nothing is drawn.  In both cases the frames stand on the same
    dates, so the index keeps its meaning, and playback and the other
    timers are untouched. *)
Theorem toggleFilter_rebuilds_on_the_same_dates `{Builtins}
    (s : State) (b0 : bool) :
  timersFresh s ->
  rawBuckets s <> [] ->
  processTimeline (operatorMetaMap s) b0 (rawBuckets s) (allOperatorIds s)
    = Ok (timelineData s) ->
  let s' := fireTimer (nextTimerId s) (toggleFilter s) in
  let canRead := namesReadable (operatorMetaMap s) (negb (filterDeprecated s))
                               (allOperatorIds s) in
  filterDeprecated s' = negb (filterDeprecated s) /\
  Frame.date <$> timelineData s' = Frame.date <$> timelineData s /\
  lastIndex s' = lastIndex s /\
  currentIndex s' = currentIndex s /\
  isPlaying s' = isPlaying s /\
  pendingTimers s' = pendingTimers s /\
  (canRead ->
   processTimeline (operatorMetaMap s) (negb (filterDeprecated s))
                   (rawBuckets s) (allOperatorIds s) = Ok (timelineData s') /\
   (0 <= currentIndex s <= lastIndex s ->
    rendered s' = rendered s ++ [(currentIndex s, activeMetric s)])) /\
  (~ canRead ->
   processTimeline (operatorMetaMap s) (negb (filterDeprecated s))
                   (rawBuckets s) (allOperatorIds s) = Throw TypeError /\
   timelineData s' = timelineData s /\
   rendered s' = rendered s).
Proof.
  intros Hfresh Hraw Hcoherent s' canRead.
  set (t := toggleFilter s).
  assert (Htp : pendingTimers t
                = pendingTimers s ++ [(nextTimerId s, (CbRefilter, 50))])
    by reflexivity.
  assert (Htfresh : timersFresh t)
    by by apply (timersFresh_push s t CbRefilter 50).
  assert (Hfind : List.find (fun x => Nat.eqb (fst x) (nextTimerId s))
                            (pendingTimers t)
                  = Some (nextTimerId s, (CbRefilter, 50))).
  { apply find_pending_tick; [done|]. rewrite Htp. apply elem_of_app.
    right. by left. }
  assert (Hrest : List.filter (fun x => negb (Nat.eqb (fst x) (nextTimerId s)))
                              (pendingTimers t) = pendingTimers s).
  { rewrite Htp, List.filter_app, List_filter_fresh by apply Hfresh.
    simpl. rewrite Nat.eqb_refl. simpl. by rewrite app_nil_r. }
  set (u := set_pendingTimers (pendingTimers s) t).
  assert (Hs' : s' = match processTimeline (operatorMetaMap s)
                             (negb (filterDeprecated s)) (rawBuckets s)
                             (allOperatorIds s) with
                     | Ok frames =>
                         renderFrame (currentIndex s) (set_timelineData frames u)
                     | Throw _ => u
                     end).
  { subst s'. unfold fireTimer. fold t. rewrite Hfind, Hrest.
    unfold refilter. simpl.
    by rewrite decide_True by (destruct (rawBuckets s); [done|simpl; lia]). }
  destruct (processTimeline (operatorMetaMap s) (negb (filterDeprecated s))
              (rawBuckets s) (allOperatorIds s)) as [frames|e] eqn:Hframes.
  - destruct (processTimeline_same_dates _ _ _ _ _ _ _ Hcoherent Hframes)
      as [Hdates _].
    assert (Hlen : length frames = length (timelineData s)).
    { by rewrite <- (length_fmap Frame.date frames), Hdates, length_fmap. }
    destruct (renderFrame_timers (currentIndex s) (set_timelineData frames u))
      as (Hpt & _ & Hp & _ & Hc & Htl & _).
    rewrite <- Hs' in Hpt, Hp, Hc, Htl.
    assert (Hstate : forall v, renderFrame (currentIndex s) v = s' ->
                      filterDeprecated s' = filterDeprecated v).
    { intros v <-.
      by destruct (renderFrame_state (currentIndex s) v) as [-> | ->]. }
    split; [by rewrite (Hstate _ (eq_sym Hs'))|].
    split; [by rewrite Htl|].
    split; [unfold lastIndex; by rewrite Htl; simpl; rewrite Hlen|].
    split; [by rewrite Hc|]. split; [by rewrite Hp|]. split; [by rewrite Hpt|].
    split.
    + intros _. split; [by rewrite Htl|].
      intros Hrange. rewrite Hs', renderFrame_in_range; [done|].
      unfold lastIndex in *. simpl. lia.
    + intros Hnot. exfalso.
      rewrite (processTimeline_unreadable _ _ _ _ Hraw Hnot) in Hframes. done.
  - rewrite Hs'. do 6 (split; [done|]). split.
    + intros Hread. exfalso.
      destruct (processTimeline_any_filter _ b0 (negb (filterDeprecated s))
                  _ _ _ Hread Hcoherent) as [frames Hok].
      congruence.
    + intros Hnot.
      rewrite (processTimeline_unreadable _ _ _ _ Hraw Hnot) in Hframes.
      by injection Hframes as <-.
Qed.

Lemma toggleFilter_rebuilds_on_the_same_dates_witness :
  let s' := @fireTimer sampleBuiltins (nextTimerId sampleState)
              (toggleFilter sampleState) in
  filterDeprecated s' = true /\
  Frame.date <$> timelineData s' = Frame.date <$> timelineData sampleState.
Proof.
  destruct (@toggleFilter_rebuilds_on_the_same_dates sampleBuiltins
              sampleState false) as (Hf & Hd & _).
  - split; by vm_compute; constructor.
  - discriminate.
  - reflexivity.
  - split; [exact Hf | exact Hd].
Defined.

(** ** The timeline on display *)

Lemma timelineCoherent_proper `{Builtins} (s s' : State) :
  dataOf s' = dataOf s -> timelineCoherent s -> timelineCoherent s'.
Proof.
  unfold dataOf, timelineCoherent. intros [= -> -> -> ->]. done.
Qed.

Lemma renderFrame_data (i : Z) (s : State) : dataOf (renderFrame i s) = dataOf s.
Proof. unfold renderFrame. by destruct (frameAtIndex s i). Qed.

Lemma loop_data (s : State) : dataOf (loop s) = dataOf s.
Proof.
  unfold loop. destruct (negb (isPlaying s)); [done|].
  pose proof (renderFrame_data (currentIndex s) s) as Hr.
  destruct (lastIndex _ <=? currentIndex _); exact Hr.
Qed.

Lemma togglePlay_data (s : State) : dataOf (togglePlay s) = dataOf s.
Proof.
  unfold togglePlay. cbv zeta.
  destruct (isPlaying (set_isPlaying (negb (isPlaying s)) s)).
  - rewrite loop_data. by destruct (lastIndex _ <=? currentIndex _).
  - unfold clearTimeout. by destruct (timer _).
Qed.

Lemma stop_data (s : State) : dataOf (stop s) = dataOf s.
Proof.
  unfold stop. cbv zeta. destruct (timer (set_isPlaying false s)); reflexivity.
Qed.

Section coherence.
Context `{Builtins}.

Lemma timelineCoherent_render (i : Z) (b : bool) (s : State) :
  processTimeline (operatorMetaMap s) b (rawBuckets s) (allOperatorIds s)
    = Ok (timelineData s) ->
  timelineCoherent (renderFrame i s).
Proof.
  intros Hp. right. exists b.
  pose proof (renderFrame_data i s) as Hr.
  unfold dataOf in Hr. injection Hr as E1 E2 E3 E4.
  rewrite E1, E2, E3, E4. exact Hp.
Qed.

Lemma refilter_coherent (s : State) :
  timelineCoherent s -> timelineCoherent (refilter s).
Proof.
  intros Hs. unfold refilter. case_decide; [|done].
  destruct (processTimeline _ _ _ _) as [frames|e] eqn:Hp; [|done].
  by apply (timelineCoherent_render _ (filterDeprecated s)).
Qed.

Lemma init_coherent (discovered : result (list string))
    (metas : list (string * Meta.t)) (history : result (list Bucket.t))
    (s : State) :
  timelineCoherent (init discovered metas history s).
Proof.
  unfold init. cbv zeta.
  destruct discovered as [operatorIds|e]; [|by left].
  destruct history as [allBuckets|e]; [|by left].
  match goal with
  | |- context [processTimeline ?m ?b ?r ?i] =>
      destruct (processTimeline m b r i) as [frames|e] eqn:Hp
  end; [|by left].
  apply (timelineCoherent_render _ (filterDeprecated s)).
  case_decide; exact Hp.
Qed.

Lemma step_coherent (s : State) (e : Event) :
  timelineCoherent s -> timelineCoherent (step s e).
Proof.
  intros Hs. destruct e as [discovered metas history| | | |value|metric| |id];
    cbn [step].
  - apply init_coherent.
  - apply (timelineCoherent_proper s); [|done]. apply togglePlay_data.
  - done.
  - done.
  - apply (timelineCoherent_proper s); [|done].
    unfold sliderInput. cbv zeta. by rewrite renderFrame_data.
  - apply (timelineCoherent_proper s); [|done].
    unfold setMetric. cbv zeta. by rewrite renderFrame_data.
  - apply (timelineCoherent_proper s); [|done]. apply stop_data.
  - unfold fireTimer. destruct (List.find _ _) as [[? [[] ?]]|]; [| |done].
    + apply (timelineCoherent_proper s); [|done]. by rewrite loop_data.
    + by apply refilter_coherent.
Qed.

Lemma reachable_coherent (s : State) : reachable s -> timelineCoherent s.
Proof.
  intros [events ->].
  induction events as [|e events IH] using rev_ind; [by left|].
  rewrite run_snoc. by apply step_coherent.
Qed.
End coherence.

(** X10. After any sequence of user events and timers, a load counting
    as one event, the timeline on display is never stale: it is empty, or
    it is the timeline [processTimeline] computes from the rows, the
    operators and the metadata now in the state, for one of the two
    filter settings.  Hence its frames are dated in strictly increasing
    order, every date is the date of a stored row, and no ranking has
    more than fifty entries. *)
Theorem displayed_timeline_is_a_reconstruction `{Builtins} (s : State) :
  reachable s ->
  (timelineData s = [] \/
   exists b, processTimeline (operatorMetaMap s) b (rawBuckets s)
                             (allOperatorIds s) = Ok (timelineData s)) /\
  StronglySorted Z.lt (Frame.date <$> timelineData s) /\
  (forall f, f ∈ timelineData s ->
     exists b, b ∈ rawBuckets s /\ Bucket.date b = Frame.date f) /\
  (forall f metric, f ∈ timelineData s ->
     (length (Frame.rankings metric f) <= DISPLAY_COUNT)%nat).
Proof.
  intros Hreach. pose proof (reachable_coherent s Hreach) as Hc.
  split; [exact Hc|].
  destruct Hc as [-> | [b Hp]].
  { split; [constructor|].
    split; [intros f Hf | intros f m Hf]; by apply elem_of_nil in Hf. }
  pose proof (processTimeline_Ok _ _ _ _ _ Hp) as Hb.
  pose proof (buildFrames_dates _ _ _ _ _ _ _ Hb) as Hdates.
  split; [rewrite Hdates; apply sortDates_strict|]. split.
  - intros f Hf.
    assert (Hd : Frame.date f ∈ Frame.date <$> timelineData s)
      by (apply list_elem_of_fmap; eauto).
    rewrite Hdates, sortDates_Permutation in Hd.
    by apply groupBuckets_dates in Hd.
  - intros f metric Hf.
    pose proof (buildFrames_inv _ _ _ _ (fun _ _ => True) (fun _ _ => True)
                  (fun _ _ _ _ _ _ => conj I I) _ _ _ I Hb) as Hall.
    rewrite Forall_forall in Hall.
    destruct (Hall f Hf) as (lkv & _ & Hr).
    specialize (Hr metric). apply ranking_Ok in Hr as (entries & _ & ->).
    rewrite length_take. lia.
Qed.

Lemma displayed_timeline_is_a_reconstruction_witness :
  StronglySorted Z.lt (Frame.date <$> timelineData sampleState).
Proof.
  apply (@displayed_timeline_is_a_reconstruction sampleBuiltins sampleState).
  apply sampleState_reachable.
Defined.

(** ** The order of the fetched history *)

Lemma last_is_latest (page : list Bucket.t) (b : Bucket.t) :
  StronglySorted Z.le (Bucket.date <$> page) ->
  last page = Some b ->
  Forall (fun x => Bucket.date x <= Bucket.date b) page.
Proof.
  intros Hps [l ->]%last_Some.
  rewrite fmap_app in Hps. apply StronglySorted_app in Hps as (Hle & _ & _).
  apply Forall_forall. intros x Hx.
  apply elem_of_app in Hx as [Hx | ->%list_elem_of_singleton]; [|lia].
  apply Hle; [by apply list_elem_of_fmap_2|]. simpl. by left.
Qed.

Section ordered_history.
Context (remote : nat -> Z -> Response).
Hypothesis contract :
  forall n since page, remote n since = Data page -> pageContract since page.

Lemma fetchLoop_ordered (fuel : nat) :
  forall n allBuckets lastDate all,
    StronglySorted Z.le (Bucket.date <$> allBuckets) ->
    Forall (fun b => START_DATE < Bucket.date b <= lastDate) allBuckets ->
    START_DATE <= lastDate ->
    fetchLoop remote fuel n allBuckets lastDate = Some (Ok all) ->
    StronglySorted Z.le (Bucket.date <$> all) /\
    Forall (fun b => START_DATE < Bucket.date b) all.
Proof.
  induction fuel as [|fuel IH]; intros n acc c all Hsorted Hacc Hc Hloop;
    [done|].
  cbn [fetchLoop] in Hloop.
  destruct (remote n c) as [|page] eqn:Hpage; [done|].
  assert (Hdone : StronglySorted Z.le (Bucket.date <$> acc) /\
                  Forall (fun b => START_DATE < Bucket.date b) acc).
  { split; [done|]. eapply Forall_impl; [exact Hacc|]. simpl. lia. }
  destruct (last page) as [b|] eqn:Hlast; [|by simplify_eq].
  destruct (contract _ _ _ Hpage) as [Hps Hpc].
  apply Sorted_StronglySorted in Hps; [|intros x y z; lia].
  assert (Hmax : Forall (fun x => c < Bucket.date x <= Bucket.date b) page).
  { pose proof (last_is_latest _ _ Hps Hlast) as Hle.
    rewrite Forall_forall in Hpc, Hle. apply Forall_forall. intros x Hx.
    split; [by apply Hpc|by apply Hle]. }
  assert (Hcb : c < Bucket.date b).
  { rewrite Forall_forall in Hmax.
    by apply (Hmax b), last_Some_elem_of. }
  assert (Hsorted' : StronglySorted Z.le (Bucket.date <$> acc ++ page)).
  { rewrite fmap_app. apply StronglySorted_app. split; [|done].
    intros x1 x2 (b1 & -> & Hb1)%list_elem_of_fmap
                 (b2 & -> & Hb2)%list_elem_of_fmap.
    rewrite Forall_forall in Hacc, Hmax.
    specialize (Hacc b1 Hb1). specialize (Hmax b2 Hb2). lia. }
  assert (Hacc' : Forall (fun x => START_DATE < Bucket.date x <= Bucket.date b)
                         (acc ++ page)).
  { apply Forall_app. split.
    - eapply Forall_impl; [exact Hacc|]. simpl. lia.
    - eapply Forall_impl; [exact Hmax|]. simpl. lia. }
  case_decide.
  - simplify_eq. split; [done|].
    eapply Forall_impl; [exact Hacc'|]. simpl. lia.
  - apply (IH _ _ _ _ Hsorted' Hacc' ltac:(lia) Hloop).
Qed.
End ordered_history.

(** X11. When every page comes back in ascending order of date with all
    its rows after the cursor, the history that the pagination loop
    collects is itself in ascending order of date, and each of its rows
    is dated after the start date of the race. *)
Theorem fetched_history_is_ordered (remote : nat -> Z -> Response)
    (fuel : nat) (all : list Bucket.t) :
  (forall n since page, remote n since = Data page -> pageContract since page) ->
  fetchHistory remote fuel = Some (Ok all) ->
  Sorted Z.le (Bucket.date <$> all) /\
  Forall (fun b => START_DATE < Bucket.date b) all.
Proof.
  intros Hcontract Hfetch.
  destruct (fetchLoop_ordered remote Hcontract fuel 0%nat [] START_DATE all)
    as [Hs Hall]; [constructor|constructor|lia|exact Hfetch|].
  split; [by apply StronglySorted_Sorted|done].
Qed.

Lemma fetched_history_is_ordered_witness :
  Sorted Z.le (Bucket.date <$> sampleHistory) /\
  Forall (fun b => START_DATE < Bucket.date b) sampleHistory.
Proof.
  apply (fetched_history_is_ordered (serve sampleDataset) 5 sampleHistory).
  - intros n since page. apply serve_contract, sampleDataset_sorted.
  - vm_compute. reflexivity.
Defined.

(** ** Rows lost at a page boundary *)

Lemma List_filter_narrow {A} (p q : A -> bool) (l : list A) :
  (forall x, p x = true -> q x = true) ->
  List.filter p (List.filter q l) = List.filter p l.
Proof.
  intros Hpq. induction l as [|x l IH]; [done|]. simpl.
  destruct (q x) eqn:Hq; simpl.
  - destruct (p x); by rewrite IH.
  - destruct (p x) eqn:Hp; [|done]. apply Hpq in Hp. congruence.
Qed.

Lemma List_filter_none {A} (p : A -> bool) (l : list A) :
  Forall (fun x => p x = false) l -> List.filter p l = [].
Proof. induction 1 as [|x l Hx _ IH]; [done|]. simpl. by rewrite Hx. Qed.

Lemma List_filter_all {A} (p : A -> bool) (l : list A) :
  Forall (fun x => p x = true) l -> List.filter p l = l.
Proof. induction 1 as [|x l Hx _ IH]; [done|]. simpl. by rewrite Hx, IH. Qed.

Section served_history.
Context (dataset : list Bucket.t).
Hypothesis dataset_sorted : StronglySorted Z.le (Bucket.date <$> dataset).

Lemma after_sorted (since : Z) :
  StronglySorted Z.le
    (Bucket.date <$> List.filter (fun b => since <? Bucket.date b) dataset).
Proof.
  eapply StronglySorted_sublist; [|exact dataset_sorted].
  apply fmap_sublist, List_filter_sublist.
Qed.

(** What the loop adds to the rows it already has is a sublist of the
    rows of the data set dated after the cursor. *)
Lemma fetchLoop_serve (fuel : nat) :
  forall n allBuckets lastDate all,
    fetchLoop (serve dataset) fuel n allBuckets lastDate = Some (Ok all) ->
    exists rest,
      all = allBuckets ++ rest /\
      rest `sublist_of`
        List.filter (fun b => lastDate <? Bucket.date b) dataset.
Proof.
  induction fuel as [|fuel IH]; intros n acc c all Hloop; [done|].
  cbn [fetchLoop] in Hloop.
  change (serve dataset n c)
    with (Data (take PAGE_SIZE
                  (List.filter (fun b => c <? Bucket.date b) dataset)))
    in Hloop.
  cbv beta iota in Hloop.
  set (F := List.filter (fun b => c <? Bucket.date b) dataset) in *.
  destruct (last (take PAGE_SIZE F)) as [b|] eqn:Hlast.
  2:{ simplify_eq. exists []. split; [by rewrite app_nil_r|apply sublist_nil_l]. }
  case_decide.
  { simplify_eq. exists (take PAGE_SIZE F). split; [done|apply sublist_take]. }
  apply IH in Hloop as (rest & -> & Hrest).
  exists (take PAGE_SIZE F ++ rest). split; [by rewrite app_assoc|].
  assert (HbF : b ∈ F).
  { eapply sublist_elem_of; [apply sublist_take|by apply last_Some_elem_of]. }
  assert (Hcb : c < Bucket.date b).
  { apply list_elem_of_In, filter_In in HbF as [_ Hb]. lia. }
  assert (Hpage : StronglySorted Z.le (Bucket.date <$> take PAGE_SIZE F)).
  { eapply StronglySorted_sublist; [|apply (after_sorted c)].
    apply fmap_sublist, sublist_take. }
  pose proof (last_is_latest _ _ Hpage Hlast) as Hle.
  rewrite <- (take_drop PAGE_SIZE F) at 2.
  apply sublist_app; [done|].
  etrans; [exact Hrest|].
  rewrite <- (List_filter_narrow _ (fun x => c <? Bucket.date x)) by (intros x; lia).
  fold F. rewrite <- (take_drop PAGE_SIZE F) at 1.
  rewrite List.filter_app, List_filter_none, app_nil_l;
    [apply List_filter_sublist|].
  eapply Forall_impl; [exact Hle|]. simpl. intros x Hx. lia.
Qed.
End served_history.

(** X12. Against a service that answers the history query as written
    (rows after the cursor, ascending by date, at most a thousand of
    them), the loop collects a sublist of the data set: no row twice and
    none out of order.  The cursor is a date, though: when the row after
    a full first page has the date of the last row of that page, the rows
    of that date which did not fit into the page are never fetched, and
    the history is incomplete. *)
Theorem served_history_can_lose_rows (dataset : list Bucket.t) (fuel : nat)
    (all : list Bucket.t) :
  StronglySorted Z.le (Bucket.date <$> dataset) ->
  Forall (fun b => START_DATE < Bucket.date b) dataset ->
  fetchHistory (serve dataset) fuel = Some (Ok all) ->
  all `sublist_of` dataset /\
  forall b1 b2,
    dataset !! (PAGE_SIZE - 1)%nat = Some b1 ->
    dataset !! PAGE_SIZE = Some b2 ->
    Bucket.date b1 = Bucket.date b2 ->
    (exists rest, all = take PAGE_SIZE dataset ++ rest /\
                  Forall (fun b => Bucket.date b1 < Bucket.date b) rest) /\
    (length all < length dataset)%nat.
Proof.
  intros Hsorted Hafter Hfetch. split.
  { destruct (fetchLoop_serve dataset Hsorted _ _ _ _ _ Hfetch)
      as (rest & -> & Hrest).
    etrans; [exact Hrest|apply List_filter_sublist]. }
  intros b1 b2 H1 H2 Hsame.
  set (k := pred PAGE_SIZE).
  assert (HP : PAGE_SIZE = S k) by reflexivity.
  change (PAGE_SIZE - 1)%nat with k in H1.
  assert (Hpage : take PAGE_SIZE dataset = take k dataset ++ [b1]).
  { rewrite HP. by apply take_S_r. }
  assert (Hlen : (PAGE_SIZE < length dataset)%nat)
    by (by apply lookup_lt_Some in H2).
  destruct fuel as [|fuel]; [done|].
  unfold fetchHistory in Hfetch. cbn [fetchLoop] in Hfetch.
  change (serve dataset 0%nat START_DATE)
    with (Data (take PAGE_SIZE
                  (List.filter (fun b => START_DATE <? Bucket.date b) dataset)))
    in Hfetch.
  cbv beta iota in Hfetch.
  rewrite List_filter_all in Hfetch
    by (eapply Forall_impl; [exact Hafter|]; simpl; intros x Hx; lia).
  rewrite Hpage, last_snoc in Hfetch. rewrite <- Hpage in Hfetch.
  rewrite decide_False in Hfetch by (rewrite length_take; lia).
  destruct (fetchLoop_serve dataset Hsorted _ _ _ _ _ Hfetch)
    as (rest & -> & Hrest).
  assert (Hrest_after : Forall (fun b => Bucket.date b1 < Bucket.date b) rest).
  { eapply Forall_sublist; [exact Hrest|].
    apply Forall_forall. intros x [_ Hx]%list_elem_of_In%filter_In. lia. }
  split; [exists rest; by rewrite app_nil_l|].
  rewrite app_nil_l, length_app, length_take.
  assert (Hsplit : dataset = (take PAGE_SIZE dataset ++ [b2])
                             ++ drop (S PAGE_SIZE) dataset).
  { rewrite <- (take_S_r _ _ _ H2). by rewrite take_drop. }
  assert (Hhead : Forall (fun x => Bucket.date x <= Bucket.date b1)
                         (take PAGE_SIZE dataset ++ [b2])).
  { apply Forall_app. split; [|constructor; [lia|constructor]].
    apply last_is_latest.
    - eapply StronglySorted_sublist; [|exact Hsorted].
      apply fmap_sublist, sublist_take.
    - rewrite Hpage. apply last_snoc. }
  assert (Hcount : (length rest <= length (drop (S PAGE_SIZE) dataset))%nat).
  { etrans; [apply (sublist_length _ _ Hrest)|].
    rewrite Hsplit at 1. rewrite List.filter_app, List_filter_none, app_nil_l.
    - apply sublist_length, List_filter_sublist.
    - eapply Forall_impl; [exact Hhead|]. simpl. intros x Hx. lia. }
  rewrite length_drop in Hcount. lia.
Qed.

Lemma served_history_can_lose_rows_witness :
  sampleHistory `sublist_of` sampleDataset /\
  (length sampleHistory < length sampleDataset)%nat.
Proof.
  destruct (served_history_can_lose_rows sampleDataset 5 sampleHistory)
    as [Hsub Hlost].
  - apply sampleDataset_sorted.
  - apply (bool_decide_unpack _). vm_compute. exact I.
  - vm_compute. reflexivity.
  - split; [exact Hsub|].
    apply (Hlost (Bucket.mk (START_DATE + 2) "1" "1" "A")
                 (Bucket.mk (START_DATE + 2) "1" "1" "A"));
      vm_compute; reflexivity.
Defined.

(** ** Forward fill with gaps *)

Lemma reported_no_rows (m : Metric) (buckets : list Bucket.t) (k : string)
    (d : Z) :
  (forall b, b ∈ buckets -> Bucket.date b <> d) ->
  reported m buckets k d = None.
Proof.
  intros Hno. unfold reported. rewrite List_filter_none; [done|].
  apply Forall_forall. intros b Hb. unfold onDay.
  destruct (Z.eqb_spec (Bucket.date b) d) as [Heq|]; [|done].
  by apply Hno in Heq.
Qed.

Lemma carried_extend (m : Metric) (buckets : list Bucket.t) (k : string)
    (d d2 : Z) (v : string) :
  d <= d2 ->
  (forall d', d < d' <= d2 -> reported m buckets k d' = None) ->
  carried m buckets k d v -> carried m buckets k d2 v.
Proof.
  intros Hle Hgap [(d0 & Hd0 & Hrep & Hnone) | [-> Hnone]].
  - left. exists d0. split; [lia|]. split; [done|].
    intros d' Hd'. destruct (Z.le_gt_cases d' d); [apply Hnone|apply Hgap]; lia.
  - right. split; [done|].
    intros d' Hd'. destruct (Z.le_gt_cases d' d); [apply Hnone|apply Hgap]; lia.
Qed.

Lemma get_mergeValues (m : Metric) (b : Bucket.t) (r : Values.t) :
  Values.get m (mergeValues (valuesOf b) r)
  = if truthy (bucketValue m b) then bucketValue m b else Values.get m r.
Proof. by destruct m. Qed.

Section carry.
Context (buckets : list Bucket.t).

Lemma mergeDay_carried (lkv lkv' : gmap string Values.t) (d : Z) :
  carriedAt buckets (d - 1) lkv ->
  mergeDay lkv ((groupBuckets buckets).1 !! d) = Ok lkv' ->
  carriedAt buckets d lkv'.
Proof.
  intros Hcarried Hm id r m Hr.
  rewrite (mergeDay_lookup _ _ _ (groupBuckets_NoDup buckets d) Hm id) in Hr.
  rewrite groupBuckets_lookup in Hr.
  assert (Hkeep : reported m buckets id d = None ->
                  forall r0, lkv !! id = Some r0 ->
                  carried m buckets id d (Values.get m r0)).
  { intros Hnone r0 Hr0. apply (carried_extend m buckets id (d - 1)); [lia| |].
    - intros d' Hd'. by replace d' with d by lia.
    - by apply Hcarried. }
  destruct (last (List.filter (onDay d id) buckets)) as [b|] eqn:Hlast;
    simpl in Hr.
  - destruct (lkv !! id) as [r0|] eqn:Hr0; simplify_eq/=.
    rewrite get_mergeValues.
    destruct (truthy (bucketValue m b)) eqn:Ht.
    + left. exists d. split; [lia|]. split; [|intros d' Hd'; lia].
      unfold reported. by rewrite Hlast, Ht.
    + apply Hkeep; [|done]. unfold reported. by rewrite Hlast, Ht.
  - apply Hkeep; [|done]. unfold reported. by rewrite Hlast.
Qed.

Lemma carryInvariant_step (d : Z) (rest : list Z)
    (lkv lkv' : gmap string Values.t) :
  carryInvariant buckets (d :: rest) lkv ->
  mergeDay lkv ((groupBuckets buckets).1 !! d) = Ok lkv' ->
  carriedAt buckets d lkv' /\ carryInvariant buckets rest lkv'.
Proof.
  intros (Hsorted & Hdates & Hcarried) Hm.
  assert (HQ : carriedAt buckets d lkv')
    by (eapply mergeDay_carried; eauto).
  split; [exact HQ|].
  apply StronglySorted_inv in Hsorted as [Hrest Hd].
  split; [exact Hrest|]. split.
  - intros b Hb. destruct (Hdates b Hb) as [Hin|Hlt].
    + apply elem_of_cons in Hin as [Heq|Hin]; [|by left].
      right. intros d' Hd'. rewrite Heq.
      by apply (proj1 (Forall_forall _ _) Hd).
    + right. intros d' Hd'. apply Hlt. by right.
  - intros d' rest' ->. intros id r m Hr.
    apply Forall_cons in Hd as [Hdd' _].
    apply StronglySorted_inv in Hrest as [_ Hd'].
    apply (carried_extend m buckets id d); [lia| |by apply HQ].
    intros d'' Hd''. apply reported_no_rows. intros b Hb Heq.
    destruct (Hdates b Hb) as [Hin|Hlt].
    + apply elem_of_cons in Hin as [Hin|Hin]; [lia|].
      apply elem_of_cons in Hin as [Hin|Hin]; [lia|].
      pose proof (proj1 (Forall_forall _ _) Hd' _ Hin). lia.
    + pose proof (Hlt d ltac:(left)). lia.
Qed.

Lemma carryInvariant_init (operatorIds : list string) :
  carryInvariant buckets (sortDates (groupBuckets buckets).2)
                 (seedValues operatorIds).
Proof.
  pose proof (sortDates_strict buckets) as Hsorted.
  assert (Hall : forall b, b ∈ buckets ->
                   Bucket.date b ∈ sortDates (groupBuckets buckets).2).
  { intros b Hb. rewrite sortDates_Permutation.
    apply groupBuckets_dates. by exists b. }
  split; [exact Hsorted|]. split; [by left; apply Hall|].
  intros d rest Heq id r m Hr.
  apply seedValues_lookup in Hr as ->.
  right. split; [by destruct m|].
  intros d' Hd'. apply reported_no_rows. intros b Hb Hbd.
  pose proof (Hall b Hb) as Hin. rewrite Heq in Hin, Hsorted.
  apply StronglySorted_inv in Hsorted as [_ Hd].
  apply elem_of_cons in Hin as [Hin|Hin]; [lia|].
  pose proof (proj1 (Forall_forall _ _) Hd _ Hin). lia.
Qed.
End carry.

(** X9. Whatever the rows hold, every entry of every frame shows, for
    each metric, the value reported by the latest day up to the date of
    the frame that reports one for its entity, and "0" when there is no
    such day.  A day reports the value of the entity's last row of that
    day, and reports nothing when that value is empty: an empty value
    never overwrites, so the earlier value is carried on. *)
Theorem values_are_carried_forward `{Builtins}
    (operatorMetaMap : gmap string Meta.t) (filterDeprecated : bool)
    (buckets : list Bucket.t) (operatorIds : list string)
    (frames : list Frame.t) :
  processTimeline operatorMetaMap filterDeprecated buckets operatorIds
    = Ok frames ->
  forall f m e, f ∈ frames -> e ∈ Frame.rankings m f ->
    carried m buckets (Entry.id e) (Frame.date f) (Entry.valueWei e) /\
    Entry.floatValue e = parseFloat (Entry.valueWei e).
Proof.
  intros Hp f m e Hf He. apply processTimeline_Ok in Hp.
  assert (Hstep : forall (d : Z) (rest : list Z) (lkv lkv' : gmap string Values.t),
             carryInvariant buckets (d :: rest) lkv ->
             mergeDay lkv ((groupBuckets buckets).1 !! d) = Ok lkv' ->
             carriedAt buckets d lkv' /\ carryInvariant buckets rest lkv').
  { intros d rest lkv lkv'. by apply carryInvariant_step. }
  pose proof (buildFrames_inv operatorMetaMap filterDeprecated
                (groupBuckets buckets).1 operatorIds
                (carryInvariant buckets) (carriedAt buckets) Hstep
                _ _ _ (carryInvariant_init buckets operatorIds) Hp) as Hinv.
  apply (proj1 (Forall_forall _ _) Hinv) in Hf as (lkv & Hlkv & Hrank).
  specialize (Hrank m).
  apply ranking_entries in Hrank as (entries & Hrk & Hids & Hentries).
  rewrite Hrk in He.
  assert (He' : e ∈ entries).
  { apply (js_sort_elem_of byFloatValueDesc).
    eapply sublist_elem_of; [apply sublist_take|done]. }
  apply (proj1 (Forall_forall _ _) Hentries) in He' as (r & Hr & Hv & Hfv).
  split; [|by rewrite Hv]. rewrite Hv. by apply (Hlkv _ _ _ Hr).
Qed.

Lemma values_are_carried_forward_witness :
  Forall (fun f =>
            Forall (fun e => carried Stake sparseBuckets (Entry.id e)
                                     (Frame.date f) (Entry.valueWei e))
                   (Frame.stake f))
         sparseFrames.
Proof.
  apply Forall_forall. intros f Hf. apply Forall_forall. intros e He.
  by destruct (@values_are_carried_forward sampleBuiltins sampleMeta false
                 sparseBuckets sampleIds sparseFrames eq_refl f Stake e Hf He).
Defined.

(** ** The filter and the ranking *)

Lemma List_filter_comm {A} (p q : A -> bool) (l : list A) :
  List.filter p (List.filter q l) = List.filter q (List.filter p l).
Proof.
  rewrite !List_filter_filter. apply List.filter_ext. intros x. apply andb_comm.
Qed.

(** Sorting commutes with removing elements, when no value is NaN. *)
Lemma js_sort_filter (q : Entry.t -> bool) (entries : list Entry.t) :
  Forall (fun e => Entry.floatValue e <> NaN) entries ->
  js_sort byFloatValueDesc (List.filter q entries)
  = List.filter q (js_sort byFloatValueDesc entries).
Proof.
  intros Hok. symmetry.
  assert (Hsorted_ok : Forall (fun e => Entry.floatValue e <> NaN)
                         (js_sort byFloatValueDesc entries)).
  { apply Forall_forall. intros e He. apply js_sort_elem_of in He.
    by apply (proj1 (Forall_forall _ _) Hok). }
  apply js_sort_byFloatValueDesc_unique.
  - eapply Forall_sublist; [apply List_filter_sublist|exact Hok].
  - eapply Forall_sublist; [apply List_filter_sublist|exact Hsorted_ok].
  - eapply StronglySorted_sublist; [apply List_filter_sublist|].
    apply (js_sort_sorted _ _ (fun e => Entry.floatValue e <> NaN)); [| | |done].
    + intros x y z Hxy Hyz. by apply (num_le_trans _ (Entry.floatValue y)).
    + intros x y. rewrite byFloatValueDesc_after. apply num_lt_le.
    + intros x y Hx Hy. rewrite byFloatValueDesc_after. by apply num_not_lt_le.
  - intros x Hx.
    rewrite (List_filter_comm _ q (js_sort byFloatValueDesc entries)).
    rewrite (List_filter_comm _ q entries). f_equal.
    apply js_sort_stable.
    intros y z Hy Hz. unfold ties in Hy, Hz.
    rewrite !byFloatValueDesc_after in *.
    apply (num_tie_not_lt _ _ (Entry.floatValue x) Hx); unfold num_tie;
      by rewrite andb_comm.
Qed.

Lemma Forall2_mkEntry_filter `{Builtins} (operatorMetaMap : gmap string Meta.t)
    (m : Metric) (lkv : gmap string Values.t) (p : string -> bool)
    (ids : list string) (es : list Entry.t) :
  Forall2 (fun id e => mkEntry operatorMetaMap m lkv id = Ok e) ids es ->
  forall es',
    Forall2 (fun id e => mkEntry operatorMetaMap m lkv id = Ok e)
            (List.filter p ids) es' ->
    es' = List.filter (fun e => p (Entry.id e)) es.
Proof.
  induction 1 as [|id e ids es Hmk _ IH]; intros es' Hes'.
  - simpl in Hes'. by inversion Hes'.
  - pose proof (mkEntry_meta _ _ _ _ _ Hmk) as (Hid & _).
    cbn [List.filter] in *. rewrite Hid.
    destruct (p id).
    + inversion Hes' as [|? e' ? es'' Hmk' Hrest]; subst.
      rewrite Hmk in Hmk'. injection Hmk' as <-. f_equal. by apply IH.
    + by apply IH.
Qed.

Lemma isValid_filter_on (operatorMetaMap : gmap string Meta.t)
    (operatorIds : list string) :
  List.filter (isValid operatorMetaMap true) operatorIds
  = List.filter (isValid operatorMetaMap true)
      (List.filter (isValid operatorMetaMap false) operatorIds).
Proof.
  rewrite List_filter_filter. apply List.filter_ext. intros id.
  unfold isValid, isValidOperator. by destruct (operatorMetaMap !! id).
Qed.

Lemma isValid_filter_off (operatorMetaMap : gmap string Meta.t)
    (operatorIds : list string) :
  List.filter (isValid operatorMetaMap false) operatorIds
  = List.filter (fun id => bool_decide (is_Some (operatorMetaMap !! id)))
                operatorIds.
Proof.
  apply List.filter_ext. intros id. unfold isValid, isValidOperator.
  destruct (operatorMetaMap !! id) as [mt|] eqn:Hmt.
  - by rewrite bool_decide_eq_true_2.
  - rewrite bool_decide_eq_false_2; [done|]. by intros [? ?].
Qed.

(** The value carried to a day is unique. *)
Lemma carried_unique (m : Metric) (buckets : list Bucket.t) (k : string)
    (d : Z) (v1 v2 : string) :
  carried m buckets k d v1 -> carried m buckets k d v2 -> v1 = v2.
Proof.
  intros [(d1 & Hd1 & Hr1 & Hn1) | [-> Hn1]] [(d2 & Hd2 & Hr2 & Hn2) | [-> Hn2]].
  - destruct (Z.lt_trichotomy d1 d2) as [Hlt | [-> | Hgt]].
    + rewrite Hn1 in Hr2 by lia. done.
    + rewrite Hr1 in Hr2. by injection Hr2.
    + rewrite Hn2 in Hr1 by lia. done.
  - rewrite Hn2 in Hr1 by lia. done.
  - rewrite Hn1 in Hr2 by lia. done.
  - done.
Qed.

Lemma isCandidate_unique `{Builtins} (operatorMetaMap : gmap string Meta.t)
    (m : Metric) (buckets : list Bucket.t) (d : Z) (l1 : list Entry.t) :
  forall l2,
    Entry.id <$> l2 = Entry.id <$> l1 ->
    Forall (isCandidate operatorMetaMap m buckets d) l1 ->
    Forall (isCandidate operatorMetaMap m buckets d) l2 ->
    l2 = l1.
Proof.
  induction l1 as [|e1 l1 IH]; intros [|e2 l2] Hids H1 H2; try done.
  rewrite !fmap_cons in Hids. injection Hids as Hid Hids.
  apply Forall_cons in H1 as [(Hv1 & Hf1 & Hn1 & Hc1) H1].
  apply Forall_cons in H2 as [(Hv2 & Hf2 & Hn2 & Hc2) H2].
  f_equal; [|by apply IH].
  rewrite Hid in Hv2, Hn2, Hc2.
  pose proof (carried_unique _ _ _ _ _ _ Hv1 Hv2) as Hv.
  destruct e1, e2; simpl in *. congruence.
Qed.

Section filter_lockstep.
Context `{Builtins}.
Context (operatorMetaMap : gmap string Meta.t).
Context (buckets : list Bucket.t) (operatorIds : list string).
Hypothesis zero_parses : parseFloat "0" <> NaN.
Hypothesis values_parse :
  forall b m, b ∈ buckets -> truthy (bucketValue m b) = true ->
              parseFloat (bucketValue m b) <> NaN.

Lemma buildFrames_lockstep (sortedDates : list Z) :
  forall lkv off on,
    parsesToNumbers lkv ->
    carryInvariant buckets sortedDates lkv ->
    buildFrames operatorMetaMap false (groupBuckets buckets).1 operatorIds
                lkv sortedDates = Ok off ->
    buildFrames operatorMetaMap true (groupBuckets buckets).1 operatorIds
                lkv sortedDates = Ok on ->
    Forall2 (fun f_off f_on =>
               Frame.date f_on = Frame.date f_off /\
               forall m, exists candidates,
                 Entry.id <$> candidates
                   = List.filter
                       (fun id => bool_decide (is_Some (operatorMetaMap !! id)))
                       operatorIds /\
                 Forall (isCandidate operatorMetaMap m buckets (Frame.date f_off))
                        candidates /\
                 Frame.rankings m f_off
                   = take DISPLAY_COUNT (js_sort byFloatValueDesc candidates) /\
                 Frame.rankings m f_on
                   = take DISPLAY_COUNT
                       (List.filter
                          (fun e => isValid operatorMetaMap true (Entry.id e))
                          (js_sort byFloatValueDesc candidates))) off on.
Proof.
  induction sortedDates as [|d ds IH]; intros lkv off on Hparse Hcarry Hoff Hon.
  - simpl in *. simplify_eq. constructor.
  - cbn [buildFrames] in Hoff, Hon.
    apply bind_Ok in Hoff as ([lkv1 f1] & Hf1 & Hoff).
    apply bind_Ok in Hoff as (fs1 & Hfs1 & Hoff).
    apply bind_Ok in Hon as ([lkv2 f2] & Hf2 & Hon).
    apply bind_Ok in Hon as (fs2 & Hfs2 & Hon). simplify_eq/=.
    apply frameAt_Ok in Hf1 as (Hm1 & Hd1 & Hr1).
    apply frameAt_Ok in Hf2 as (Hm2 & Hd2 & Hr2).
    rewrite Hm1 in Hm2. injection Hm2 as <-.
    assert (Hparse1 : parsesToNumbers lkv1)
      by (eapply mergeDay_parse; eauto).
    destruct (carryInvariant_step buckets d ds lkv lkv1 Hcarry Hm1)
      as [Hcarried Hcarry1].
    constructor; [|by apply (IH lkv1)].
    split; [by rewrite Hd1, Hd2|]. intros m.
    specialize (Hr1 m). specialize (Hr2 m).
    apply ranking_Ok in Hr1 as (es1 & Hall1 & Hrk1).
    apply ranking_Ok in Hr2 as (es2 & Hall2 & Hrk2).
    rewrite isValid_filter_on in Hall2.
    pose proof (Forall2_mkEntry_filter _ _ _ _ _ _ Hall1 _ Hall2) as Hes2.
    assert (Hnum : Forall (fun e => Entry.floatValue e <> NaN) es1).
    { clear Hes2 Hall2 Hrk1 Hrk2.
      induction Hall1 as [|id e ids es Hmk _ IHall]; constructor; [|done].
      apply mkEntry_Ok in Hmk as (_ & r & Hr & _ & ->).
      by apply (Hparse1 _ _ _ Hr). }
    exists es1. rewrite <- isValid_filter_off, Hd1.
    split; [|split; [|split]].
    + clear Hes2 Hall2 Hrk1 Hrk2 Hnum.
      induction Hall1 as [|id e ids es Hmk _ IHall]; [done|].
      apply mkEntry_Ok in Hmk as (Hid & _). by rewrite !fmap_cons, Hid, IHall.
    + clear Hes2 Hall2 Hrk1 Hrk2 Hnum.
      induction Hall1 as [|id e ids es Hmk _ IHall]; constructor; [|done].
      pose proof (mkEntry_meta _ _ _ _ _ Hmk) as (Hid & Hname & Hcolor).
      apply mkEntry_Ok in Hmk as (_ & r & Hr & Hv & Hf).
      unfold isCandidate. rewrite Hid, Hv, Hf.
      split; [by apply (Hcarried _ _ _ Hr)|done].
    + done.
    + by rewrite Hrk2, Hes2, js_sort_filter.
Qed.
End filter_lockstep.

(** X6. Turning the filter on removes the deprecated operators from the
    candidates of each frame and leaves the others in the same order.
    Frame by frame and metric by metric there is one list of candidates:
    an entry for each operator of the list that has metadata, in the
    order of the list, with the value carried to the date of the frame,
    that value parsed, and the name and colour of the metadata.  The
    ranking with the filter off is the first 50 of the sorted candidates;
    the ranking with the filter on is the first 50 of the sorted
    candidates without the entries that the filter rejects. *)
Theorem filter_only_removes_entries `{Builtins}
    (operatorMetaMap : gmap string Meta.t) (buckets : list Bucket.t)
    (operatorIds : list string) (off on : list Frame.t) :
  processTimeline operatorMetaMap false buckets operatorIds = Ok off ->
  processTimeline operatorMetaMap true buckets operatorIds = Ok on ->
  parseFloat "0" <> NaN ->
  (forall b m, b ∈ buckets -> truthy (bucketValue m b) = true ->
               parseFloat (bucketValue m b) <> NaN) ->
  Forall2 (fun f_off f_on =>
             Frame.date f_on = Frame.date f_off /\
             forall m, exists candidates,
               Entry.id <$> candidates
                 = List.filter
                     (fun id => bool_decide (is_Some (operatorMetaMap !! id)))
                     operatorIds /\
               Forall (isCandidate operatorMetaMap m buckets (Frame.date f_off))
                      candidates /\
               (forall others,
                  Entry.id <$> others = Entry.id <$> candidates ->
                  Forall (isCandidate operatorMetaMap m buckets
                                      (Frame.date f_off)) others ->
                  others = candidates) /\
               Frame.rankings m f_off
                 = take DISPLAY_COUNT (js_sort byFloatValueDesc candidates) /\
               Frame.rankings m f_on
                 = take DISPLAY_COUNT
                     (List.filter
                        (fun e => isValid operatorMetaMap true (Entry.id e))
                        (js_sort byFloatValueDesc candidates))) off on.
Proof.
  intros Hoff Hon Hzero Hvals.
  apply processTimeline_Ok in Hoff, Hon.
  eapply Forall2_impl.
  - eapply buildFrames_lockstep; eauto.
    + by apply seedValues_parse.
    + apply carryInvariant_init.
  - intros f_off f_on [Hd Hm]. split; [done|]. intros m.
    destruct (Hm m) as (candidates & Hids & Hall & Hoff' & Hon').
    exists candidates. repeat split; try done.
    intros others Ho Hothers. by eapply isCandidate_unique.
Qed.

Lemma filter_only_removes_entries_witness :
  exists on,
    @processTimeline sampleBuiltins sampleMeta true sampleBuckets sampleIds = Ok on /\
    Forall2 (fun f_off f_on =>
               Frame.date f_on = Frame.date f_off /\
               forall m, exists candidates,
                 Frame.rankings m f_off
                   = take DISPLAY_COUNT (js_sort byFloatValueDesc candidates) /\
                 Frame.rankings m f_on
                   = take DISPLAY_COUNT
                       (List.filter
                          (fun e => isValid sampleMeta true (Entry.id e))
                          (js_sort byFloatValueDesc candidates)))
            sampleFrames on.
Proof.
  destruct (@processTimeline sampleBuiltins sampleMeta true sampleBuckets sampleIds)
    as [on|e] eqn:Hon; [|by vm_compute in Hon].
  exists on. split; [done|].
  eapply Forall2_impl.
  - apply (@filter_only_removes_entries sampleBuiltins sampleMeta sampleBuckets
             sampleIds sampleFrames on).
    + reflexivity.
    + exact Hon.
    + discriminate.
    + intros b m Hb _. by apply sample_values_parse.
  - intros f_off f_on [Hd Hm]. split; [done|]. intros m.
    destruct (Hm m) as (candidates & _ & _ & _ & Hoff' & Hon').
    by exists candidates.
Defined.

(** ** The snapshots of [discoverTopOperators] *)

Lemma interval_pos : 0 < interval.
Proof. reflexivity. Qed.

Lemma checkpointsLoop_spec (now : Z) (r : nat) :
  forall fuel t acc,
    (r < fuel)%nat ->
    r = Z.to_nat ((now - t) / interval + 1) ->
    checkpointsLoop fuel t now acc
    = Some (acc ++ ((fun k => t + Z.of_nat k * interval) <$> seq 0 r)).
Proof.
  pose proof interval_pos as Hi.
  induction r as [|r IH]; intros fuel t acc Hfuel Hr;
    (destruct fuel as [|fuel]; [lia|]); cbn [checkpointsLoop].
  - assert (Hlt : now < t).
    { destruct (Z.lt_ge_cases now t) as [|Hge]; [done|].
      pose proof (Z.div_pos (now - t) interval ltac:(lia) Hi). lia. }
    rewrite (proj2 (Z.leb_gt _ _) Hlt). simpl. by rewrite app_nil_r.
  - assert (Hle : t <= now).
    { destruct (Z.le_gt_cases t now) as [|Hgt]; [done|].
      pose proof (Z.div_lt_upper_bound (now - t) interval 0 Hi ltac:(lia)).
      lia. }
    rewrite (proj2 (Z.leb_le _ _) Hle).
    rewrite (IH fuel (t + interval) (acc ++ [t])); [|lia|].
    + rewrite <- app_assoc. do 2 f_equal. cbn [seq fmap list_fmap app].
      f_equal; [lia|].
      rewrite <- fmap_S_seq, <- list_fmap_compose.
      apply list_fmap_ext. intros _ k _. simpl.
      rewrite Nat2Z.inj_succ. lia.
    + replace (now - (t + interval)) with (now - t + (-1) * interval) by lia.
      rewrite Z.div_add by lia. lia.
Qed.

(** X13. The snapshot loop of the discovery ends.  It takes a snapshot
    every 15 days from the start date on, as long as the time is not
    after now, and a last one at now; no snapshot is later than now.
    When now is not before the start date, every moment from the start
    date to now lies less than 15 days after a snapshot. *)
Theorem checkpoints_cover (now : Z) :
  let n := Z.to_nat ((now - START_DATE) / interval + 1) in
  exists cs,
    (forall fuel, (n < fuel)%nat -> checkpoints fuel now = Some cs) /\
    cs = ((fun k => START_DATE + Z.of_nat k * interval) <$> seq 0 n) ++ [now] /\
    last cs = Some now /\
    (now < START_DATE -> cs = [now]) /\
    Forall (fun c => c <= now) cs /\
    (forall t, START_DATE <= t <= now ->
       exists c, c ∈ cs /\ c <= t < c + interval).
Proof.
  intros n. pose proof interval_pos as Hi.
  set (grid := (fun k => START_DATE + Z.of_nat k * interval) <$> seq 0 n).
  exists (grid ++ [now]).
  split; [|split; [done|split; [apply last_snoc|split; [|split]]]].
  - intros fuel Hfuel. unfold checkpoints.
    by rewrite (checkpointsLoop_spec now n fuel START_DATE [] Hfuel eq_refl).
  - intros Hlt.
    assert (Hn : n = 0%nat).
    { pose proof (Z.div_lt_upper_bound (now - START_DATE) interval 0 Hi
                    ltac:(lia)). subst n. lia. }
    subst grid. by rewrite Hn.
  - apply Forall_app. split; [|by constructor].
    apply Forall_forall. intros c (k & -> & Hk)%list_elem_of_fmap.
    apply elem_of_seq in Hk.
    destruct (Z.lt_ge_cases now START_DATE) as [Hlt|Hge].
    + pose proof (Z.div_lt_upper_bound (now - START_DATE) interval 0 Hi
                    ltac:(lia)). subst n. lia.
    + pose proof (Z.div_pos (now - START_DATE) interval ltac:(lia) Hi) as Hq.
      pose proof (Z.mul_div_le (now - START_DATE) interval Hi) as Hm.
      assert (Z.of_nat k <= (now - START_DATE) / interval) by (subst n; lia).
      nia.
  - intros t [Hlo Hhi].
    pose proof (Z.div_pos (t - START_DATE) interval ltac:(lia) Hi) as Hq.
    pose proof (Z.mul_div_le (t - START_DATE) interval Hi) as Hm.
    pose proof (Z.mul_succ_div_gt (t - START_DATE) interval Hi) as Hs.
    pose proof (Z.div_le_mono (t - START_DATE) (now - START_DATE) interval Hi
                  ltac:(lia)) as Hmono.
    exists (START_DATE + (t - START_DATE) / interval * interval).
    split; [|lia].
    apply elem_of_app. left. apply list_elem_of_fmap.
    exists (Z.to_nat ((t - START_DATE) / interval)).
    split; [by rewrite Z2Nat.id|].
    apply elem_of_seq. subst n. lia.
Qed.

(** ** The discovered operators *)

Lemma addId_NoDup (ids : list string) (id : string) :
  NoDup ids -> NoDup (addId ids id).
Proof.
  intros Hnd. unfold addId. case_decide as Hin; [done|].
  apply NoDup_app. split; [done|]. split; [|apply NoDup_singleton].
  intros x Hx ->%list_elem_of_singleton. done.
Qed.

Lemma addId_elem_of (ids : list string) (id x : string) :
  x ∈ addId ids id <-> x ∈ ids \/ x = id.
Proof.
  unfold addId. case_decide as Hin.
  - split; [by left|]. by intros [?| ->].
  - rewrite elem_of_app, list_elem_of_singleton. done.
Qed.

Lemma elem_of_concat {A} (x : A) (ls : list (list A)) :
  x ∈ concat ls <-> exists l, l ∈ ls /\ x ∈ l.
Proof.
  induction ls as [|l ls IH]; simpl.
  - split; [by intros ?%elem_of_nil|by intros (l & ?%elem_of_nil & _)].
  - rewrite elem_of_app, IH. split.
    + intros [Hx | (l' & Hl' & Hx)]; [exists l; split; [left|done]|].
      exists l'. split; [by right|done].
    + intros (l' & [-> | Hl']%elem_of_cons & Hx); [by left|].
      right. by exists l'.
Qed.

(** The union over the items of all groups, one after the other. *)
Lemma collectIds_concat (groups : list (list Item)) :
  collectIds groups = fold_left addId (itemId <$> concat groups) [].
Proof.
  unfold collectIds. generalize (@nil string).
  induction groups as [|group groups IH]; intros acc; [done|].
  simpl. rewrite IH, fmap_app, fold_left_app. f_equal.
  clear IH. revert acc.
  induction group as [|item group IHg]; intros acc; [done|]. simpl. apply IHg.
Qed.

Lemma fold_addId_snoc (l : list string) (x : string) :
  fold_left addId (l ++ [x]) [] = addId (fold_left addId l []) x.
Proof. by rewrite fold_left_app. Qed.

Lemma fold_addId_spec (l : list string) :
  NoDup (fold_left addId l []) /\
  (forall x, x ∈ fold_left addId l [] <-> x ∈ l) /\
  fold_left addId l [] `sublist_of` l.
Proof.
  induction l as [|x l (Hnd & Hin & Hsub)] using rev_ind.
  - split; [constructor|]. split; [done|]. constructor.
  - rewrite fold_addId_snoc. split; [by apply addId_NoDup|]. split.
    + intros y. rewrite addId_elem_of, Hin, elem_of_app, list_elem_of_singleton.
      done.
    + unfold addId. case_decide.
      * etrans; [exact Hsub|]. by apply sublist_inserts_r.
      * by apply sublist_app.
Qed.

Lemma fold_addId_firstOccurrences (l : list string) :
  forall acc,
    fold_left addId l acc
    = acc ++ List.filter (fun y => bool_decide (y ∉ acc)) (firstOccurrences l).
Proof.
  induction l as [|x l IH]; intros acc; [by rewrite app_nil_r|].
  cbn [fold_left firstOccurrences List.filter]. rewrite IH.
  unfold addId. case_decide as Hin.
  - rewrite bool_decide_eq_false_2 by (by intros ?).
    f_equal. rewrite List_filter_filter. apply List.filter_ext. intros y.
    destruct (bool_decide_reflect (y ∉ acc)) as [Hy|Hy];
      [|by rewrite andb_false_r].
    rewrite bool_decide_eq_true_2; [done|]. by intros ->.
  - rewrite bool_decide_eq_true_2 by done.
    rewrite <- app_assoc. f_equal. simpl. f_equal.
    rewrite List_filter_filter. apply List.filter_ext. intros y.
    destruct (bool_decide_reflect (y ∉ acc)) as [Hy|Hy],
             (bool_decide_reflect (y <> x)) as [Hx|Hx]; simpl.
    + apply bool_decide_eq_true_2.
      rewrite elem_of_app, list_elem_of_singleton. tauto.
    + apply bool_decide_eq_false_2.
      rewrite elem_of_app, list_elem_of_singleton. intros Hn. apply Hn.
      right. by destruct (decide (y = x)).
    + apply bool_decide_eq_false_2.
      rewrite elem_of_app, list_elem_of_singleton. intros Hn. apply Hy.
      intros ?. apply Hn. by left.
    + apply bool_decide_eq_false_2.
      rewrite elem_of_app, list_elem_of_singleton. intros Hn. apply Hy.
      intros ?. apply Hn. by left.
Qed.

Section distinct.
Context `{Builtins}.
Context (operatorMetaMap : gmap string Meta.t) (filterDeprecated : bool).

Lemma ranking_NoDup (metric : Metric) (lkv : gmap string Values.t)
    (ids : list string) (rk : list Entry.t) :
  NoDup ids ->
  ranking operatorMetaMap metric lkv ids = Ok rk ->
  NoDup (Entry.id <$> rk).
Proof.
  intros Hnd Hr. apply ranking_Ok in Hr as (entries & Hall & ->).
  assert (Hids : Entry.id <$> entries = ids).
  { induction Hall as [|id e ids es He _ IH]; [done|].
    apply mkEntry_Ok in He as (Hid & _). rewrite fmap_cons, Hid.
    f_equal. apply IH. by apply NoDup_cons in Hnd as [_ ?]. }
  eapply sublist_NoDup; [|apply fmap_sublist, sublist_take].
  rewrite js_sort_Permutation. by rewrite Hids.
Qed.
End distinct.

(** X14. The discovered operators are the ids of the items of all groups
    of the answer, each once, in the order in which they are first seen:
    the list is that of the first occurrences among the ids of the items,
    group after group.  A timeline built for them lists no operator twice
    in a ranking. *)
Theorem discovered_operators_are_distinct `{Builtins}
    (groups : list (list Item)) (operatorMetaMap : gmap string Meta.t)
    (filterDeprecated : bool) (buckets : list Bucket.t) :
  collectIds groups = firstOccurrences (itemId <$> concat groups) /\
  NoDup (collectIds groups) /\
  (forall id, id ∈ collectIds groups <->
              exists group item,
                group ∈ groups /\ item ∈ group /\ itemId item = id) /\
  collectIds groups `sublist_of` (itemId <$> concat groups) /\
  (forall frames f metric,
     processTimeline operatorMetaMap filterDeprecated buckets
                     (collectIds groups) = Ok frames ->
     f ∈ frames ->
     NoDup (Entry.id <$> Frame.rankings metric f)).
Proof.
  rewrite collectIds_concat.
  destruct (fold_addId_spec (itemId <$> concat groups)) as (Hnd & Hin & Hsub).
  split.
  { rewrite fold_addId_firstOccurrences. simpl.
    apply List_filter_all, Forall_forall.
    intros y _. reflexivity. }
  split; [exact Hnd|]. split; [|split; [exact Hsub|]].
  - intros id. rewrite Hin, list_elem_of_fmap. split.
    + intros (item & -> & (group & Hg & Hi)%elem_of_concat).
      by exists group, item.
    + intros (group & item & Hg & Hi & <-). exists item. split; [done|].
      apply elem_of_concat. by exists group.
  - intros frames f metric Hp Hf. apply processTimeline_Ok in Hp.
    pose proof (buildFrames_inv _ _ _ _ (fun _ _ => True) (fun _ _ => True)
                  (fun _ _ _ _ _ _ => conj I I) _ _ _ I Hp) as Hall.
    rewrite Forall_forall in Hall.
    destruct (Hall f Hf) as (lkv & _ & Hr).
    apply (ranking_NoDup _ _ _ _ _
             (sublist_NoDup _ _ Hnd (List_filter_sublist _ _)) (Hr metric)).
Qed.

Lemma discovered_operators_are_distinct_witness :
  collectIds [[OfBucket "a"; OfBucket "b"; OfBucket "a"]; [OfOperator "b"]]
  = ["a"; "b"].
Proof.
  rewrite (proj1 (@discovered_operators_are_distinct sampleBuiltins
                    [[OfBucket "a"; OfBucket "b"; OfBucket "a"];
                     [OfOperator "b"]] ∅ false [])).
  reflexivity.
Defined.

(** ** The metadata requests *)

Lemma chunkLoop_spec (operatorIds : list string) (r : nat) :
  forall fuel i,
    (r < fuel)%nat ->
    (length operatorIds <= i + r * chunkSize)%nat ->
    (i < length operatorIds + chunkSize)%nat ->
    exists chunks,
      chunkLoop fuel i operatorIds = Some chunks /\
      concat chunks = drop i operatorIds /\
      Forall (fun c => (0 < length c <= chunkSize)%nat) chunks /\
      (length operatorIds <= i + length chunks * chunkSize)%nat /\
      (i + length chunks * chunkSize < length operatorIds + chunkSize)%nat.
Proof.
  assert (Hc : (0 < chunkSize)%nat) by (unfold chunkSize; lia).
  induction r as [|r IH]; intros fuel i Hfuel Hlen Hi0;
    (destruct fuel as [|fuel]; [lia|]); cbn [chunkLoop].
  - rewrite (proj2 (Nat.ltb_ge _ _)) by lia. exists []. simpl.
    rewrite drop_ge by lia. repeat split; [constructor|lia|lia].
  - destruct (Nat.ltb_spec i (length operatorIds)) as [Hi|Hi].
    + destruct (IH fuel (i + chunkSize)%nat ltac:(lia) ltac:(lia) ltac:(lia))
        as (chunks & -> & Hcat & Hall & Hlo & Hhi).
      exists (slice i (i + chunkSize) operatorIds :: chunks).
      cbn [length concat mbind option_bind].
      split; [done|]. split; [|split; [|lia]].
      * rewrite Hcat. unfold slice.
        replace (i + chunkSize - i)%nat with chunkSize by lia.
        rewrite <- drop_drop. apply take_drop.
      * constructor; [|done]. unfold slice.
        rewrite length_take, length_drop. lia.
    + exists []. simpl. rewrite drop_ge by lia.
      repeat split; [constructor|lia|lia].
Qed.

Lemma chunkLoop_fuel (operatorIds : list string) (f1 : nat) :
  forall f2 i c1 c2,
    chunkLoop f1 i operatorIds = Some c1 ->
    chunkLoop f2 i operatorIds = Some c2 -> c1 = c2.
Proof.
  induction f1 as [|f1 IH]; intros f2 i c1 c2 H1 H2; [done|].
  destruct f2 as [|f2]; [done|]. cbn [chunkLoop] in *.
  destruct (i <? length operatorIds)%nat; [|congruence].
  destruct (chunkLoop f1 _ _) as [r1|] eqn:E1; [|done].
  destruct (chunkLoop f2 _ _) as [r2|] eqn:E2; [|done].
  simpl in *. rewrite (IH _ _ _ _ E1 E2) in H1. congruence.
Qed.

(** X15. The metadata loop ends: it asks for the operators in chunks
    that, put together in the order asked, are the list of discovered
    operators; each chunk has at least one and at most 100 ids, so that
    the answer fits into the [first: 1000] of the query; and there are as
    many requests as the number of ids divided by 100, rounded up. *)
Theorem metadata_chunks_cover (operatorIds : list string) :
  exists chunks,
    (forall fuel, (length operatorIds < fuel)%nat ->
                  chunkLoop fuel 0 operatorIds = Some chunks) /\
    concat chunks = operatorIds /\
    Forall (fun c => (0 < length c <= chunkSize)%nat) chunks /\
    length chunks = ((length operatorIds + 99) / 100)%nat.
Proof.
  assert (Hspec := fun fuel Hfuel =>
            chunkLoop_spec operatorIds (length operatorIds) fuel 0 Hfuel
              ltac:(unfold chunkSize; lia) ltac:(unfold chunkSize; lia)).
  destruct (Hspec (S (length operatorIds)) ltac:(lia))
    as (chunks & Hloop & Hcat & Hall & Hlo & Hhi).
  exists chunks. split; [|split; [done|split; [done|]]].
  - intros fuel Hfuel.
    destruct (Hspec fuel Hfuel) as (chunks' & Hloop' & _).
    rewrite Hloop'. f_equal. apply (chunkLoop_fuel _ _ _ _ _ _ Hloop' Hloop).
  - unfold chunkSize in *. simpl in Hlo, Hhi.
    apply Nat.div_unique
      with (r := (length operatorIds + 99 - 100 * length chunks)%nat); lia.
Qed.

(** ** The colour of an operator *)

Lemma String_length_app (s1 s2 : string) :
  String.length (s1 +:+ s2) = (String.length s1 + String.length s2)%nat.
Proof.
  induction s1 as [|c s1 IH]; [done|].
  change (String c s1 +:+ s2) with (String c (s1 +:+ s2)). simpl. by rewrite IH.
Qed.

Lemma slice_last2_app (pre : string) (h l : ascii) :
  slice_last2 (pre +:+ String h (String l "")) = String h (String l "").
Proof.
  induction pre as [|c pre IH]; [done|].
  change (String c pre +:+ String h (String l ""))
    with (String c (pre +:+ String h (String l ""))).
  cbn [slice_last2]. rewrite String_length_app.
  destruct (Nat.leb_spec 2 (String.length pre + String.length (String h (String l ""))));
    [exact IH|]. simpl in *. lia.
Qed.

Lemma hexDigit_Some (c : ascii) (d : Z) :
  hexDigit c = Some d ->
  0 <= d < 16 /\ Ascii.is_space c = false /\
  c <> "-"%char /\ c <> "+"%char /\ c <> "x"%char /\ c <> "X"%char.
Proof.
  destruct c as [[] [] [] [] [] [] [] []]; vm_compute; intros [= <-];
    repeat split; congruence.
Qed.

Lemma parseInt16_two_digits (h l : ascii) (a b : Z) :
  hexDigit h = Some a -> hexDigit l = Some b ->
  parseInt16 (String h (String l "")) = Some (16 * a + b).
Proof.
  intros Hh Hl.
  destruct (hexDigit_Some h a Hh) as (Ha & Hsp & Hm & Hp & _).
  destruct (hexDigit_Some l b Hl) as (Hb & _ & _ & _ & Hx & HX).
  unfold parseInt16. cbn [skipWhiteSpace]. rewrite Hsp.
  rewrite (decide_False (P := h = "-"%char)) by done.
  rewrite (decide_False (P := h = "+"%char)) by done.
  rewrite decide_False by (intros [_ [?|?]]; done).
  cbn [hexValue]. rewrite Hh, Hl. simpl. f_equal. lia.
Qed.

Lemma colorOf_two_digits (pre : string) (h l : ascii) (a b : Z) :
  hexDigit h = Some a -> hexDigit l = Some b ->
  colorOf (pre +:+ String h (String l ""))
    = BAR_COLORS !! Z.to_nat ((16 * a + b) mod 18) /\
  (Z.to_nat ((16 * a + b) mod 18) < length BAR_COLORS)%nat.
Proof.
  intros Hh Hl.
  destruct (hexDigit_Some h a Hh) as (Ha & _).
  destruct (hexDigit_Some l b Hl) as (Hb & _).
  pose proof (Z.mod_pos_bound (16 * a + b) 18 ltac:(lia)) as Hmod.
  split; [|change (length BAR_COLORS) with 18%nat; lia].
  unfold colorOf.
  rewrite slice_last2_app, (parseInt16_two_digits h l a b Hh Hl).
  cbn [mbind option_bind].
  change (Z.of_nat (length BAR_COLORS)) with 18.
  rewrite Z.rem_mod_nonneg by lia.
  by rewrite (proj2 (Z.leb_le _ _)) by lia.
Qed.

(** X16. An operator whose id ends in two hexadecimal digits, as every
    address does, gets a colour: the entry of the palette at the value of
    those two digits modulo 18.  The rest of the id plays no part. *)
Theorem colorOf_address (pre : string) (h l : ascii) (a b : Z) :
  hexDigit h = Some a -> hexDigit l = Some b ->
  colorOf (pre +:+ String h (String l ""))
    = BAR_COLORS !! Z.to_nat ((16 * a + b) mod 18) /\
  is_Some (colorOf (pre +:+ String h (String l ""))) /\
  colorOf (pre +:+ String h (String l "")) = colorOf (String h (String l "")).
Proof.
  intros Hh Hl.
  destruct (colorOf_two_digits pre h l a b Hh Hl) as [Hcol Hlt].
  split; [exact Hcol|]. split.
  - rewrite Hcol. by apply lookup_lt_is_Some.
  - rewrite Hcol. symmetry. apply (colorOf_two_digits "" h l a b Hh Hl).
Qed.

Lemma colorOf_address_witness :
  colorOf "0xab5801a7d398351b8be11c439e05c5b3259aec9b" = Some "bg-purple-600".
Proof.
  destruct (colorOf_address "0xab5801a7d398351b8be11c439e05c5b3259aec"
              "9"%char "b"%char 9 11 eq_refl eq_refl) as (Hc & _).
  exact Hc.
Defined.

Lemma storeMeta_colours (ops : list (string * Json)) :
  forall operatorMetaMap,
    (forall id mt, operatorMetaMap !! id = Some mt ->
                   Meta.color mt = colorOf id) ->
    forall id mt, fold_left storeMeta ops operatorMetaMap !! id = Some mt ->
                  Meta.color mt = colorOf id.
Proof.
  induction ops as [|[k name] ops IH]; intros m Hm; [exact Hm|].
  simpl. apply IH. intros id mt. unfold storeMeta. simpl.
  rewrite lookup_insert. case_decide as Hk; [|apply Hm].
  intros [= <-]. by subst.
Qed.

(** X17. The metadata loop stores for every operator the colour of its
    id, on top of what earlier loads stored, and the rankings hand it on:
    in a timeline built with the stored metadata every bar carries the
    colour computed from the id of its operator.  For an id that ends in
    two hexadecimal digits this colour is defined, so that the
    [item.color.split] of [renderFrame] has a string to split. *)
Theorem bars_carry_the_colour_of_their_id `{Builtins}
    (ops : list (string * Json)) (before : gmap string Meta.t)
    (filterDeprecated : bool) (buckets : list Bucket.t)
    (operatorIds : list string) (frames : list Frame.t) :
  (forall id mt, before !! id = Some mt -> Meta.color mt = colorOf id) ->
  processTimeline (fold_left storeMeta ops before) filterDeprecated buckets
                  operatorIds = Ok frames ->
  forall f m e, f ∈ frames -> e ∈ Frame.rankings m f ->
    Entry.color e = colorOf (Entry.id e) /\
    forall pre h l a b,
      Entry.id e = pre +:+ String h (String l "") ->
      hexDigit h = Some a -> hexDigit l = Some b ->
      exists c, Entry.color e = Some c /\ c ∈ BAR_COLORS.
Proof.
  intros Hbefore Hp f m e Hf He.
  destruct (ranked_entry_valid _ _ _ _ _ _ _ _ Hp Hf He)
    as (_ & Hvalid & _ & Hcolor).
  apply isValid_spec in Hvalid as (mt & Hmt & _).
  rewrite Hmt in Hcolor. simpl in Hcolor.
  pose proof (storeMeta_colours ops before Hbefore _ _ Hmt) as Hc.
  assert (Hcol : Entry.color e = colorOf (Entry.id e)) by congruence.
  split; [exact Hcol|].
  intros pre h l a b Hid Hh Hl.
  destruct (colorOf_two_digits pre h l a b Hh Hl) as (Hlook & Hlt).
  apply lookup_lt_is_Some in Hlt as [c Hc'].
  exists c. rewrite Hcol, Hid, Hlook. split; [exact Hc'|].
  by apply list_elem_of_lookup_2 in Hc'.
Qed.

Lemma bars_carry_the_colour_of_their_id_witness :
  Forall (fun f => Forall (fun e => Entry.color e = colorOf (Entry.id e))
                          (Frame.stake f))
         addressFrames.
Proof.
  apply Forall_forall. intros f Hf. apply Forall_forall. intros e He.
  by destruct (@bars_carry_the_colour_of_their_id sampleBuiltins addressOps ∅
                 false addressBuckets addressOps.*1 addressFrames
                 ltac:(intros id mt; by rewrite lookup_empty) eq_refl
                 f Stake e Hf He).
Defined.

(** ** The markers of a bar *)

Lemma markersLoop_fuel (safeLimit scaleStepData valData : num) (f1 : nat) :
  forall f2 i ms1 ms2,
    markersLoop f1 i safeLimit scaleStepData valData = Some ms1 ->
    markersLoop f2 i safeLimit scaleStepData valData = Some ms2 ->
    ms1 = ms2.
Proof.
  induction f1 as [|f1 IH]; intros f2 i ms1 ms2 H1 H2; [done|].
  destruct f2 as [|f2]; [done|]. cbn [markersLoop] in *.
  destruct (num_leb _ safeLimit); [|congruence].
  destruct (markersLoop f1 _ _ _ _) as [r1|] eqn:E1; [|done].
  destruct (markersLoop f2 _ _ _ _) as [r2|] eqn:E2; [|done].
  simpl in *. rewrite (IH _ _ _ _ E1 E2) in H1. congruence.
Qed.

Lemma Math_min_100 (x : num) (i : Z) :
  num_leb (Fin (inject_Z i)) (Math_min x (Fin 100)) = true -> i <= 100.
Proof.
  assert (Hle : forall q : Q,
             (q <= 100)%Q -> num_leb (Fin (inject_Z i)) (Fin q) = true ->
             i <= 100).
  { intros q Hq Hi. unfold num_leb in Hi. apply negb_true_iff in Hi.
    apply num_lt_Fin_false in Hi. rewrite Zle_Qle.
    change (inject_Z 100) with 100%Q. lra. }
  destruct x as [| |q|]; unfold Math_min.
  - done.
  - done.
  - destruct (num_lt (Fin 100) (Fin q)) eqn:E.
    + apply Hle. lra.
    + apply Hle. by apply num_lt_Fin_false in E.
  - apply Hle. lra.
Qed.

Lemma markersLoop_ends (safeLimit scaleStepData valData : num) :
  (forall j, num_leb (Fin (inject_Z j)) safeLimit = true -> j <= 100) ->
  forall n fuel i,
    n = Z.to_nat (101 - i) -> (n < fuel)%nat ->
    exists ms,
      markersLoop fuel i safeLimit scaleStepData valData = Some ms /\
      (length ms <= n)%nat /\
      Forall (fun p => num_lt p (Fin 99) = true) ms.
Proof.
  intros Hlimit. induction n as [|n IH]; intros fuel i Hn Hfuel;
    (destruct fuel as [|fuel]; [lia|]); cbn [markersLoop].
  - destruct (num_leb _ safeLimit) eqn:E.
    + apply Hlimit in E. lia.
    + by exists [].
  - destruct (num_leb _ safeLimit) eqn:E; [|exists []; split; [done|]; split;
                                             [simpl; lia|constructor]].
    destruct (IH fuel (i + 1) ltac:(lia) ltac:(lia)) as (rest & -> & Hlen & Hall).
    cbn [mbind option_bind].
    destruct (num_lt (posPercent i scaleStepData valData) (Fin 99)) eqn:Hp.
    + eexists. split; [done|]. split; [simpl; lia|by constructor].
    + exists rest. split; [done|]. split; [lia|done].
Qed.

(** X18. Whatever the value of a bar and whatever the step, numbers or
    not, the marker loop ends within a hundred rounds: it appends at most
    100 markers, each at a position below 99 percent. *)
Theorem markers_loop_ends (valData scaleStepData : num) :
  exists ms,
    (forall fuel, (100 < fuel)%nat ->
                  markers fuel valData scaleStepData = Some ms) /\
    (length ms <= 100)%nat /\
    Forall (fun p => num_lt p (Fin 99) = true) ms.
Proof.
  unfold markers. destruct (num_lt (Fin 0) valData).
  2:{ exists []. split; [done|]. split; [simpl; lia|constructor]. }
  cbv zeta.
  set (safeLimit := Math_min (Math_floor (js_div valData scaleStepData)) (Fin 100)).
  assert (Hends := markersLoop_ends safeLimit scaleStepData valData
                     (Math_min_100 _) 100%nat).
  destruct (Hends 101%nat 1 eq_refl ltac:(lia)) as (ms & Hms & Hlen & Hall).
  exists ms. split; [|done].
  intros fuel Hfuel.
  destruct (Hends fuel 1 eq_refl Hfuel) as (ms' & Hms' & _).
  rewrite Hms'. f_equal. apply (markersLoop_fuel _ _ _ _ _ _ _ _ Hms' Hms).
Qed.

(** ** The widths of the bars *)

(** The rankings are in descending order and hold no NaN when the values
    of the rows parse to numbers. *)
Lemma rankings_descending `{Builtins}
    (operatorMetaMap : gmap string Meta.t) (filterDeprecated : bool)
    (buckets : list Bucket.t) (operatorIds : list string)
    (frames : list Frame.t) (f : Frame.t) (m : Metric) :
  processTimeline operatorMetaMap filterDeprecated buckets operatorIds
    = Ok frames ->
  parseFloat "0" <> NaN ->
  (forall b m, b ∈ buckets -> truthy (bucketValue m b) = true ->
               parseFloat (bucketValue m b) <> NaN) ->
  f ∈ frames ->
  StronglySorted (fun a b => num_le (Entry.floatValue b) (Entry.floatValue a))
                 (Frame.rankings m f).
Proof.
  intros Hp Hzero Hvals Hf. apply processTimeline_Ok in Hp.
  assert (Hstep : forall (d : Z) (rest : list Z) (lkv lkv' : gmap string Values.t),
             parsesToNumbers lkv ->
             mergeDay lkv ((groupBuckets buckets).1 !! d) = Ok lkv' ->
             parsesToNumbers lkv' /\ parsesToNumbers lkv').
  { intros d rest lkv lkv' HP Hm.
    split; eapply mergeDay_parse; eauto. }
  pose proof (buildFrames_inv operatorMetaMap filterDeprecated
                (groupBuckets buckets).1 operatorIds
                (fun _ lkv => parsesToNumbers lkv)
                (fun _ lkv => parsesToNumbers lkv) Hstep
                _ _ _ (seedValues_parse _ Hzero) Hp) as Hinv.
  simpl in Hinv.
  apply (proj1 (Forall_forall _ _) Hinv) in Hf as (lkv & Hlkv & Hrank).
  specialize (Hrank m).
  apply ranking_entries in Hrank as (entries & -> & Hids & Hentries).
  eapply StronglySorted_sublist; [apply sublist_take|].
  apply (js_sort_sorted _ _ (fun e => Entry.floatValue e <> NaN)).
  - intros x y z Hxy Hyz. by apply (num_le_trans _ (Entry.floatValue y)).
  - intros x y. unfold comes_after, byFloatValueDesc. rewrite num_pos_sub.
    apply num_lt_le.
  - intros x y Hx Hy. unfold comes_after, byFloatValueDesc.
    rewrite num_pos_sub. by apply num_not_lt_le.
  - apply Forall_forall. intros e He.
    apply (proj1 (Forall_forall _ _) Hentries) in He as (r & Hr & _ & ->).
    by apply (Hlkv _ _ _ Hr).
Qed.

Lemma toDouble_mono (a b : num) :
  num_le a b -> num_le (toDouble a) (toDouble b).
Proof.
  destruct a as [| |x|], b as [| |y|]; simpl; try done.
  - intros _. pose proof (double_mono y y ltac:(lra)) as Hy.
    by destruct (double y).
  - apply double_mono.
  - intros _. pose proof (double_mono x x ltac:(lra)) as Hx.
    by destruct (double x).
Qed.

Lemma js_div_mono (a b : num) (q0 : Q) :
  (0 < q0)%Q -> num_le a b ->
  num_le (js_div a (Fin q0)) (js_div b (Fin q0)).
Proof.
  intros Hq Hab. apply toDouble_mono.
  unfold num_div.
  destruct a as [| |x|], b as [| |y|]; try done;
    rewrite ?Qzero_false, ?Qnegative_false by lra; try done.
  simpl in Hab. simpl. apply Qmult_le_compat_r; [done|].
  apply Qlt_le_weak, Qinv_lt_0_compat, Hq.
Qed.

Lemma js_mul_100_mono (a b : num) :
  num_le a b -> num_le (js_mul a (Fin 100)) (js_mul b (Fin 100)).
Proof.
  intros Hab. apply toDouble_mono.
  destruct a as [| |x|], b as [| |y|]; try done.
  simpl in Hab. simpl. lra.
Qed.

Lemma Math_max_mono (a b : num) (c : Q) :
  num_le a b -> num_le (Math_max a (Fin c)) (Math_max b (Fin c)).
Proof.
  destruct a as [| |x|], b as [| |y|]; try done; simpl.
  - intros _. lra.
  - intros _. destruct (Qle_bool c y) eqn:E; simpl; [|lra].
    by apply Qle_bool_iff in E.
  - intros Hxy.
    destruct (Qle_bool c x) eqn:Ex, (Qle_bool c y) eqn:Ey; simpl;
      try apply Qle_bool_iff in Ex; try apply Qle_bool_iff in Ey; try lra.
    assert (Hn : ~ (c <= y)%Q) by (rewrite <- Qle_bool_iff; congruence). lra.
  - intros _. by destruct (Qle_bool c x).
Qed.

Lemma Math_max_ge (a b : num) (c : Q) :
  num_le a b -> num_le (Fin c) (Math_max a (Fin c)).
Proof.
  destruct a as [| |x|], b as [| |y|]; try done; simpl; intros _; try lra.
  all: destruct (Qle_bool c x) eqn:Ex; simpl; try lra;
    by apply Qle_bool_iff in Ex.
Qed.

Lemma widthPercent_mono (a b : num) (q0 : Q) :
  (0 < q0)%Q -> num_le a b ->
  num_le (widthPercent a (Fin q0)) (widthPercent b (Fin q0)).
Proof.
  intros Hq Hab. unfold widthPercent.
  by apply Math_max_mono, js_mul_100_mono, js_div_mono.
Qed.

Lemma widthPercent_top (q0 : Q) :
  (0 < q0)%Q -> widthPercent (Fin q0) (Fin q0) = Fin 100.
Proof.
  intros Hq. unfold widthPercent. rewrite js_div_Fin by lra.
  assert (Hone : (q0 / q0 == 1)%Q) by (apply Qmult_inv_r; lra).
  rewrite (double_proper _ _ Hone), double_1. by vm_compute.
Qed.

Lemma widthPercent_range (a : num) (q0 : Q) :
  (0 < q0)%Q -> num_le a (Fin q0) ->
  exists w, widthPercent a (Fin q0) = Fin w /\ (1 # 2 <= w)%Q /\ (w <= 100)%Q.
Proof.
  intros Hq Ha. apply num_le_between.
  - unfold widthPercent.
    apply (Math_max_ge _ (js_mul (js_div (Fin q0) (Fin q0)) (Fin 100))).
    by apply js_mul_100_mono, js_div_mono.
  - rewrite <- (widthPercent_top q0 Hq). by apply widthPercent_mono.
Qed.

(** X20. In a frame whose largest value is a positive number, the values
    of the rows parsing to numbers, the longest bar is 100 percent wide,
    every bar is between 0.5 and 100 percent wide, and the widths do not
    grow down the ranking. *)
Theorem bars_shrink_down_the_ranking `{Builtins}
    (operatorMetaMap : gmap string Meta.t) (filterDeprecated : bool)
    (buckets : list Bucket.t) (operatorIds : list string)
    (frames : list Frame.t) (f : Frame.t) (m : Metric)
    (e0 : Entry.t) (rest : list Entry.t) (q0 : Q) :
  processTimeline operatorMetaMap filterDeprecated buckets operatorIds
    = Ok frames ->
  parseFloat "0" <> NaN ->
  (forall b m, b ∈ buckets -> truthy (bucketValue m b) = true ->
               parseFloat (bucketValue m b) <> NaN) ->
  f ∈ frames ->
  Frame.rankings m f = e0 :: rest ->
  Entry.floatValue e0 = Fin q0 -> (0 < q0)%Q ->
  let width e := widthPercent (Entry.floatValue e)
                              (maxValWei (Frame.rankings m f)) in
  (exists w, width e0 = Fin w /\ (w == 100)%Q) /\
  Forall (fun e => exists w, width e = Fin w /\ (1 # 2 <= w)%Q /\ (w <= 100)%Q)
         (Frame.rankings m f) /\
  StronglySorted (fun a b => num_le (width b) (width a)) (Frame.rankings m f).
Proof.
  intros Hp Hzero Hvals Hf Hrk He0 Hq width.
  pose proof (rankings_descending _ _ _ _ _ f m Hp Hzero Hvals Hf) as Hsorted.
  subst width. rewrite Hrk in *. cbn [maxValWei]. rewrite He0.
  assert (Hbelow : Forall (fun e => num_le (Entry.floatValue e) (Fin q0))
                          (e0 :: rest)).
  { apply StronglySorted_inv in Hsorted as [_ Hall]. constructor.
    - rewrite He0. simpl. lra.
    - eapply Forall_impl; [exact Hall|]. intros e. by rewrite He0. }
  split; [|split].
  - exists 100%Q. split; [by apply widthPercent_top|reflexivity].
  - eapply Forall_impl; [exact Hbelow|]. intros e He.
    by apply widthPercent_range.
  - clear He0 Hrk. induction Hsorted as [|e l Hl IH Hall]; [constructor|].
    apply Forall_cons in Hbelow as [He Hbelow].
    constructor; [by apply IH|].
    rewrite Forall_forall in Hall, Hbelow. apply Forall_forall. intros e' He'.
    apply widthPercent_mono; [done|by apply Hall].
Qed.

Lemma bars_shrink_down_the_ranking_witness :
  Forall (fun e => exists w,
            widthPercent (Entry.floatValue e)
                         (maxValWei (Frame.stake sampleFrame3)) = Fin w /\
            (1 # 2 <= w)%Q /\ (w <= 100)%Q)
         (Frame.stake sampleFrame3).
Proof.
  destruct (@bars_shrink_down_the_ranking sampleBuiltins sampleMeta false
              sampleBuckets sampleIds sampleFrames sampleFrame3 Stake
              (Entry.mk "B" "60" (Fin 60) (Some (JString "Beta old")) (Some "bg-sky-600"))
              [ Entry.mk "A" "10" (Fin 10) (Some (JString "Alpha")) (Some "bg-red-600");
                Entry.mk "C" "0" (Fin 0) (Some (JString "Gamma")) None ]
              60%Q) as (_ & Hall & _).
  - reflexivity.
  - discriminate.
  - intros b m Hb _. by apply sample_values_parse.
  - apply sampleFrame3_elem_of.
  - reflexivity.
  - reflexivity.
  - reflexivity.
  - exact Hall.
Defined.

(** ** From the history to the timeline *)

(** X21. The race starts after its start date: when the pages of the
    history obey the contract of the query, every frame of the timeline
    built from the collected history is dated after [START_DATE], and
    there are no more frames than rows. *)
Theorem frames_are_dated_after_the_start `{Builtins}
    (remote : nat -> Z -> Response) (fuel : nat) (all : list Bucket.t)
    (operatorMetaMap : gmap string Meta.t) (filterDeprecated : bool)
    (operatorIds : list string) (frames : list Frame.t) :
  (forall n since page, remote n since = Data page -> pageContract since page) ->
  fetchHistory remote fuel = Some (Ok all) ->
  processTimeline operatorMetaMap filterDeprecated all operatorIds = Ok frames ->
  Forall (fun f => START_DATE < Frame.date f) frames /\
  (0 < length frames <= length all)%nat.
Proof.
  intros Hcontract Hfetch Hp.
  destruct (fetchLoop_ordered remote Hcontract fuel 0%nat [] START_DATE all)
    as [_ Hafter]; [constructor|constructor|lia|exact Hfetch|].
  pose proof (processTimeline_Ok _ _ _ _ _ Hp) as Hb.
  pose proof (buildFrames_dates _ _ _ _ _ _ _ Hb) as Hdates.
  destruct (groupBuckets_dates all) as [Hnd Hin].
  split; [|split].
  - apply Forall_forall. intros f Hf.
    assert (Hd : Frame.date f ∈ Frame.date <$> frames)
      by (apply list_elem_of_fmap; eauto).
    rewrite Hdates, sortDates_Permutation in Hd.
    apply Hin in Hd as (b & Hb' & <-).
    by apply (proj1 (Forall_forall _ _) Hafter).
  - destruct frames; [|simpl; lia].
    unfold processTimeline in Hp.
    destruct (groupBuckets all) as [bucketsByDate uniqueDates].
    simpl in *. case_decide as Hlen; [done|].
    destruct (sortDates uniqueDates); [done|]. by simpl in Hdates.
  - rewrite <- (length_fmap Frame.date frames), Hdates, sortDates_Permutation.
    rewrite <- (length_fmap Bucket.date all).
    apply submseteq_length, NoDup_submseteq; [exact Hnd|].
    intros d (b & Hb' & <-)%Hin. by apply list_elem_of_fmap_2.
Qed.

Lemma frames_are_dated_after_the_start_witness :
  Forall (fun f => START_DATE < Frame.date f) historyFrames /\
  (0 < length historyFrames <= length sampleHistory)%nat.
Proof.
  apply (@frames_are_dated_after_the_start sampleBuiltins
           (serve sampleDataset) 5 sampleHistory sampleMeta false sampleIds
           historyFrames).
  - intros n since page. apply serve_contract, sampleDataset_sorted.
  - vm_compute. reflexivity.
  - vm_compute. reflexivity.
Defined.

(** ** The bars of the chart *)

Lemma drawBar_Ok (mx st : num) (dom dom' : gmap string Bar.t) (rank : nat)
    (item : Entry.t) :
  drawBar mx st dom rank item = Ok dom' ->
  exists el,
    dom' = <[Entry.id item := placeBar mx st rank item el]> dom /\
    (dom !! Entry.id item = Some el \/
     (dom !! Entry.id item = None /\
      exists c, Entry.color item = Some c /\ el = createBar item c)).
Proof.
  unfold drawBar. intros (el & Hel & Hd)%bind_Ok. exists el.
  split; [by simplify_eq|].
  destruct (dom !! Entry.id item) as [el0|]; [left; by simplify_eq|].
  right. split; [done|].
  destruct (Entry.color item) as [c|]; [|done]. exists c. by simplify_eq.
Qed.

Lemma drawBar_Throw (mx st : num) (dom : gmap string Bar.t) (rank : nat)
    (item : Entry.t) (e : Error) :
  drawBar mx st dom rank item = Throw e ->
  e = TypeError /\ dom !! Entry.id item = None /\ Entry.color item = None.
Proof.
  unfold drawBar. intros [Hel | (el & _ & Hd)]%bind_Throw; [|done].
  destruct (dom !! Entry.id item); [done|].
  destruct (Entry.color item); [done|]. by simplify_eq.
Qed.

Section bars.
Context (mx st : num).

Lemma drawBars_spec (items : list Entry.t) :
  forall rank dom dom',
    NoDup (Entry.id <$> items) ->
    drawBars mx st rank items dom = (dom', None) ->
    (forall i item, items !! i = Some item ->
       exists el,
         dom' !! Entry.id item = Some (placeBar mx st (rank + i) item el) /\
         (dom !! Entry.id item = Some el \/
          (dom !! Entry.id item = None /\
           exists c, Entry.color item = Some c /\ el = createBar item c))) /\
    (forall id, id ∉ Entry.id <$> items -> dom' !! id = dom !! id).
Proof.
  induction items as [|item rest IH]; intros rank dom dom' Hnd Hd.
  { simpl in Hd. simplify_eq. split; [|done]. intros i item Hi.
    by rewrite lookup_nil in Hi. }
  cbn [drawBars] in Hd.
  destruct (drawBar mx st dom rank item) as [dom1|e] eqn:Hbar; [|done].
  rewrite fmap_cons in Hnd. apply NoDup_cons in Hnd as [Hfresh Hnd].
  destruct (IH _ _ _ Hnd Hd) as [Hplaced Hother].
  apply drawBar_Ok in Hbar as (el & -> & Hel).
  split.
  - intros [|i] item' Hi; simpl in Hi.
    + simplify_eq. exists el. split; [|done].
      rewrite (Hother _ Hfresh), lookup_insert_eq.
      by replace (rank + 0)%nat with rank by lia.
    + destruct (Hplaced i item' Hi) as (el' & Hlook & Hwas).
      assert (Hne : Entry.id item <> Entry.id item').
      { intros Heq. apply Hfresh. rewrite Heq.
        apply list_elem_of_fmap_2. by eapply list_elem_of_lookup_2. }
      exists el'. rewrite lookup_insert_ne in Hwas by done.
      split; [|done].
      by replace (rank + S i)%nat with (S rank + i)%nat by lia.
  - intros id Hid. rewrite fmap_cons in Hid.
    apply not_elem_of_cons in Hid as [Hne Hid].
    by rewrite (Hother _ Hid), lookup_insert_ne.
Qed.

Lemma drawBars_total (items : list Entry.t) :
  forall rank dom,
    (forall item, item ∈ items ->
       is_Some (Entry.color item) \/ is_Some (dom !! Entry.id item)) ->
    exists dom', drawBars mx st rank items dom = (dom', None).
Proof.
  induction items as [|item rest IH]; intros rank dom Hok; [by eexists|].
  cbn [drawBars].
  destruct (drawBar mx st dom rank item) as [dom1|e] eqn:Hbar.
  - apply drawBar_Ok in Hbar as (el & -> & _).
    apply IH. intros item' Hin.
    destruct (Hok item' ltac:(by right)) as [Hc|Hd]; [by left|right].
    rewrite lookup_insert. by case_decide.
  - apply drawBar_Throw in Hbar as (_ & Hnone & Hcol).
    destruct (Hok item ltac:(left)) as [[c Hc]|[el Hel]]; congruence.
Qed.

Lemma drawBars_thrown (items : list Entry.t) :
  forall rank dom dom1 e,
    drawBars mx st rank items dom = (dom1, Some e) ->
    e = TypeError /\
    (exists item, item ∈ items /\ Entry.color item = None /\
                  dom !! Entry.id item = None) /\
    (forall id, is_Some (dom !! id) -> is_Some (dom1 !! id)).
Proof.
  induction items as [|item rest IH]; intros rank dom dom1 e Hd; [done|].
  cbn [drawBars] in Hd.
  destruct (drawBar mx st dom rank item) as [dom2|e'] eqn:Hbar.
  - apply drawBar_Ok in Hbar as (el & -> & _).
    destruct (IH _ _ _ _ Hd) as (-> & (item' & Hin & Hcol & Hnone) & Hkeep).
    split; [done|]. split.
    + exists item'. split; [by right|]. split; [done|].
      rewrite lookup_insert in Hnone. by case_decide.
    + intros id Hid. apply Hkeep. rewrite lookup_insert. by case_decide.
  - simplify_eq. apply drawBar_Throw in Hbar as (-> & Hnone & Hcol).
    split; [done|]. split; [|done]. exists item. by split; [left|].
Qed.
End bars.

Lemma hideOthers_lookup (activeIds : list string) (dom : gmap string Bar.t)
    (id : string) :
  hideOthers activeIds dom !! id
  = (fun el => if decide (id ∈ activeIds) then el else hideBar el) <$> dom !! id.
Proof.
  unfold hideOthers. rewrite map_lookup_imap. by destruct (dom !! id).
Qed.

(** X22. When the ranking shown names no operator twice and every
    operator without a row has a colour, [renderFrame] draws the bars
    without an exception.  Afterwards the operator at each rank has a
    visible row placed at 18 px times the rank, numbered from 1, with the
    width and the markers of its value, and with the name and colour
    given to the row when it was made; every other row is hidden and
    parked at 700 px, and no row is removed.  With at most 50 entries the
    visible rows fit into the 50 row heights of the container. *)
Theorem renderBars_shows_the_ranking `{MathHost}
    (frame : Frame.t) (activeMetric : Metric)
    (domElements : gmap string Bar.t) :
  let currentRankings := Frame.rankings activeMetric frame in
  NoDup (Entry.id <$> currentRankings) ->
  (forall item, item ∈ currentRankings ->
     is_Some (Entry.color item) \/ is_Some (domElements !! Entry.id item)) ->
  exists domElements',
    renderBars frame activeMetric domElements = (domElements', None) /\
    (forall rank item, currentRankings !! rank = Some item ->
       exists el,
         domElements' !! Entry.id item
           = Some (placeBar (maxValWei currentRankings)
                            (scaleStepData frame activeMetric) rank item el) /\
         (domElements !! Entry.id item = Some el \/
          (domElements !! Entry.id item = None /\
           exists c, Entry.color item = Some c /\ el = createBar item c)) /\
         ((length currentRankings <= DISPLAY_COUNT)%nat ->
          0 <= Z.of_nat rank * ROW_HEIGHT /\
          Z.of_nat rank * ROW_HEIGHT + ROW_HEIGHT
            <= Z.of_nat DISPLAY_COUNT * ROW_HEIGHT)) /\
    (forall id, id ∉ Entry.id <$> currentRankings ->
       domElements' !! id = hideBar <$> domElements !! id).
Proof.
  intros rk Hnd Hok.
  destruct (drawBars_total (maxValWei rk) (scaleStepData frame activeMetric)
              rk 0 domElements Hok) as [dom1 Hdraw].
  destruct (drawBars_spec _ _ _ _ _ _ Hnd Hdraw) as [Hplaced Hother].
  exists (hideOthers (Entry.id <$> rk) dom1). split; [|split].
  - unfold renderBars. fold rk. by rewrite Hdraw.
  - intros rank item Hrank.
    destruct (Hplaced rank item Hrank) as (el & Hlook & Hwas).
    exists el. split; [|split; [done|]].
    + rewrite hideOthers_lookup, Hlook. cbn [fmap option_fmap option_map].
      destruct (decide _) as [_|Hout]; [done|]. exfalso. apply Hout.
      apply list_elem_of_fmap_2. by eapply list_elem_of_lookup_2.
    + intros Hlen. apply lookup_lt_Some in Hrank.
      unfold ROW_HEIGHT, DISPLAY_COUNT in *. lia.
  - intros id Hid. rewrite hideOthers_lookup, (Hother id Hid).
    by destruct (decide _).
Qed.

Lemma renderBars_shows_the_ranking_witness :
  exists domElements',
    @renderBars sampleMath addressFrame Stake ∅ = (domElements', None) /\
    Bar.top <$> domElements' !! "0x00a1" = Some 0 /\
    Bar.top <$> domElements' !! "0x00b2" = Some 18.
Proof.
  destruct (@renderBars_shows_the_ranking sampleMath addressFrame Stake ∅)
    as (dom' & Hr & Hplaced & _).
  - apply (bool_decide_unpack _). vm_compute. exact I.
  - intros item Hin. left.
    repeat (apply elem_of_cons in Hin as [->|Hin]; [by eexists|]).
    by apply elem_of_nil in Hin.
  - exists dom'. split; [exact Hr|]. split.
    + destruct (Hplaced 0%nat
                  (Entry.mk "0x00a1" "100" (Fin 100) (Some (JString "Alpha"))
                            (Some "bg-stone-600")) eq_refl)
        as (el & Hlook & _).
      cbn [Entry.id] in Hlook. rewrite Hlook. reflexivity.
    + destruct (Hplaced 1%nat
                  (Entry.mk "0x00b2" "70" (Fin 70) (Some (JString "Beta"))
                            (Some "bg-slate-600")) eq_refl)
        as (el & Hlook & _).
      cbn [Entry.id] in Hlook. rewrite Hlook. reflexivity.
Defined.

(** X23. [renderFrame] can fail while it draws the bars, in one way only:
    with a [TypeError], at an entry that has no colour and no row yet.
    The rows that existed before are all still there. *)
Theorem renderBars_throws `{MathHost}
    (frame : Frame.t) (activeMetric : Metric)
    (domElements domElements' : gmap string Bar.t) (e : Error) :
  renderBars frame activeMetric domElements = (domElements', Some e) ->
  e = TypeError /\
  (exists item, item ∈ Frame.rankings activeMetric frame /\
                Entry.color item = None /\
                domElements !! Entry.id item = None) /\
  (forall id, is_Some (domElements !! id) -> is_Some (domElements' !! id)).
Proof.
  unfold renderBars.
  destruct (drawBars _ _ 0 _ domElements) as [dom1 [e'|]] eqn:Hdraw; [|done].
  intros [= <- <-]. by apply drawBars_thrown in Hdraw.
Qed.

Lemma renderBars_throws_witness :
  exists item, item ∈ Frame.stake sampleFrame3 /\
               Entry.color item = None /\
               (∅ : gmap string Bar.t) !! Entry.id item = None.
Proof.
  destruct (@renderBars_throws sampleMath sampleFrame3 Stake ∅
              (fst (@renderBars sampleMath sampleFrame3 Stake ∅)) TypeError)
    as (_ & Hitem & _).
  - vm_compute. reflexivity.
  - exact Hitem.
Defined.

(** X24. A race between operators whose ids end in two hexadecimal
    digits draws every frame without an exception: the metadata loop has
    given each of them a colour, so that [renderFrame] can make a row for
    every entry of every ranking, whatever rows exist already. *)
Theorem address_races_draw_every_frame `{Builtins} `{MathHost}
    (ops : list (string * Json)) (before : gmap string Meta.t)
    (filterDeprecated : bool) (buckets : list Bucket.t)
    (operatorIds : list string) (frames : list Frame.t) :
  (forall id mt, before !! id = Some mt -> Meta.color mt = colorOf id) ->
  Forall endsInHex operatorIds ->
  processTimeline (fold_left storeMeta ops before) filterDeprecated buckets
                  operatorIds = Ok frames ->
  forall f m domElements, f ∈ frames ->
    exists domElements', renderBars f m domElements = (domElements', None).
Proof.
  intros Hbefore Hhex Hp f m dom Hf.
  destruct (drawBars_total (maxValWei (Frame.rankings m f))
              (scaleStepData f m) (Frame.rankings m f) 0 dom) as [dom1 Hdraw].
  { intros e He. left.
    destruct (ranked_entry_valid _ _ _ _ _ _ _ _ Hp Hf He)
      as (Hin & Hvalid & _ & Hcolor).
    apply isValid_spec in Hvalid as (mt & Hmt & _).
    rewrite Hmt in Hcolor. simpl in Hcolor.
    rewrite Hcolor, (storeMeta_colours ops before Hbefore _ _ Hmt).
    apply (proj1 (Forall_forall _ _) Hhex) in Hin
      as (pre & h & l & a & b & -> & Hh & Hl).
    destruct (colorOf_two_digits pre h l a b Hh Hl) as [-> Hlt].
    by apply lookup_lt_is_Some. }
  exists (hideOthers (Entry.id <$> Frame.rankings m f) dom1).
  unfold renderBars. by rewrite Hdraw.
Qed.

Lemma address_races_draw_every_frame_witness :
  exists domElements',
    @renderBars sampleMath addressFrame Earnings ∅ = (domElements', None).
Proof.
  apply (@address_races_draw_every_frame sampleBuiltins sampleMath addressOps ∅ false
           addressBuckets addressOps.*1 addressFrames).
  - intros id mt. by rewrite lookup_empty.
  - repeat constructor.
    + by exists "0x00", "a"%char, "1"%char, 10, 1.
    + by exists "0x00", "b"%char, "2"%char, 11, 2.
  - reflexivity.
  - apply list_elem_of_lookup. by exists 0%nat.
Defined.
